(** * Argus indexer: formula environment and compute endpoint

    A shallow embedding of the formula environment ([getEnv], the typed
    getters handed to a formula) and of the [computer] route of the
    indexer, together with the properties of the query/compute engine
    that its specification states.

    Asynchronous code is sequential here: every [await] in the modelled
    functions is a plain sequencing point, and transport failures of the
    database are outside the model. *)

From Stdlib Require Import ZArith Ascii String List Bool Lia.
From stdpp Require Import base option list gmap strings sorting pretty.

Local Open Scope string_scope.
Local Open Scope list_scope.
Local Open Scope Z_scope.

(** ** Data model *)

(** [Block] of [@/types]: a height and its wall-clock time. *)
Record Block := { height : Z; timeUnixMs : Z }.

(** One segment of a composed state key, as accepted by [dbKeyForKeys]:
    [string | number | Uint8Array]. *)
Inductive KeyPart :=
| KString (s : string)
| KNumber (n : Z)
| KBytes (b : list Byte.byte).

(** Rows of the event tables the getters below read.  Big integers are
    [Z]; text columns are [string]; a nullable column is an [option]. *)
Record WasmStateEvent := {
  wse_contractAddress : string;
  wse_key : string;
  wse_blockHeight : Z;
  wse_blockTimeUnixMs : Z;
  wse_value : option string;
  wse_delete : bool
}.

Record Contract := { c_address : string; c_codeId : Z }.

(** A transformation row, with the code id of its joined [Contract].  The
    JSONB [value] column is kept as its text; [None] is SQL [null]. *)
Record WasmStateEventTransformation := {
  wset_contractAddress : string;
  wset_name : string;
  wset_blockHeight : Z;
  wset_blockTimeUnixMs : Z;
  wset_value : option string;
  wset_codeId : Z
}.

Record WasmTxEvent := {
  wte_contractAddress : string;
  wte_blockHeight : Z;
  wte_blockTimeUnixMs : Z;
  wte_txIndex : Z;
  wte_action : option string
}.

Record BankBalance := {
  bb_address : string;
  bb_blockHeight : Z;
  bb_balances : gmap string string
}.

Record BankStateEvent := {
  bse_address : string;
  bse_denom : string;
  bse_blockHeight : Z;
  bse_balance : string
}.

(** The class-based event families as one tagged sum; [instanceof] is a
    test on the tag. *)
Inductive Event :=
| EvWasmState (e : WasmStateEvent)
| EvTransformation (t : WasmStateEventTransformation)
| EvWasmTx (e : WasmTxEvent)
| EvBankBalance (b : BankBalance)
| EvBankState (e : BankStateEvent).

Inductive Family :=
| FWasmState | FTransformation | FWasmTx | FBankBalance | FBankState.

Inductive Table :=
| TWasmStateEvent | TWasmStateEventTransformation | TWasmTxEvent
| TBankBalance | TBankStateEvent | TContract.

Record Database := {
  wasmStateEvents : list WasmStateEvent;
  wasmStateEventTransformations : list WasmStateEventTransformation;
  wasmTxEvents : list WasmTxEvent;
  bankBalances : list BankBalance;
  bankStateEvents : list BankStateEvent;
  contractRows : list Contract
}.

(** An entry of the dependency recorder. *)
Record DependentKey := { dk_key : string; dk_prefix : bool }.

(** What a getter does besides returning: it appends to the dependency
    recorder, runs a database query, or calls the [onFetch] hook.  The
    chronological list of these is kept next to the store so that order
    and number of reads can be stated. *)
Inductive Effect :=
| Recorded (d : DependentKey)
| Queried (t : Table)
| Hooked (rows : list Event).

(** A JavaScript completion: a value, or a thrown error. *)
Inductive Outcome (A : Type) :=
| Returned (a : A)
| Thrown (msg : string).
Arguments Returned {A} a.
Arguments Thrown {A} msg.

(** Helpers imported by the environment whose source is not part of the
    modelled files ([@/utils], [JSON], the wasm code service, the bank
    tracer constant, the static namespaces of the model classes).  They
    are taken as given. *)
Class Runtime := {
  Json : Type;
  (** [JSON.parse]; [None] is a thrown [SyntaxError]. *)
  JSON_parse : string → option Json;
  dbKeyForKeys : list KeyPart → string;
  (** [dbKeyToKeys], its results as JavaScript property keys. *)
  dbKeyToKeys : string → list bool → list string;
  getDependentKey : string → list string → string;
  dependentKeyNamespace : Family → string;
  (** [WasmCodeService.getInstance().findWasmCodeIdsByKeys]. *)
  findWasmCodeIdsByKeys : list string → list Z;
  BANK_HISTORY_CODE_IDS_KEYS : list string;
  (** The state the [onFetch] callback works on. *)
  HookState : Type
}.

(** ** Queries *)

(** [ORDER BY height DESC LIMIT 1]: a row of greatest height. *)
Fixpoint newest {A : Type} (h : A → Z) (rows : list A) : option A :=
  match rows with
  | [] => None
  | r :: rest =>
      match newest h rest with
      | None => Some r
      | Some b => if bool_decide (h b ≤ h r) then Some r else Some b
      end
  end.

(** [WasmStateEvent.findOne({ where: { contractAddress, key, blockHeight:
    { [Op.lte]: h } }, order: [['blockHeight', 'DESC']] })]. *)
Definition WasmStateEvent_findOne (db : Database)
    (contractAddress key : string) (h : Z) : option WasmStateEvent :=
  newest wse_blockHeight
    (filter (λ r, wse_contractAddress r = contractAddress
                  ∧ wse_key r = key ∧ wse_blockHeight r ≤ h)
            (wasmStateEvents db)).

(** ** The formula environment *)

Section Environment.
Context `{Runtime}.

(** The options [getEnv] reads in the getters below ([args], [chainId]
    and [useBlockDate] only feed the returned record). *)
Record EnvOptions := {
  block : Block;
  onFetch : option (list Event → HookState → HookState)
}.

(** Mutable state of one evaluation: the memo [cache], the
    [dependentKeys] array when the caller passed one, the state of the
    hook, and the effects so far. *)
Record Store := {
  events : gmap string (option (list Event));
  contracts : gmap string (option Contract);
  dependentKeys : option (list DependentKey);
  hookState : HookState;
  effects : list Effect
}.

Definition M (A : Type) : Type := Store → Store * Outcome A.

Definition ret {A} (a : A) : M A := λ s, (s, Returned a).
Definition throw {A} (msg : string) : M A := λ s, (s, Thrown msg).
Definition bind {A B} (m : M A) (k : A → M B) : M B :=
  λ s, match m s with
       | (s', Returned a) => k a s'
       | (s', Thrown msg) => (s', Thrown msg)
       end.

Definition emit (e : Effect) (s : Store) : Store :=
  {| events := events s; contracts := contracts s;
     dependentKeys := dependentKeys s; hookState := hookState s;
     effects := effects s ++ [e] |}.

(** [dependentKeys?.push(d)] *)
Definition push_dependentKey (d : DependentKey) : M unit :=
  λ s, match dependentKeys s with
       | Some ds =>
           (emit (Recorded d)
              {| events := events s; contracts := contracts s;
                 dependentKeys := Some (ds ++ [d]);
                 hookState := hookState s; effects := effects s |},
            Returned tt)
       | None => (s, Returned tt)
       end.

(** [cache.events[k]]: [None] is [undefined] (not tried), [Some None]
    is [null] (tried, nothing there). *)
Definition cache_events (k : string) : M (option (option (list Event))) :=
  λ s, (s, Returned (events s !! k)).

(** [cache.events[k] = v] *)
Definition set_cache_events (k : string) (v : option (list Event)) : M unit :=
  λ s, ({| events := <[k := v]> (events s); contracts := contracts s;
           dependentKeys := dependentKeys s; hookState := hookState s;
           effects := effects s |}, Returned tt).

(** A database round trip on table [t] yielding [result]. *)
Definition query {A} (t : Table) (result : A) : M A :=
  λ s, (emit (Queried t) s, Returned result).

(** [await onFetch?.(rows)] *)
Definition call_onFetch (opts : EnvOptions) (rows : list Event) : M unit :=
  λ s, match onFetch opts with
       | Some hook =>
           (emit (Hooked rows)
              {| events := events s; contracts := contracts s;
                 dependentKeys := dependentKeys s;
                 hookState := hook rows (hookState s);
                 effects := effects s |},
            Returned tt)
       | None => (s, Returned tt)
       end.
End Environment.

Notation "'let*' x ':=' m 'in' k" := (bind m (λ x, k))
  (at level 10, x pattern, m at level 100, k at level 200, only parsing).

(** [for (const x of l) body(x)] and [l.forEach(body)]. *)
Fixpoint for_each `{Runtime} {A} (l : list A) (body : A → M unit) : M unit :=
  match l with
  | [] => ret tt
  | x :: rest => let* _ := body x in for_each rest body
  end.

(** ** String helpers of the JavaScript runtime *)

(** [s.slice(n)] *)
Definition slice_from (n : nat) (s : string) : string :=
  String.substring n (String.length s - n) s.

(** [s.endsWith(suffix)] *)
Definition endsWith (s suffix : string) : bool :=
  let n := String.length s in
  let m := String.length suffix in
  (m <=? n)%nat && String.eqb (String.substring (n - m) m s) suffix.

(** ** More queries *)

(** [SELECT DISTINCT ON (key) ... ORDER BY key ASC, blockHeight DESC] over
    the rows already selected by the [where] clause: per key, a row of
    greatest height, keys ascending. *)
Definition distinct_on {A : Type} (key : A → string) (h : A → Z)
    (rows : list A) : list A :=
  omap (λ k, newest h (filter (λ r, key r = k) rows))
       (merge_sort (λ a b : string, String.leb a b)
                   (remove_dups (key <$> rows))).

(** The [key] condition that [prefetch] builds. *)
Inductive KeyFilter :=
| KeyIn (ks : list string)
| KeyRegexp (prefixes : list string)
| KeyInOrRegexp (ks prefixes : list string).

(** [^(p1|p2|...).+]: the key starts with one of the prefixes and goes on
    for at least one more character.  Composed keys are made of decimal
    digits and commas, so no prefix contains a metacharacter. *)
Definition regexp_prefix_plus (prefixes : list string) (k : string) : bool :=
  existsb (λ p, String.prefix p k && (String.length p <? String.length k)%nat)
          prefixes.

Definition key_filter_matches `{Runtime} (f : KeyFilter) (k : string) : bool :=
  match f with
  | KeyIn ks => bool_decide (k ∈ ks)
  | KeyRegexp ps => regexp_prefix_plus ps k
  | KeyInOrRegexp ks ps => bool_decide (k ∈ ks) || regexp_prefix_plus ps k
  end.

(** [ORDER BY blockHeight DESC] on transaction events. *)
Definition newer_first (a b : WasmTxEvent) : Prop :=
  wte_blockHeight b ≤ wte_blockHeight a.

#[global] Instance newer_first_dec a b : Decision (newer_first a b).
Proof. unfold newer_first. apply _. Defined.

(** A [where] object over transaction events: its conditions by key,
    the name of a column or of an operator at the top level.  A row is
    selected when it meets the condition under every key. *)
Definition WhereOptions : Type := gmap string (WasmTxEvent → bool).

Definition where_matches (where_ : WhereOptions) (r : WasmTxEvent) : bool :=
  forallb (λ condition, condition.2 r) (map_to_list where_).

(** [name LIKE p || '%'] for one of the prefixes. *)
Definition like_any_prefix (prefixes : list string) (k : string) : bool :=
  existsb (λ p, String.prefix p k) prefixes.

(** ** Getters of the environment *)

(** The [name] argument of [getMap]: one segment or an array of them. *)
Inductive MapName :=
| NameOne (name : KeyPart)
| NameMany (names : list KeyPart).

Inductive KeyType := KeyTypeString | KeyTypeNumber | KeyTypeRaw.

(** One entry of [prefetch]'s [listOfKeys]:
    [string | number | Uint8Array | { keys, map? }]. *)
Inductive PrefetchKey :=
| PfString (s : string)
| PfNumber (n : Z)
| PfBytes (b : list Byte.byte)
| PfKeys (keys : list KeyPart) (map : option bool).

(** One entry of [prefetchTransformations]'s [listOfNames]:
    [string | { name, map? }]. *)
Inductive PrefetchName :=
| PnString (s : string)
| PnObject (name : string) (map : option bool).

Section Getters.
Context `{Runtime} (db : Database) (opts : EnvOptions).

(** [blockHeightFilter]: [{ [Op.lte]: block.height }]. *)
Definition blockHeightFilter (h : Z) : Prop := h ≤ height (block opts).

#[global] Instance blockHeightFilter_dec h : Decision (blockHeightFilter h).
Proof. unfold blockHeightFilter. apply _. Defined.

Definition wasmDependentKey (contractAddress key : string) : string :=
  getDependentKey (dependentKeyNamespace FWasmState) [contractAddress; key].

Definition get (contractAddress : string) (keys : list KeyPart)
    : M (option Json) :=
  let key := dbKeyForKeys keys in
  let dependentKey := wasmDependentKey contractAddress key in
  let* _ := push_dependentKey {| dk_key := dependentKey; dk_prefix := false |} in
  let* cachedEvent := cache_events dependentKey in
  let* event :=
    match cachedEvent with
    | Some cached => ret (head (default [] cached))
    | None =>
        query TWasmStateEvent
          (EvWasmState <$>
             WasmStateEvent_findOne db contractAddress key (height (block opts)))
    end in
  match event with
  | Some (EvWasmState e) =>
      let* _ :=
        match cachedEvent with
        | None => set_cache_events dependentKey (Some [EvWasmState e])
        | Some _ => ret tt
        end in
      let* _ := call_onFetch opts [EvWasmState e] in
      if wse_delete e then ret None
      else match JSON_parse (default "null" (wse_value e)) with
           | Some value => ret (Some value)
           | None => throw "SyntaxError"
           end
  | Some _ => throw "Incorrect event type."
  | None =>
      let* _ :=
        match cachedEvent with
        | None => set_cache_events dependentKey None
        | Some _ => ret tt
        end in
      ret None
  end.

Definition mapKeyPrefix (name : MapName) : string :=
  (match name with
   | NameMany names => dbKeyForKeys (names ++ [KString ""])
   | NameOne name => dbKeyForKeys [name; KString ""]
   end) +:+ ",".

(** The [findAll] of [getMap]. *)
Definition WasmStateEvent_findAll_prefix (contractAddress keyPrefix : string)
    : list WasmStateEvent :=
  distinct_on wse_key wse_blockHeight
    (filter (λ r, wse_contractAddress r = contractAddress
                  ∧ String.prefix keyPrefix (wse_key r)
                  ∧ blockHeightFilter (wse_blockHeight r))
            (wasmStateEvents db)).

Definition is_WasmStateEvent (e : Event) : option WasmStateEvent :=
  match e with EvWasmState w => Some w | _ => None end.

Definition decodeMapKey (keyType : KeyType) (keyPrefix key : string) : string :=
  let rest := slice_from (String.length keyPrefix) key in
  match keyType with
  | KeyTypeString => default "undefined" (head (dbKeyToKeys rest [false]))
  | KeyTypeNumber => default "undefined" (head (dbKeyToKeys rest [true]))
  | KeyTypeRaw => rest
  end.

(** [map[mapKey] = value] on an object created as [{}], the object
    being modelled by its own properties: the key [__proto__] names the
    accessor inherited from [Object.prototype], so assigning to it adds
    no property (it replaces the prototype when the value is an object
    or [null]); every other key becomes, or overwrites, a property. *)
Definition assignProperty (mapKey : string) (value : Json)
    (map : gmap string Json) : gmap string Json :=
  if String.eqb mapKey "__proto__" then map else <[mapKey := value]> map.

(** The loop of [getMap] that fills the result object. *)
Fixpoint buildMap (keyType : KeyType) (keyPrefix : string)
    (undeleted : list WasmStateEvent) (map : gmap string Json)
    : Outcome (gmap string Json) :=
  match undeleted with
  | [] => Returned map
  | event :: rest =>
      match JSON_parse (default "null" (wse_value event)) with
      | Some value =>
          buildMap keyType keyPrefix rest
            (assignProperty (decodeMapKey keyType keyPrefix (wse_key event))
               value map)
      | None => Thrown "SyntaxError"
      end
  end.

Definition getMap (contractAddress : string) (name : MapName)
    (keyType : KeyType) : M (option (gmap string Json)) :=
  let keyPrefix := mapKeyPrefix name in
  let dependentKey := wasmDependentKey contractAddress keyPrefix in
  let* _ := push_dependentKey {| dk_key := dependentKey; dk_prefix := true |} in
  let* cachedEvents := cache_events dependentKey in
  let* events :=
    match cachedEvents with
    | Some cached => ret (default [] cached)
    | None =>
        query TWasmStateEvent
          (EvWasmState <$> WasmStateEvent_findAll_prefix contractAddress keyPrefix)
    end in
  match mapM is_WasmStateEvent events with
  | None => throw "Incorrect event type."
  | Some wasmEvents =>
      let* _ :=
        match cachedEvents with
        | None =>
            set_cache_events dependentKey
              (if bool_decide (events = []) then None else Some events)
        | Some _ => ret tt
        end in
      if bool_decide (events = []) then ret None
      else
        let* _ := call_onFetch opts events in
        let undeletedEvents := filter (λ e, wse_delete e = false) wasmEvents in
        match buildMap keyType keyPrefix undeletedEvents ∅ with
        | Returned map => ret (Some map)
        | Thrown msg => throw msg
        end
  end.

(** [getTxEvents]; [where_] is the optional extra [where] object.  It
    is spread first, [{ ...where, contractAddress, blockHeight }], so
    that its own conditions under these two keys are replaced. *)
Definition getTxEvents (contractAddress : string)
    (where_ : option WhereOptions) : M (option (list WasmTxEvent)) :=
  let* _ := push_dependentKey
              {| dk_key := getDependentKey (dependentKeyNamespace FWasmTx)
                             [contractAddress];
                 dk_prefix := true |} in
  let where' : WhereOptions :=
    <["blockHeight" := λ r, bool_decide (blockHeightFilter (wte_blockHeight r))]>
      (<["contractAddress" :=
           λ r, bool_decide (wte_contractAddress r = contractAddress)]>
         (default ∅ where_)) in
  let* txEvents :=
    query TWasmTxEvent
      (merge_sort newer_first
         (filter (λ r, where_matches where' r = true) (wasmTxEvents db))) in
  if bool_decide (txEvents = []) then ret None
  else ret (Some txEvents).

(** [cache.contracts[a]] and [cache.contracts[a] = c]. *)
Definition cache_contracts (a : string) : M (option (option Contract)) :=
  λ s, (s, Returned (contracts s !! a)).

Definition set_cache_contracts (a : string) (c : option Contract) : M unit :=
  λ s, ({| events := events s; contracts := <[a := c]> (contracts s);
           dependentKeys := dependentKeys s; hookState := hookState s;
           effects := effects s |}, Returned tt).

Definition getCodeIdsForKeys (keys : list string) : list Z :=
  findWasmCodeIdsByKeys keys.

(** [Contract.findOne({ where: { address } })] *)
Definition Contract_findOne (address : string) : option Contract :=
  head (filter (λ c, c_address c = address) (contractRows db)).

Definition getContract (contractAddress : string)
    (codeIdsKeysFilter : option (list string)) : M (option Contract) :=
  let codeIds :=
    match codeIdsKeysFilter with
    | Some (k :: ks) => Some (getCodeIdsForKeys (k :: ks))
    | _ => None
    end in
  let allowed (c : Contract) : bool :=
    match codeIds with
    | Some ids => bool_decide (c_codeId c ∈ ids)
    | None => true
    end in
  let* cachedContract := cache_contracts contractAddress in
  match cachedContract with
  | Some None => ret None
  | Some (Some cached) => if allowed cached then ret (Some cached) else ret None
  | None =>
      let* contract := query TContract (Contract_findOne contractAddress) in
      let* _ := set_cache_contracts contractAddress contract in
      match contract with
      | Some c => if allowed c then ret (Some c) else ret None
      | None => ret None
      end
  end.

Definition contractMatchesCodeIdKeys (contractAddress : string)
    (keys : list string) : M bool :=
  let* contract := getContract contractAddress (Some keys) in
  ret (bool_decide (is_Some contract)).

(** [BankBalance.findOne({ where: { address, blockHeight } })] *)
Definition BankBalance_findOne (address : string) : option BankBalance :=
  head (filter (λ r, bb_address r = address ∧ blockHeightFilter (bb_blockHeight r))
               (bankBalances db)).

(** [BankStateEvent.findOne], newest first. *)
Definition BankStateEvent_findOne (address denom : string)
    : option BankStateEvent :=
  newest bse_blockHeight
    (filter (λ r, bse_address r = address ∧ bse_denom r = denom
                  ∧ blockHeightFilter (bse_blockHeight r))
            (bankStateEvents db)).

(** The second half of [getBalance]: the per-denom history. *)
Definition getBalance_history (address denom : string) : M (option string) :=
  let* historyExists :=
    contractMatchesCodeIdKeys address BANK_HISTORY_CODE_IDS_KEYS in
  if negb historyExists then ret None
  else
    let dependentKey :=
      getDependentKey (dependentKeyNamespace FBankState) [address; denom] in
    let* _ := push_dependentKey {| dk_key := dependentKey; dk_prefix := false |} in
    let* cachedEvent := cache_events dependentKey in
    let* event :=
      match cachedEvent with
      | Some cached => ret (head (default [] cached))
      | None =>
          query TBankStateEvent
            (EvBankState <$> BankStateEvent_findOne address denom)
      end in
    match event with
    | Some (EvBankState e) =>
        let* _ :=
          match cachedEvent with
          | None => set_cache_events dependentKey (Some [EvBankState e])
          | Some _ => ret tt
          end in
        let* _ := call_onFetch opts [EvBankState e] in
        ret (Some (bse_balance e))
    | Some _ => throw "Incorrect event type."
    | None =>
        let* _ :=
          match cachedEvent with
          | None => set_cache_events dependentKey None
          | Some _ => ret tt
          end in
        ret None
    end.

Definition getBalance (address denom : string) : M (option string) :=
  let bankBalanceDependentKey :=
    getDependentKey (dependentKeyNamespace FBankBalance) [address] in
  let* cachedBalance := cache_events bankBalanceDependentKey in
  match cachedBalance with
  | Some (Some [EvBankBalance b]) =>
      let* _ := call_onFetch opts [EvBankBalance b] in
      ret (bb_balances b !! denom)
  | _ =>
      let* bankBalance :=
        match cachedBalance with
        | Some cached => ret (head (default [] cached))
        | None =>
            query TBankBalance (EvBankBalance <$> BankBalance_findOne address)
        end in
      let* _ :=
        match cachedBalance with
        | None =>
            set_cache_events bankBalanceDependentKey
              (match bankBalance with Some b => Some [b] | None => None end)
        | Some _ => ret tt
        end in
      match bankBalance with
      | Some (EvBankBalance b) =>
          let* _ := call_onFetch opts [EvBankBalance b] in
          ret (bb_balances b !! denom)
      | _ => getBalance_history address denom
      end
  end.
End Getters.

Section Prefetch.
Context `{Runtime} (db : Database) (opts : EnvOptions).

(** [typeof key === 'string' || typeof key === 'number']. *)
Definition is_string_or_number (key : PrefetchKey) : bool :=
  match key with PfString _ | PfNumber _ => true | _ => false end.

(** Truthiness of [key.map] on a value that is neither a string nor a
    number: the optional flag of an object, and the inherited
    [Uint8Array.prototype.map] method (a function, hence truthy) on a
    byte array. *)
Definition map_truthy (key : PrefetchKey) : bool :=
  match key with
  | PfBytes _ => true
  | PfKeys _ (Some true) => true
  | _ => false
  end.

(** The composed key of one request ([listOfKeys.map(...)]). *)
Definition prefetchDbKey (key : PrefetchKey) : string :=
  match key with
  | PfString s => dbKeyForKeys [KString s]
  | PfNumber n => dbKeyForKeys [KNumber n]
  | PfBytes b => dbKeyForKeys [KBytes b]
  | PfKeys keys map =>
      if map_truthy (PfKeys keys map)
      then dbKeyForKeys (keys ++ [KString ""]) +:+ ","
      else dbKeyForKeys keys
  end.

Definition nonMapKeys (listOfKeys : list PrefetchKey) : list string :=
  prefetchDbKey <$>
    filter (λ key, is_string_or_number key || negb (map_truthy key)) listOfKeys.

Definition mapKeyPrefixes (listOfKeys : list PrefetchKey) : list string :=
  prefetchDbKey <$>
    filter (λ key, negb (is_string_or_number key) && map_truthy key) listOfKeys.

(** [keyFilter]; [None] is the empty object [{}] that is left when no
    key is asked for. *)
Definition prefetchKeyFilter (listOfKeys : list PrefetchKey)
    : option KeyFilter :=
  match nonMapKeys listOfKeys, mapKeyPrefixes listOfKeys with
  | [], [] => None
  | ks, [] => Some (KeyIn ks)
  | [], ps => Some (KeyRegexp ps)
  | ks, ps => Some (KeyInOrRegexp ks ps)
  end.

(** A condition that is the empty object, [where: { key: {} }], is
    refused by Sequelize when it builds the query: [findAll] throws and
    nothing is read. *)
Definition invalidEmptyCondition : string := "Invalid value {}".

(** The [findAll] of [prefetch]. *)
Definition WasmStateEvent_findAll_filter (contractAddress : string)
    (f : KeyFilter) : list WasmStateEvent :=
  distinct_on wse_key wse_blockHeight
    (filter (λ r, wse_contractAddress r = contractAddress
                  ∧ key_filter_matches f (wse_key r)
                  ∧ blockHeightFilter opts (wse_blockHeight r))
            (wasmStateEvents db)).

Definition memoEntry (event : WasmStateEvent) : option (list Event) :=
  if wse_delete event then None else Some [EvWasmState event].

Definition prefetch (contractAddress : string) (listOfKeys : list PrefetchKey)
    : M unit :=
  let keys := prefetchDbKey <$> listOfKeys in
  let* _ :=
    for_each keys (λ key,
      push_dependentKey
        {| dk_key := wasmDependentKey contractAddress key;
           dk_prefix := endsWith key "," |}) in
  let* events :=
    match prefetchKeyFilter listOfKeys with
    | Some keyFilter =>
        query TWasmStateEvent
          (WasmStateEvent_findAll_filter contractAddress keyFilter)
    | None => throw invalidEmptyCondition
    end in
  let* _ := call_onFetch opts (EvWasmState <$> events) in
  let* _ :=
    for_each (nonMapKeys listOfKeys) (λ key,
      set_cache_events (wasmDependentKey contractAddress key)
        (match head (filter (λ event, wse_key event = key) events) with
         | Some event => memoEntry event
         | None => None
         end)) in
  for_each (mapKeyPrefixes listOfKeys) (λ keyPrefix,
    let eventsForPrefix :=
      filter (λ event, String.prefix keyPrefix (wse_key event)) events in
    let* _ :=
      set_cache_events (wasmDependentKey contractAddress keyPrefix)
        (if bool_decide (eventsForPrefix = []) then None
         else Some (EvWasmState <$> eventsForPrefix)) in
    for_each eventsForPrefix (λ event,
      set_cache_events (wasmDependentKey contractAddress (wse_key event))
        (memoEntry event))).

(** The [name] condition that [prefetchTransformations] builds, as a
    test: listed names, and names that begin with a listed prefix;
    [None] is the empty object [{}]. *)
Definition prefetchNameFilter (nonMapNames mapNamePrefixes : list string)
    : option (string → bool) :=
  match nonMapNames, mapNamePrefixes with
  | [], [] => None
  | ns, [] => Some (λ name, bool_decide (name ∈ ns))
  | [], ps => Some (like_any_prefix ps)
  | ns, ps => Some (λ name, bool_decide (name ∈ ns) || like_any_prefix ps name)
  end.

Definition transformationName (name : PrefetchName) : string :=
  match name with
  | PnString s => s
  | PnObject n _ => n +:+ ":"
  end.

(** [typeof name === 'string'] and the truthiness of [name.map]. *)
Definition is_name_string (name : PrefetchName) : bool :=
  match name with PnString _ => true | _ => false end.

Definition name_map_truthy (name : PrefetchName) : bool :=
  match name with PnObject _ (Some true) => true | _ => false end.

Definition transformationMemoEntry (t : WasmStateEventTransformation)
    : option (list Event) :=
  match wset_value t with
  | None => None
  | Some _ => Some [EvTransformation t]
  end.

Definition prefetchTransformations (contractAddress : string)
    (listOfNames : list PrefetchName) : M unit :=
  let dependentKeyOf name :=
    getDependentKey (dependentKeyNamespace FTransformation)
      [contractAddress; name] in
  let names := transformationName <$> listOfNames in
  let* _ :=
    for_each names (λ key,
      push_dependentKey
        {| dk_key := dependentKeyOf key; dk_prefix := endsWith key ":" |}) in
  let nonMapNames :=
    transformationName <$>
      filter (λ n, is_name_string n) listOfNames in
  let mapNamePrefixes :=
    transformationName <$>
      filter (λ n, negb (is_name_string n) && name_map_truthy n) listOfNames in
  let* transformations :=
    match prefetchNameFilter nonMapNames mapNamePrefixes with
    | Some nameFilter =>
        query TWasmStateEventTransformation
          (distinct_on wset_name wset_blockHeight
             (filter (λ r, wset_contractAddress r = contractAddress
                           ∧ nameFilter (wset_name r)
                           ∧ blockHeightFilter opts (wset_blockHeight r))
                     (wasmStateEventTransformations db)))
    | None => throw invalidEmptyCondition
    end in
  let* _ := call_onFetch opts [] in
  let* _ :=
    for_each nonMapNames (λ name,
      set_cache_events (dependentKeyOf name)
        (match head (filter (λ t, wset_name t = name) transformations) with
         | Some t => transformationMemoEntry t
         | None => None
         end)) in
  for_each mapNamePrefixes (λ mapNamePrefix,
    let transformationsForPrefix :=
      filter (λ t, String.prefix mapNamePrefix (wset_name t)) transformations in
    let* _ :=
      set_cache_events (dependentKeyOf mapNamePrefix)
        (if bool_decide (transformationsForPrefix = []) then None
         else Some (EvTransformation <$> transformationsForPrefix)) in
    for_each transformationsForPrefix (λ t,
      set_cache_events (dependentKeyOf (wset_name t))
        (transformationMemoEntry t))).
End Prefetch.

(** ** The compute endpoint *)

Inductive FormulaType := FtContract | FtValidator | FtAccount | FtGeneric.

Record FormulaFilter := { codeIdsKeys : option (list string) }.

(** A registered formula, as far as the route looks at it. *)
Record Formula := { f_dynamic : bool; f_filter : option FormulaFilter }.

Record TypedFormula := {
  tf_type : FormulaType;
  tf_name : string;
  tf_formula : Formula
}.

(** [getTypedFormula]: the formula, the "Formula not found" error, or
    some other error. *)
Inductive FormulaLookup :=
| FormulaFound (f : TypedFormula)
| FormulaNotFound
| FormulaLookupFailed (msg : string).

Record AccountKey := { ak_id : Z; ak_isTest : bool }.

(** A stored [Computation] row. *)
Record Computation := {
  cmp_targetAddress : string;
  cmp_formula : string;
  cmp_args : string;
  cmp_block : Block;
  cmp_output : option string;
  cmp_latestBlockHeightValid : Z
}.

(** A value of [ctx.query]: [undefined], a string, or an array of
    strings when the parameter is repeated. *)
Inductive QueryValue :=
| QAbsent
| QString (s : string)
| QArray (l : list string).

(** What is left of a request once routing and API-key checks (which come
    first and can answer on their own) have let it through: the path
    parts, the account key if keys are in use, and the query. *)
Record Request := {
  rq_type : FormulaType;
  rq_address : string;
  rq_formulaName : string;
  rq_accountKey : option AccountKey;
  rq_block : QueryValue;
  rq_blocks : QueryValue;
  rq_blockStep : QueryValue;
  rq_time : QueryValue;
  rq_times : QueryValue;
  rq_timeStep : QueryValue;
  rq_args : string
}.

(** The query parameters after validation. *)
Record Parsed := {
  p_block : option Block;
  p_blocks : option (Block * Block);
  p_blockStep : option Z;
  p_time : option Z;
  p_times : option (Z * option Z);
  p_timeStep : option Z
}.

(** [s.split('..')] *)
Fixpoint split_dots (current : string) (s : string) : list string :=
  match s with
  | EmptyString => [current]
  | String "."%char (String "."%char rest) => current :: split_dots "" rest
  | String c rest => split_dots (current +:+ String c "") rest
  end.

(** [x && typeof x === 'string']: a non-empty string. *)
Definition truthy_string (q : QueryValue) : option string :=
  match q with
  | QString s => if String.eqb s "" then None else Some s
  | _ => None
  end.

Section Computer.
Context `{Runtime}.

(** One piece of a range result, and what [compute] and [computeRange]
    produce. *)
Record Piece := { piece_value : option Json; piece_block : Block }.

Record ComputationOutput := {
  co_block : Block;
  co_value : option Json;
  co_latestBlockHeightValid : Z
}.

Inductive Body :=
| BodyText (text : string)
| BodyValue (value : option Json).

Record Response := { status : Z; body : Body }.

(** What the route does to its collaborators, in order. *)
Inductive Call :=
| UsedCredit (amount : option Z)
| FoundOneComputation
| FoundAllComputations
| UpdatedValidity (c : Computation) (upTo : Z)
| ComputedRange (blockStart blockEnd : Block)
| Created (outputs : list ComputationOutput)
| Computed (b : Block).

(** The collaborators of the route whose source is not part of the
    modelled file, and the state the process holds.  They are taken as
    given; each database-backed one stands for its answer on the
    database as it is during the request. *)
Class Server := {
  validateBlockString : string → string → Outcome Block;
  (** [BigInt(s)]; [None] is a thrown [SyntaxError]. *)
  BigInt : string → option Z;
  getTypedFormula : FormulaType → string → FormulaLookup;
  Contract_findByPk : string → option Contract;
  Validator_findByPk : string → bool;
  state_chainId : string;
  state_latestBlock : Block;
  currentTime : Z;
  Block_getForTime : Z → option Block;
  Block_getFirst : option Block;
  useCredit : AccountKey → option Z → bool;
  creditsForBlockInterval : Z → Z;
  updateValidityUpToBlockHeight : Computation → Z → bool;
  computeRange : TypedFormula → string → string → Block → Block
                 → Outcome (list ComputationOutput);
  createFromComputationOutputs : string → TypedFormula → string
                                 → list ComputationOutput → list Computation;
  compute : TypedFormula → string → string → Block → Outcome ComputationOutput;
  processComputationRange : list Piece → option Z → option Z
                            → option (Block * Block)
                            → option (Z * option Z) → option Json;
  (** A JavaScript string as a value, [typeof v === 'string'], and
      [JSON.stringify] on strings. *)
  jsonString : string → Json;
  asString : Json → option string;
  JSON_stringify : string → string
}.

Context `{Server}.

(** A step of the route: the calls it made, and either the response it
    ended the request with or a value to go on with. *)
Definition Step (A : Type) : Type := list Call * (Response + A).

Definition proceed {A} (a : A) : Step A := ([], inr a).
Definition reply {A} (status : Z) (body : Body) : Step A :=
  ([], inl {| status := status; body := body |}).
Definition call (c : Call) : Step unit := ([c], inr tt).
Definition andThen {A B} (m : Step A) (k : A → Step B) : Step B :=
  match m with
  | (calls, inl r) => (calls, inl r)
  | (calls, inr a) => let '(calls', r) := k a in (calls ++ calls', r)
  end.
End Computer.

Notation "'let+' x ':=' m 'in' k" := (andThen m (λ x, k))
  (at level 10, x pattern, m at level 100, k at level 200, only parsing).

Section Route.
Context `{Runtime} `{!Server}.

Definition badRequest {A} (msg : string) : Step A := reply 400 (BodyText msg).

(** The [blocks] parameter and, with it, [blockStep]. *)
Definition validateBlocks (rq : Request)
    : Step (option (Block * Block) * option Z) :=
  match truthy_string (rq_blocks rq) with
  | None => proceed (None, None)
  | Some _blocks =>
      let parts := split_dots "" _blocks in
      match truthy_string (from_option QString QAbsent (parts !! 0%nat)),
            truthy_string (from_option QString QAbsent (parts !! 1%nat)) with
      | Some startBlock, Some endBlock =>
          match validateBlockString startBlock "the start block" with
          | Thrown msg => badRequest msg
          | Returned b0 =>
              match validateBlockString endBlock "the end block" with
              | Thrown msg => badRequest msg
              | Returned b1 =>
                  if bool_decide (height b1 ≤ height b0)
                     || bool_decide (timeUnixMs b1 ≤ timeUnixMs b0)
                  then badRequest "the start block must be before the end block"
                  else
                    match truthy_string (rq_blockStep rq) with
                    | None => proceed (Some (b0, b1), None)
                    | Some _blockStep =>
                        match BigInt _blockStep with
                        | Some blockStep =>
                            if bool_decide (blockStep < 1)
                            then badRequest "block step must be a positive integer"
                            else proceed (Some (b0, b1), Some blockStep)
                        | None =>
                            badRequest "block step must be a positive integer"
                        end
                    end
              end
          end
      | _, _ => badRequest "blocks must be a range of two blocks"
      end
  end.

(** The [times] parameter and, with it, [timeStep]. *)
Definition validateTimes (rq : Request)
    : Step (option (Z * option Z) * option Z) :=
  match truthy_string (rq_times rq) with
  | None => proceed (None, None)
  | Some _times =>
      let parts := split_dots "" _times in
      match truthy_string (from_option QString QAbsent (parts !! 0%nat)) with
      | None =>
          badRequest "times must be just a start time or both a start and end time"
      | Some startTime =>
          let endTime :=
            truthy_string (from_option QString QAbsent (parts !! 1%nat)) in
          match BigInt startTime,
                match endTime with
                | Some e => Some <$> BigInt e
                | None => Some None
                end with
          | Some t0, Some t1 =>
              if match t1 with
                 | Some t1 => bool_decide (t1 ≤ t0)
                 | None => false
                 end
              then badRequest "the start time must be less than the end time"
              else
                match truthy_string (rq_timeStep rq) with
                | None => proceed (Some (t0, t1), None)
                | Some _timeStep =>
                    match BigInt _timeStep with
                    | Some parsedStep =>
                        if bool_decide (parsedStep < 1)
                        then badRequest "time step must be a positive integer"
                        else proceed (Some (t0, t1), Some parsedStep)
                    | None => badRequest "time step must be a positive integer"
                    end
                end
          | _, _ => badRequest "times must be integers"
          end
      end
  end.

(** Validation of the address, the formula name and the query. *)
Definition validate (rq : Request) : Step Parsed :=
  if String.eqb (rq_address rq) "" then badRequest "missing address"
  else if String.eqb (rq_formulaName rq) "" then badRequest "missing formula"
  else
    let+ block :=
      match truthy_string (rq_block rq) with
      | None => proceed None
      | Some _block =>
          match validateBlockString _block "block" with
          | Returned b => proceed (Some b)
          | Thrown msg => badRequest msg
          end
      end in
    let+ (blocks, blockStep) := validateBlocks rq in
    let+ time :=
      match truthy_string (rq_time rq) with
      | None => proceed None
      | Some _time =>
          match BigInt _time with
          | Some time =>
              if bool_decide (time < 0)
              then badRequest "time must be an integer greater than or equal to zero"
              else proceed (Some time)
          | None =>
              badRequest "time must be an integer greater than or equal to zero"
          end
      end in
    let+ (times, timeStep) := validateTimes rq in
    proceed {| p_block := block; p_blocks := blocks; p_blockStep := blockStep;
               p_time := time; p_times := times; p_timeStep := timeStep |}.

(** The checks on the target: the contract exists and satisfies the
    formula's filter, or the validator exists. *)
Definition checkTarget (rq : Request) (typedFormula : TypedFormula) : Step unit :=
  match tf_type typedFormula with
  | FtContract =>
      match Contract_findByPk (rq_address rq) with
      | None => reply 404 (BodyText "contract not found")
      | Some contract =>
          match f_filter (tf_formula typedFormula) with
          | Some {| codeIdsKeys := Some (k :: ks) |} =>
              if bool_decide (c_codeId contract ∈ findWasmCodeIdsByKeys (k :: ks))
              then proceed tt
              else reply 405
                     (BodyText ("the " +:+ rq_formulaName rq
                                  +:+ " formula does not apply to contract "
                                  +:+ rq_address rq))
          | _ => proceed tt
          end
      end
  | FtValidator =>
      if Validator_findByPk (rq_address rq) then proceed tt
      else reply 404 (BodyText "validator not found")
  | _ => proceed tt
  end.

(** [Computation.findOne] and [Computation.findAll] of the reuse
    protocol, over the stored rows. *)
Definition sameQuery (rq : Request) (c : Computation) : Prop :=
  cmp_targetAddress c = rq_address rq ∧ cmp_formula c = rq_formulaName rq
  ∧ cmp_args c = rq_args rq.

#[global] Instance sameQuery_dec rq c : Decision (sameQuery rq c).
Proof. unfold sameQuery. apply _. Defined.

Definition existingStartComputation (stored : list Computation) (rq : Request)
    (blocks : Block * Block) : option Computation :=
  newest (λ c, height (cmp_block c))
    (filter (λ c, sameQuery rq c ∧ height (cmp_block c) ≤ height blocks.1)
            stored).

Definition ascending (a b : Computation) : Prop :=
  height (cmp_block a) ≤ height (cmp_block b).

#[global] Instance ascending_dec a b : Decision (ascending a b).
Proof. unfold ascending. apply _. Defined.

Definition existingRestComputations (stored : list Computation) (rq : Request)
    (blocks : Block * Block) : list Computation :=
  merge_sort ascending
    (filter (λ c, sameQuery rq c
                  ∧ height blocks.1 < height (cmp_block c)
                  ∧ height (cmp_block c) ≤ height blocks.2)
            stored).

(** [existingComputations.every((computation, i) => i === length - 1 ||
    BigInt(computation.latestBlockHeightValid) ===
    BigInt(existingComputations[i + 1].blockHeight) - 1n)] *)
Definition isRangeCoveredBeforeEnd (existingComputations : list Computation)
    : bool :=
  forallb (λ '(i, computation),
             bool_decide (i = (length existingComputations - 1)%nat)
             || match existingComputations !! S i with
                | Some next =>
                    bool_decide (cmp_latestBlockHeightValid computation
                                 = height (cmp_block next) - 1)
                | None => false
                end)
          (imap pair existingComputations).

(** [existing.map(({ block, output }) => ({ value: output &&
    JSON.parse(output), block }))]; [None] when a [JSON.parse] throws. *)
Definition pieceOf (c : Computation) : option Piece :=
  match cmp_output c with
  | None => Some {| piece_value := None; piece_block := cmp_block c |}
  | Some output =>
      if String.eqb output ""
      then Some {| piece_value := Some (jsonString ""); piece_block := cmp_block c |}
      else (λ v, {| piece_value := Some v; piece_block := cmp_block c |})
             <$> JSON_parse output
  end.

(** An error thrown inside the route's [try] ends the request with a
    500 that carries its message. *)
Definition internalError {A} (msg : string) : Step A := reply 500 (BodyText msg).

(** The reuse protocol: the pieces to answer with when the stored chain
    can be used, [None] when the range has to be computed. *)
Definition reuseExisting (stored : list Computation) (rq : Request)
    (typedFormula : TypedFormula) (blocks : Block * Block)
    : Step (option (list Piece)) :=
  let+ _ := call FoundOneComputation in
  match existingStartComputation stored rq blocks with
  | None => proceed None
  | Some start =>
      let+ _ := call FoundAllComputations in
      let existingComputations :=
        start :: existingRestComputations stored rq blocks in
      let covered := isRangeCoveredBeforeEnd existingComputations in
      let+ (existingComputations, entireRangeValid) :=
        (if covered then
           let tail := default start (last existingComputations) in
           let+ _ := call (UpdatedValidity tail (height blocks.2)) in
           if updateValidityUpToBlockHeight tail (height blocks.2)
           then proceed (existingComputations, true)
           else
             let+ _ := call (ComputedRange (cmp_block tail) blocks.2) in
             match computeRange typedFormula (rq_address rq) (rq_args rq)
                     (cmp_block tail) blocks.2 with
             | Thrown msg => badRequest msg
             | Returned missingComputations =>
                 let missingComputations := drop 1 missingComputations in
                 let+ _ := call (Created missingComputations) in
                 let existingComputations :=
                   existingComputations
                     ++ createFromComputationOutputs (rq_address rq)
                          typedFormula (rq_args rq) missingComputations in
                 let tail := default start (last existingComputations) in
                 let+ _ := call (UpdatedValidity tail (height blocks.2)) in
                 proceed (existingComputations,
                          updateValidityUpToBlockHeight tail (height blocks.2))
             end
         else proceed (existingComputations, false)) in
      if entireRangeValid then
        match mapM pieceOf existingComputations with
        | Some pieces => proceed (Some pieces)
        | None => internalError "SyntaxError"
        end
      else proceed None
  end.

(** The range branch of the route. *)
Definition computeOverRange (stored : list Computation) (rq : Request)
    (typedFormula : TypedFormula) (blockStep timeStep : option Z)
    (times : option (Z * option Z)) (blocks : Block * Block)
    : Step (option Json) :=
  let blocks :=
    if bool_decide (height state_latestBlock < height blocks.2)
    then (blocks.1, state_latestBlock) else blocks in
  let+ _ :=
    match rq_accountKey rq with
    | Some accountKey =>
        let amount :=
          creditsForBlockInterval (height blocks.2 - height blocks.1 + 1) in
        let+ _ := call (UsedCredit (Some amount)) in
        if useCredit accountKey (Some amount) then proceed tt
        else reply 402 (BodyText "insufficient credits")
    | None => proceed tt
    end in
  let+ existing :=
    match blockStep, timeStep with
    | None, None => reuseExisting stored rq typedFormula blocks
    | _, _ => proceed None
    end in
  let+ rangeComputations :=
    match existing with
    | Some pieces => proceed pieces
    | None =>
        let+ _ := call (ComputedRange blocks.1 blocks.2) in
        match computeRange typedFormula (rq_address rq) (rq_args rq)
                blocks.1 blocks.2 with
        | Thrown msg => badRequest msg
        | Returned outputs =>
            proceed ((λ o, {| piece_value := co_value o;
                              piece_block := co_block o |}) <$> outputs)
        end
    end in
  proceed (processComputationRange rangeComputations blockStep timeStep
             (Some blocks) times).

(** The single-block branch: the credit check and the computation run
    side by side. *)
Definition computeOnce (rq : Request) (typedFormula : TypedFormula)
    (block : option Block) : Step (option Json) :=
  let target := default state_latestBlock block in
  let+ creditResult :=
    match rq_accountKey rq with
    | Some accountKey =>
        let+ _ := call (UsedCredit None) in
        proceed (useCredit accountKey None)
    | None => proceed true
    end in
  let+ _ := call (Computed target) in
  let computationResult :=
    compute typedFormula (rq_address rq) (rq_args rq) target in
  if negb creditResult then reply 402 (BodyText "insufficient credits")
  else match computationResult with
       | Thrown msg => badRequest msg
       | Returned output => proceed (co_value output)
       end.

Definition isTestKey (rq : Request) : bool :=
  match rq_accountKey rq with
  | Some accountKey => ak_isTest accountKey
  | None => false
  end.

(** Negative times count back from now. *)
Definition adjustTimes (times : Z * option Z) : Z * option Z :=
  (if bool_decide (times.1 < 0) then times.1 + currentTime else times.1,
   match times.2 with
   | Some t => if bool_decide (t ≠ 0) && bool_decide (t < 0)
               then Some (t + currentTime) else Some t
   | None => None
   end).

(** [times] turned into [blocks]. *)
Definition blocksForTimes (times : Z * option Z) : option (Block * Block) :=
  let startBlock :=
    match Block_getForTime times.1 with
    | Some b => Some b
    | None => Block_getFirst
    end in
  let endBlock :=
    match times.2 with
    | Some t => if bool_decide (t ≠ 0) then Block_getForTime t
                else Some state_latestBlock
    | None => Some state_latestBlock
    end in
  match startBlock, endBlock with
  | Some b0, Some b1 => Some (b0, b1)
  | _, _ => None
  end.

(** The route from the validation of the address on, up to the value
    to answer with. *)
Definition route (stored : list Computation) (rq : Request)
    : Step (option Json) :=
  let+ p := validate rq in
  let+ typedFormula :=
    match getTypedFormula (rq_type rq) (rq_formulaName rq) with
    | FormulaFound f => proceed f
    | FormulaNotFound => reply 404 (BodyText "formula not found")
    | FormulaLookupFailed _ => reply 500 (BodyText "internal server error")
    end in
  let+ _ := checkTarget rq typedFormula in
  if f_dynamic (tf_formula typedFormula)
     && (bool_decide (is_Some (p_blocks p)) || bool_decide (is_Some (p_times p)))
  then badRequest
         "cannot compute dynamic formula over a range (compute it for a specific block/time instead)"
  else
    let block :=
      match p_time p with
      | Some time => if bool_decide (time ≠ 0) then Block_getForTime time
                     else p_block p
      | None => p_block p
      end in
    let times :=
      if isTestKey rq then p_times p else adjustTimes <$> p_times p in
    let blocks :=
      match times with
      | Some times =>
          if isTestKey rq then p_blocks p
          else match blocksForTimes times with
               | Some blocks => Some blocks
               | None => p_blocks p
               end
      | None => p_blocks p
      end in
    match blocks with
    | Some blocks =>
        if isTestKey rq then computeOnce rq typedFormula block
        else computeOverRange stored rq typedFormula
               (p_blockStep p) (p_timeStep p) times blocks
    | None => computeOnce rq typedFormula block
    end.

(** The route with its answer: the calls made and the response sent. *)
Definition computer (stored : list Computation) (rq : Request)
    : list Call * Response :=
  match route stored rq with
  | (calls, inl response) => (calls, response)
  | (calls, inr computation) =>
      (calls,
       {| status := 200;
          body := match computation ≫= asString with
                  | Some text => BodyText (JSON_stringify text)
                  | None => BodyValue computation
                  end |})
  end.
End Route.

(** ** A sample runtime and sample data *)

Module Sample.
(** Rendering of a byte string as the comma-separated decimal text the
    state tables use for keys. *)
Definition bytesText (bs : list N) : string :=
  String.concat "," (pretty <$> bs).

Definition utf8 (s : string) : list N :=
  (λ a, N.of_nat (Ascii.nat_of_ascii a)) <$> list_ascii_of_string s.

Definition bigEndian (width : nat) (n : Z) : list N :=
  (λ i, Z.to_N ((n ≫ (8 * Z.of_nat (width - 1 - i))) `mod` 256)) <$> seq 0 width.

Definition keyToBuffer (k : KeyPart) : list N :=
  match k with
  | KString s => utf8 s
  | KNumber n => bigEndian 8 n
  | KBytes b => (λ x, Byte.to_N x) <$> b
  end.

(** Every segment but the last carries a two-byte big-endian length. *)
Fixpoint composeKey (keys : list KeyPart) : list N :=
  match keys with
  | [] => []
  | [k] => keyToBuffer k
  | k :: rest =>
      bigEndian 2 (Z.of_nat (length (keyToBuffer k))) ++ keyToBuffer k
        ++ composeKey rest
  end.

Definition codeIds (key : string) : list Z :=
  if String.eqb key "dao-dao-core" then [163]
  else if String.eqb key "cw20-stake" then [155]
  else [].

#[global] Instance runtime : Runtime := {|
  Json := string;
  JSON_parse := λ text, if String.eqb text "" then None else Some text;
  dbKeyForKeys := λ keys, bytesText (composeKey keys);
  dbKeyToKeys := λ key _, [key];
  getDependentKey := λ namespace keys,
    namespace +:+ ":"
      +:+ String.concat ":" ((λ k, if String.eqb k "" then "*" else k) <$> keys);
  dependentKeyNamespace := λ f,
    match f with
    | FWasmState => "wasm_state"
    | FTransformation => "wasm_state_transformation"
    | FWasmTx => "wasm_tx"
    | FBankBalance => "bank_balance"
    | FBankState => "bank_state"
    end;
  findWasmCodeIdsByKeys := λ keys, concat (codeIds <$> keys);
  BANK_HISTORY_CODE_IDS_KEYS := ["dao-dao-core"];
  HookState := nat
|}.

Definition emptyDb : Database :=
  {| wasmStateEvents := []; wasmStateEventTransformations := [];
     wasmTxEvents := []; bankBalances := []; bankStateEvents := [];
     contractRows := [] |}.

(** An evaluation that starts with an empty memo and an empty recorder. *)
Definition freshStore : Store :=
  {| events := ∅; contracts := ∅; dependentKeys := Some [];
     hookState := 0%nat; effects := [] |}.

(** A hook that counts the rows it is shown. *)
Definition countRows (rows : list Event) (n : nat) : nat := (n + length rows)%nat.

Definition at_ (h : Z) : EnvOptions :=
  {| block := {| height := h; timeUnixMs := 1000 * h |};
     onFetch := Some countRows |}.

Definition addrA : string := "juno1contract".

Definition keyK : string := dbKeyForKeys [KString "k"].

Definition row (h : Z) (value : string) : WasmStateEvent :=
  {| wse_contractAddress := addrA; wse_key := keyK; wse_blockHeight := h;
     wse_blockTimeUnixMs := 1000 * h; wse_value := Some value;
     wse_delete := false |}.

Definition tombstone (h : Z) : WasmStateEvent :=
  {| wse_contractAddress := addrA; wse_key := keyK; wse_blockHeight := h;
     wse_blockTimeUnixMs := 1000 * h; wse_value := None; wse_delete := true |}.

(** Scenario S1 and S2 of the specification. *)
Definition dbS1 : Database :=
  {| wasmStateEvents := [row 10 "1"; row 20 "2"; row 30 "3"];
     wasmStateEventTransformations := []; wasmTxEvents := [];
     bankBalances := []; bankStateEvents := []; contractRows := [] |}.

Definition dbS2 : Database :=
  {| wasmStateEvents := [row 10 "1"; row 20 "2"; tombstone 25; row 30 "3"];
     wasmStateEventTransformations := []; wasmTxEvents := [];
     bankBalances := []; bankStateEvents := []; contractRows := [] |}.

Definition tx : WasmTxEvent :=
  {| wte_contractAddress := addrA; wte_blockHeight := 5;
     wte_blockTimeUnixMs := 5000; wte_txIndex := 0;
     wte_action := Some "execute" |}.

Definition dbTx : Database :=
  {| wasmStateEvents := []; wasmStateEventTransformations := [];
     wasmTxEvents := [tx]; bankBalances := []; bankStateEvents := [];
     contractRows := [] |}.

Definition config : WasmStateEventTransformation :=
  {| wset_contractAddress := addrA; wset_name := "config";
     wset_blockHeight := 5; wset_blockTimeUnixMs := 5000;
     wset_value := Some "{}"; wset_codeId := 163 |}.

Definition dbConfig : Database :=
  {| wasmStateEvents := []; wasmStateEventTransformations := [config];
     wasmTxEvents := []; bankBalances := []; bankStateEvents := [];
     contractRows := [{| c_address := addrA; c_codeId := 163 |}] |}.

(** A map [items] with one entry [a]. *)
Definition itemA : WasmStateEvent :=
  {| wse_contractAddress := addrA;
     wse_key := dbKeyForKeys [KString "items"; KString "a"];
     wse_blockHeight := 7; wse_blockTimeUnixMs := 7000;
     wse_value := Some "1"; wse_delete := false |}.

Definition dbItems : Database :=
  {| wasmStateEvents := [itemA]; wasmStateEventTransformations := [];
     wasmTxEvents := []; bankBalances := []; bankStateEvents := [];
     contractRows := [] |}.

Definition itemsMap : PrefetchKey := PfKeys [KString "items"] (Some true).

Definition itemAGone : WasmStateEvent :=
  {| wse_contractAddress := addrA;
     wse_key := dbKeyForKeys [KString "items"; KString "a"];
     wse_blockHeight := 9; wse_blockTimeUnixMs := 9000;
     wse_value := None; wse_delete := true |}.

Definition dbItemsGone : Database :=
  {| wasmStateEvents := [itemA; itemAGone];
     wasmStateEventTransformations := []; wasmTxEvents := [];
     bankBalances := []; bankStateEvents := []; contractRows := [] |}.

Definition wallet : BankBalance :=
  {| bb_address := "juno1wallet"; bb_blockHeight := 40;
     bb_balances := {[ "ujuno" := "100" ]} |}.

Definition dbBank : Database :=
  {| wasmStateEvents := []; wasmStateEventTransformations := [];
     wasmTxEvents := []; bankBalances := [wallet]; bankStateEvents := [];
     contractRows := [] |}.
(** A sample server. *)
Definition digit (c : ascii) : option Z :=
  let n := Ascii.nat_of_ascii c in
  if (48 <=? n)%nat && (n <=? 57)%nat then Some (Z.of_nat n - 48) else None.

Fixpoint digits (acc : Z) (s : string) : option Z :=
  match s with
  | EmptyString => Some acc
  | String c rest =>
      match digit c with
      | Some d => digits (10 * acc + d) rest
      | None => None
      end
  end.

Definition bigInt (s : string) : option Z :=
  match s with
  | String "-"%char rest => Z.opp <$> digits 0 rest
  | _ => digits 0 s
  end.

Fixpoint split_colon (current : string) (s : string) : list string :=
  match s with
  | EmptyString => [current]
  | String ":"%char rest => current :: split_colon "" rest
  | String c rest => split_colon (current +:+ String c "") rest
  end.

Definition blockOfString (s subject : string) : Outcome Block :=
  match bigInt <$> split_colon "" s with
  | [Some h; Some t] =>
      if bool_decide (h < 1) || bool_decide (t < 0)
      then Thrown (subject +:+ " must have a positive height")
      else Returned {| height := h; timeUnixMs := t |}
  | _ => Thrown (subject +:+ " must be a height:timeUnixMs pair")
  end.

Definition daoConfig : TypedFormula :=
  {| tf_type := FtContract; tf_name := "dao/config";
     tf_formula := {| f_dynamic := false; f_filter := None |} |}.

Definition now : TypedFormula :=
  {| tf_type := FtGeneric; tf_name := "now";
     tf_formula := {| f_dynamic := true; f_filter := None |} |}.

Definition blockAt (h : Z) : Block := {| height := h; timeUnixMs := 1000 * h |}.

Definition stored (address formula args : string) (o : ComputationOutput)
    : Computation :=
  {| cmp_targetAddress := address; cmp_formula := formula; cmp_args := args;
     cmp_block := co_block o; cmp_output := co_value o;
     cmp_latestBlockHeightValid := co_latestBlockHeightValid o |}.

#[global] Instance server : Server := {|
  validateBlockString := blockOfString;
  BigInt := bigInt;
  getTypedFormula := λ _ name,
    if String.eqb name "dao/config" then FormulaFound daoConfig
    else if String.eqb name "now" then FormulaFound now
    else FormulaNotFound;
  Contract_findByPk := λ address,
    if String.eqb address addrA
    then Some {| c_address := addrA; c_codeId := 163 |} else None;
  Validator_findByPk := λ _, false;
  state_chainId := "juno-1";
  state_latestBlock := blockAt 1000;
  currentTime := 2000000;
  Block_getForTime := λ t, Some {| height := t `div` 1000; timeUnixMs := t |};
  Block_getFirst := Some (blockAt 1);
  useCredit := λ _ _, true;
  creditsForBlockInterval := λ n, n;
  updateValidityUpToBlockHeight := λ c h,
    bool_decide (h ≤ cmp_latestBlockHeightValid c);
  computeRange := λ _ _ _ b0 b1,
    Returned [ {| co_block := b0; co_value := Some "2";
                  co_latestBlockHeightValid := height b1 - 1 |};
               {| co_block := b1; co_value := Some "3";
                  co_latestBlockHeightValid := height b1 |} ];
  createFromComputationOutputs := λ address f args outputs,
    stored address (tf_name f) args <$> outputs;
  compute := λ _ _ _ b,
    Returned {| co_block := b; co_value := Some "1";
                co_latestBlockHeightValid := height b |};
  processComputationRange := λ pieces _ _ _ _,
    Some (String.concat "," (default "null" <$> (piece_value <$> pieces)));
  jsonString := λ s, s;
  asString := λ _, None;
  JSON_stringify := λ s, s
|}.

Definition request (address formula : string) : Request :=
  {| rq_type := FtContract; rq_address := address; rq_formulaName := formula;
     rq_accountKey := None; rq_block := QAbsent; rq_blocks := QAbsent;
     rq_blockStep := QAbsent; rq_time := QAbsent; rq_times := QAbsent;
     rq_timeStep := QAbsent; rq_args := "{}" |}.

(** Two stored pieces that chain: the first is valid up to 19, the
    second starts at 20 and is valid up to 24. *)
Definition piece10 : Computation :=
  {| cmp_targetAddress := addrA; cmp_formula := "dao/config"; cmp_args := "{}";
     cmp_block := blockAt 10; cmp_output := Some "1";
     cmp_latestBlockHeightValid := 19 |}.

Definition piece20 : Computation :=
  {| cmp_targetAddress := addrA; cmp_formula := "dao/config"; cmp_args := "{}";
     cmp_block := blockAt 20; cmp_output := Some "2";
     cmp_latestBlockHeightValid := 24 |}.
End Sample.

(** ** Vocabulary of the statements *)

(** [r] is a row of [(contractAddress, key)] at or below height [h]. *)
Definition visible (db : Database) (contractAddress key : string) (h : Z)
    (r : WasmStateEvent) : Prop :=
  r ∈ wasmStateEvents db ∧ wse_contractAddress r = contractAddress
  ∧ wse_key r = key ∧ wse_blockHeight r ≤ h.

(** [r] is the visible row of greatest height. *)
Definition most_recent (db : Database) (contractAddress key : string) (h : Z)
    (r : WasmStateEvent) : Prop :=
  visible db contractAddress key h r
  ∧ ∀ r', visible db contractAddress key h r' → wse_blockHeight r' ≤ wse_blockHeight r.

(** Invariant I2 of the event store: one row per key and height. *)
Definition heights_unique (db : Database) : Prop :=
  NoDup ((λ r, (wse_contractAddress r, wse_key r, wse_blockHeight r))
           <$> wasmStateEvents db).

(** [r] is a row of the contract at or below height [h] whose key begins
    with [keyPrefix]. *)
Definition under_prefix (db : Database) (contractAddress keyPrefix : string)
    (h : Z) (r : WasmStateEvent) : Prop :=
  r ∈ wasmStateEvents db ∧ wse_contractAddress r = contractAddress
  ∧ String.prefix keyPrefix (wse_key r) ∧ wse_blockHeight r ≤ h.

(** The database round trips among some effects, and their number. *)
Definition queries (effs : list Effect) : list Table :=
  omap (λ e, match e with Queried t => Some t | _ => None end) effs.

Definition reads (effs : list Effect) : nat := length (queries effs).

(** The calls of the [onFetch] hook among some effects. *)
Definition hookCalls (effs : list Effect) : list (list Event) :=
  omap (λ e, match e with Hooked rows => Some rows | _ => None end) effs.

(** [b] is a balance snapshot of [address] at or below height [h]. *)
Definition snapshot_visible (db : Database) (address : string) (h : Z)
    (b : BankBalance) : Prop :=
  b ∈ bankBalances db ∧ bb_address b = address ∧ bb_blockHeight b ≤ h.

(** [address] is a contract whose code id belongs to one of the
    configured bank-history code-id keys. *)
Definition contract_matches `{Runtime} (db : Database) (address : string)
    (keys : list string) : Prop :=
  match Contract_findOne db address with
  | Some c => c_codeId c ∈ findWasmCodeIdsByKeys keys
  | None => False
  end.

#[global] Instance contract_matches_dec `{Runtime} db address keys :
  Decision (contract_matches db address keys).
Proof. unfold contract_matches. destruct (Contract_findOne db address); apply _. Defined.

Definition history_contract `{Runtime} (db : Database) (address : string) : Prop :=
  contract_matches db address BANK_HISTORY_CODE_IDS_KEYS.

#[global] Instance history_contract_dec `{Runtime} db address :
  Decision (history_contract db address).
Proof. unfold history_contract. apply _. Defined.

(** The [Contract] table has a row for [address] whose code id is one
    of those of the configured bank-history keys. *)
Definition keeps_history `{Runtime} (db : Database) (address : string) : Prop :=
  ∃ c, c ∈ contractRows db ∧ c_address c = address
       ∧ c_codeId c ∈ findWasmCodeIdsByKeys BANK_HISTORY_CODE_IDS_KEYS.

(** The address is the primary key of the [Contract] table. *)
Definition addresses_unique (db : Database) : Prop :=
  NoDup (c_address <$> contractRows db).

(** [e] is a balance event of [address] in [denom] at or below height
    [h]. *)
Definition balance_visible (db : Database) (address denom : string) (h : Z)
    (e : BankStateEvent) : Prop :=
  e ∈ bankStateEvents db ∧ bse_address e = address ∧ bse_denom e = denom
  ∧ bse_blockHeight e ≤ h.

(** [e] is the visible balance event of greatest height. *)
Definition latest_balance (db : Database) (address denom : string) (h : Z)
    (e : BankStateEvent) : Prop :=
  balance_visible db address denom h e
  ∧ ∀ e', balance_visible db address denom h e' →
          bse_blockHeight e' ≤ bse_blockHeight e.

(** The contract memo, where it holds an entry for [address], holds what
    the [Contract] table holds. *)
Definition contract_memo_sound `{Runtime} (db : Database) (s : Store)
    (address : string) : Prop :=
  ∀ c, contracts s !! address = Some c → c = Contract_findOne db address.

(** The store with its memo replaced. *)
Definition with_events `{Runtime} (m : gmap string (option (list Event)))
    (s : Store) : Store :=
  {| events := m; contracts := contracts s; dependentKeys := dependentKeys s;
     hookState := hookState s; effects := effects s |}.

(** What [get] makes of the row it settled on. *)
Definition row_outcome `{Runtime} (r : WasmStateEvent) : Outcome (option Json) :=
  if wse_delete r then Returned None
  else match JSON_parse (default "null" (wse_value r)) with
       | Some value => Returned (Some value)
       | None => Thrown "SyntaxError"
       end.

(** What [get] returns from a memo entry. *)
Definition memo_outcome `{Runtime} (cached : option (list Event))
    : Outcome (option Json) :=
  match head (default [] cached) with
  | Some (EvWasmState r) => row_outcome r
  | Some _ => Thrown "Incorrect event type."
  | None => Returned None
  end.

(** The memo assignments of [prefetch], in program order, given the rows
    its query returned. *)
Definition prefetchWrites `{Runtime} (contractAddress : string)
    (fetched : list WasmStateEvent) (listOfKeys : list PrefetchKey)
    : list (string * option (list Event)) :=
  ((λ key, (wasmDependentKey contractAddress key,
            from_option memoEntry None
              (head (filter (λ event, wse_key event = key) fetched))))
     <$> nonMapKeys listOfKeys)
  ++ concat ((λ keyPrefix,
       let eventsForPrefix :=
         filter (λ event, String.prefix keyPrefix (wse_key event)) fetched in
       (wasmDependentKey contractAddress keyPrefix,
        if bool_decide (eventsForPrefix = []) then None
        else Some (EvWasmState <$> eventsForPrefix))
       :: ((λ event, (wasmDependentKey contractAddress (wse_key event),
                      memoEntry event)) <$> eventsForPrefix))
     <$> mapKeyPrefixes listOfKeys).

(** The rows that the query of a [prefetch] returns. *)
Definition prefetchRows `{Runtime} (db : Database) (opts : EnvOptions)
    (contractAddress : string) (listOfKeys : list PrefetchKey)
    : list WasmStateEvent :=
  from_option (WasmStateEvent_findAll_filter db opts contractAddress) []
    (prefetchKeyFilter listOfKeys).

(** Among the keys a [prefetch] names and the keys stored for the contract,
    only [key] itself has the memo slot of [key]. *)
Definition memo_key_unshared `{Runtime} (db : Database) (contractAddress : string)
    (listOfKeys : list PrefetchKey) (key : string) : Prop :=
  Forall (λ k', wasmDependentKey contractAddress k'
                  = wasmDependentKey contractAddress key → k' = key)
         (nonMapKeys listOfKeys ++ mapKeyPrefixes listOfKeys
            ++ (wse_key <$> wasmStateEvents db)).

(** A step that calls nobody and either answers with a status in
    [okStatus] or goes on with a value in [P]. *)
Definition quiet `{Runtime} {A} (m : Step A) (okStatus : Z → Prop)
    (P : A → Prop) : Prop :=
  m.1 = []
  ∧ match m.2 with
    | inl response => okStatus (status response)
    | inr a => P a
    end.

(** The [blocks] parameter is a range whose two ends validate to [b0]
    and [b1]. *)
Definition blocksRange `{Runtime} `{!Server} (rq : Request) (b0 b1 : Block) : Prop :=
  ∃ s startBlock endBlock rest,
    rq_blocks rq = QString s ∧ s ≠ ""
    ∧ split_dots "" s = startBlock :: endBlock :: rest
    ∧ startBlock ≠ "" ∧ endBlock ≠ ""
    ∧ validateBlockString startBlock "the start block" = Returned b0
    ∧ validateBlockString endBlock "the end block" = Returned b1.

(** The [times] parameter is a range from [t0] to [t1]. *)
Definition timesRange `{Runtime} `{!Server} (rq : Request) (t0 t1 : Z) : Prop :=
  ∃ s startTime endTime rest,
    rq_times rq = QString s ∧ s ≠ ""
    ∧ split_dots "" s = startTime :: endTime :: rest
    ∧ startTime ≠ "" ∧ endTime ≠ ""
    ∧ BigInt startTime = Some t0 ∧ BigInt endTime = Some t1.

(** A step parameter that is given and is not a positive integer. *)
Definition badStep `{Runtime} `{!Server} (q : QueryValue) : Prop :=
  ∃ t, truthy_string q = Some t ∧ ∀ n, BigInt t = Some n → n < 1.

(** A step parameter that is given and is the positive integer [n]. *)
Definition goodStep `{Runtime} `{!Server} (q : QueryValue) (n : Z) : Prop :=
  ∃ t, truthy_string q = Some t ∧ BigInt t = Some n ∧ 1 ≤ n.

(** The request names its target and a formula, and its [block] and
    [time] parameters, where given, are well formed. *)
Definition wellFormed `{Runtime} `{!Server} (rq : Request) : Prop :=
  rq_address rq ≠ "" ∧ rq_formulaName rq ≠ ""
  ∧ (∀ s, truthy_string (rq_block rq) = Some s →
          ∃ b, validateBlockString s "block" = Returned b)
  ∧ (∀ s, truthy_string (rq_time rq) = Some s →
          ∃ t, BigInt s = Some t ∧ 0 ≤ t).

(** The target of the request exists, and the formula applies to it. *)
Definition targetAccepted `{Runtime} `{!Server} (rq : Request)
    (typedFormula : TypedFormula) : Prop :=
  match tf_type typedFormula with
  | FtContract =>
      ∃ contract,
        Contract_findByPk (rq_address rq) = Some contract
        ∧ ∀ filter keys,
            f_filter (tf_formula typedFormula) = Some filter →
            codeIdsKeys filter = Some keys → keys ≠ [] →
            c_codeId contract ∈ findWasmCodeIdsByKeys keys
  | FtValidator => Validator_findByPk (rq_address rq) = true
  | _ => True
  end.

(** A request that the endpoint goes on to compute over its range: it
    is well formed, it names the known formula [typedFormula], which is
    not dynamic and applies to the target, and its key, if it has one,
    is not the test key. *)
Definition servable `{Runtime} `{!Server} (rq : Request)
    (typedFormula : TypedFormula) : Prop :=
  wellFormed rq
  ∧ getTypedFormula (rq_type rq) (rq_formulaName rq) = FormulaFound typedFormula
  ∧ targetAccepted rq typedFormula
  ∧ f_dynamic (tf_formula typedFormula) = false
  ∧ match rq_accountKey rq with
    | Some accountKey => ak_isTest accountKey = false
    | None => True
    end.

(** The end block of a range, capped at the latest block. *)
Definition cappedEnd `{Runtime} `{!Server} (blockEnd : Block) : Block :=
  if bool_decide (height state_latestBlock < height blockEnd)
  then state_latestBlock else blockEnd.

(** The key of the request, if it has one, is granted the credit of the
    range from [blockStart] to [blockEnd]. *)
Definition creditGranted `{Runtime} `{!Server} (rq : Request)
    (blockStart blockEnd : Block) : Prop :=
  ∀ accountKey, rq_accountKey rq = Some accountKey →
    useCredit accountKey
      (Some (creditsForBlockInterval (height blockEnd - height blockStart + 1)))
    = true.

(** A time, counted back from now when it is negative. *)
Definition sinceNow `{Runtime} `{!Server} (t : Z) : Z :=
  if bool_decide (t < 0) then t + currentTime else t.

(** The blocks that the times [t0] and [t1] stand for: the block of the
    start time, or the first block when there is none; the block of the
    end time, or the latest block when the end time is zero. *)
Definition blocksOfTimes `{Runtime} `{!Server} (t0 t1 : Z)
    (blockStart blockEnd : Block) : Prop :=
  (Block_getForTime (sinceNow t0) = Some blockStart
   ∨ (Block_getForTime (sinceNow t0) = None ∧ Block_getFirst = Some blockStart))
  ∧ (if bool_decide (sinceNow t1 = 0) then blockEnd = state_latestBlock
     else Block_getForTime (sinceNow t1) = Some blockEnd).

(** The request asks for the range from [blockStart] to [blockEnd] with
    a step: by [blocks] and [blockStep], or by [times] and [timeStep]. *)
Definition steppedRange `{Runtime} `{!Server} (rq : Request)
    (blockStart blockEnd : Block) : Prop :=
  (blocksRange rq blockStart blockEnd
   ∧ height blockStart < height blockEnd
   ∧ timeUnixMs blockStart < timeUnixMs blockEnd
   ∧ (∃ n, goodStep (rq_blockStep rq) n)
   ∧ truthy_string (rq_times rq) = None)
  ∨ (truthy_string (rq_blocks rq) = None
     ∧ ∃ t0 t1, timesRange rq t0 t1 ∧ t0 < t1
                ∧ (∃ n, goodStep (rq_timeStep rq) n)
                ∧ blocksOfTimes t0 t1 blockStart blockEnd).

(** [start] is a stored computation of the query of the request that is
    the most recent at or below the block [blockStart]. *)
Definition chainStart (stored : list Computation) (rq : Request)
    (blockStart : Block) (start : Computation) : Prop :=
  start ∈ stored ∧ sameQuery rq start
  ∧ height (cmp_block start) ≤ height blockStart
  ∧ ∀ c, c ∈ stored → sameQuery rq c →
         height (cmp_block c) ≤ height blockStart →
         height (cmp_block c) ≤ height (cmp_block start).

(** [c] is a computation of the query of the request above [blockStart]
    and at or below [blockEnd]. *)
Definition withinRange (rq : Request) (blockStart blockEnd : Block)
    (c : Computation) : Prop :=
  sameQuery rq c ∧ height blockStart < height (cmp_block c)
  ∧ height (cmp_block c) ≤ height blockEnd.

#[global] Instance withinRange_dec rq blockStart blockEnd c :
  Decision (withinRange rq blockStart blockEnd c).
Proof. unfold withinRange. apply _. Defined.

(** [rest] is the stored computations of the query within the range,
    each of them, in ascending order of their blocks. *)
Definition chainRest (stored : list Computation) (rq : Request)
    (blockStart blockEnd : Block) (rest : list Computation) : Prop :=
  Sorted ascending rest
  ∧ rest ≡ₚ filter (withinRange rq blockStart blockEnd) stored.

(** Every piece of the chain is valid up to the block just before the
    next piece. *)
Definition continuous (chain : list Computation) : Prop :=
  ∀ i c c', chain !! i = Some c → chain !! S i = Some c' →
    cmp_latestBlockHeightValid c = height (cmp_block c') - 1.

(** The calls other than credit accounting. *)
Definition is_credit `{Runtime} (c : Call) : bool :=
  match c with UsedCredit _ => true | _ => false end.

Definition engineCalls `{Runtime} (calls : list Call) : list Call :=
  filter (λ c, negb (is_credit c)) calls.

(** A call that consults or touches the stored computations. *)
Definition touches_stored `{Runtime} (c : Call) : bool :=
  match c with
  | FoundOneComputation | FoundAllComputations | UpdatedValidity _ _
  | Created _ => true
  | _ => false
  end.

(** ** Further getters of the environment *)

(** [ORDER BY h ASC LIMIT 1]: a row of least [h]. *)
Fixpoint least {A : Type} (h : A → Z) (rows : list A) : option A :=
  match rows with
  | [] => None
  | r :: rest =>
      match least h rest with
      | None => Some r
      | Some b => if bool_decide (h r ≤ h b) then Some r else Some b
      end
  end.

Definition is_BankStateEvent (e : Event) : option BankStateEvent :=
  match e with EvBankState b => Some b | _ => None end.

Section DateGetters.
Context `{Runtime} (db : Database) (opts : EnvOptions).

(** The JavaScript [Date] that the date getters build from a row:
    [new Date(0)] followed by [setUTCSeconds(Number(blockTimeUnixMs) /
    1e3)].  The conversion is taken as given. *)
Context {Date : Type} (dateOfUnixMs : Z → Date).

(** The date of the most recent row of a key, tombstone or not.  The memo
    slot is the one [get] uses. *)
Definition getDateKeyModified (contractAddress : string) (keys : list KeyPart)
    : M (option Date) :=
  let key := dbKeyForKeys keys in
  let dependentKey := wasmDependentKey contractAddress key in
  let* _ := push_dependentKey {| dk_key := dependentKey; dk_prefix := false |} in
  let* cachedEvent := cache_events dependentKey in
  let* event :=
    match cachedEvent with
    | Some cached => ret (head (default [] cached))
    | None =>
        query TWasmStateEvent
          (EvWasmState <$>
             WasmStateEvent_findOne db contractAddress key (height (block opts)))
    end in
  match event with
  | Some (EvWasmState e) =>
      let* _ :=
        match cachedEvent with
        | None => set_cache_events dependentKey (Some [EvWasmState e])
        | Some _ => ret tt
        end in
      let* _ := call_onFetch opts [EvWasmState e] in
      ret (Some (dateOfUnixMs (wse_blockTimeUnixMs e)))
  | Some _ => throw "Incorrect event type."
  | None =>
      let* _ :=
        match cachedEvent with
        | None => set_cache_events dependentKey None
        | Some _ => ret tt
        end in
      ret None
  end.

(** [WasmStateEvent.findOne({ where: { contractAddress, key, delete:
    false, valueJson?, blockHeight }, order: [['blockHeight', 'ASC']] })];
    [where_] is the [valueJson] condition when there is one. *)
Definition WasmStateEvent_findFirstSet (contractAddress key : string)
    (where_ : option (WasmStateEvent → bool)) : option WasmStateEvent :=
  least wse_blockHeight
    (filter (λ r, wse_contractAddress r = contractAddress
                  ∧ wse_key r = key
                  ∧ wse_delete r = false
                  ∧ default (λ _, true) where_ r
                  ∧ blockHeightFilter opts (wse_blockHeight r))
            (wasmStateEvents db)).

(** The common body of the two first-set getters, which differ in the
    [valueJson] condition only. *)
Definition dateKeyFirstSet (contractAddress : string) (keys : list KeyPart)
    (where_ : option (WasmStateEvent → bool)) : M (option Date) :=
  let key := dbKeyForKeys keys in
  let* _ := push_dependentKey
              {| dk_key := wasmDependentKey contractAddress key;
                 dk_prefix := false |} in
  let* event :=
    query TWasmStateEvent
      (WasmStateEvent_findFirstSet contractAddress key where_) in
  match event with
  | None => ret None
  | Some e =>
      let* _ := call_onFetch opts [EvWasmState e] in
      ret (Some (dateOfUnixMs (wse_blockTimeUnixMs e)))
  end.

Definition getDateKeyFirstSet (contractAddress : string) (keys : list KeyPart)
    : M (option Date) :=
  dateKeyFirstSet contractAddress keys None.

Definition getDateKeyFirstSetWithValueMatch (contractAddress : string)
    (keys : list KeyPart) (where_ : WasmStateEvent → bool) : M (option Date) :=
  dateKeyFirstSet contractAddress keys (Some where_).
End DateGetters.

Section MoreGetters.
Context `{Runtime} (db : Database) (opts : EnvOptions).

(** The [findAll] of [getBalances]: per denom, the most recent row. *)
Definition BankStateEvent_findAll (address : string) : list BankStateEvent :=
  distinct_on bse_denom bse_blockHeight
    (filter (λ r, bse_address r = address
                  ∧ blockHeightFilter opts (bse_blockHeight r))
            (bankStateEvents db)).

(** [events.reduce((acc, { denom, balance }) => ({ ...acc, [denom]:
    balance }), {})] *)
Definition denomBalances (events : list BankStateEvent) : gmap string string :=
  foldl (λ acc e, <[bse_denom e := bse_balance e]> acc) ∅ events.

(** The second half of [getBalances]: the history of every denom. *)
Definition getBalances_history (address : string)
    : M (option (gmap string string)) :=
  let* historyExists :=
    contractMatchesCodeIdKeys db address BANK_HISTORY_CODE_IDS_KEYS in
  if negb historyExists then ret None
  else
    let dependentKey :=
      getDependentKey (dependentKeyNamespace FBankState) [address] +:+ ":" in
    let* _ := push_dependentKey {| dk_key := dependentKey; dk_prefix := true |} in
    let* cachedEvents := cache_events dependentKey in
    let* events :=
      match cachedEvents with
      | Some cached => ret (default [] cached)
      | None =>
          query TBankStateEvent (EvBankState <$> BankStateEvent_findAll address)
      end in
    match mapM is_BankStateEvent events with
    | None => throw "Incorrect event type."
    | Some bankEvents =>
        let* _ :=
          match cachedEvents with
          | None =>
              set_cache_events dependentKey
                (if bool_decide (events = []) then None else Some events)
          | Some _ => ret tt
          end in
        if bool_decide (events = []) then ret None
        else
          let* _ := call_onFetch opts events in
          ret (Some (denomBalances bankEvents))
    end.

Definition getBalances (address : string) : M (option (gmap string string)) :=
  let bankBalanceDependentKey :=
    getDependentKey (dependentKeyNamespace FBankBalance) [address] in
  let* cachedBalance := cache_events bankBalanceDependentKey in
  match cachedBalance with
  | Some (Some [EvBankBalance b]) =>
      let* _ := call_onFetch opts [EvBankBalance b] in
      ret (Some (bb_balances b))
  | _ =>
      let* bankBalance :=
        match cachedBalance with
        | Some cached => ret (head (default [] cached))
        | None =>
            query TBankBalance (EvBankBalance <$> BankBalance_findOne db opts address)
        end in
      let* _ :=
        match cachedBalance with
        | None =>
            set_cache_events bankBalanceDependentKey
              (match bankBalance with Some b => Some [b] | None => None end)
        | Some _ => ret tt
        end in
      match bankBalance with
      | Some (EvBankBalance b) =>
          let* _ := call_onFetch opts [EvBankBalance b] in
          ret (Some (bb_balances b))
      | _ => getBalances_history address
      end
  end.

(** [WasmCodeService.getInstance().findWasmCodeKeysById], taken as
    given. *)
Context (findWasmCodeKeysById : Z → list string).

Definition getCodeIdKeyForContract (contractAddress : string)
    : M (option string) :=
  let* contract := getContract db contractAddress None in
  match contract with
  | None => ret None
  | Some c => ret (head (findWasmCodeKeysById (c_codeId c)))
  end.
End MoreGetters.

(** ** The front of the compute endpoint *)

(** [s.split(sep)] for a separator of one character. *)
Fixpoint split_on (sep : ascii) (current s : string) : list string :=
  match s with
  | EmptyString => [current]
  | String c rest =>
      if Ascii.eqb c sep then current :: split_on sep "" rest
      else split_on sep (current +:+ String c "") rest
  end.

(** What the path of a request names. *)
Record Target := {
  tg_key : option string;
  tg_type : FormulaType;
  tg_address : string;
  tg_formulaName : string
}.

Section Routing.
Context `{Runtime} `{!Server}.

(** [typeIsFormulaTypeOrWallet] and [FormulaTypeValues] of [@/formulas]
    and [@/types], taken as given; [formulaTypeOf] reads a type name that
    passed the test as the enumeration value it is. *)
Context (typeIsFormulaTypeOrWallet : string → bool)
        (formulaTypeOf : string → FormulaType)
        (FormulaTypeValues : list string).

(** [paths[i] === 'wallet' ? FormulaType.Account : paths[i]] *)
Definition typeOfSegment (segment : string) : FormulaType :=
  if String.eqb segment "wallet" then FtAccount else formulaTypeOf segment.

(** The two shapes of a path, [/:type/:address/:formula] with the key in
    the [x-api-key] header and [/:key/:type/:address/:formula], once a
    leading chain id is dropped. *)
Definition routePath (xApiKey : QueryValue) (path : string)
    : Response + Target :=
  let paths := drop 1 (split_on "/" "" path) in
  let paths :=
    match paths with
    | first :: rest => if String.eqb first state_chainId then rest else paths
    | [] => paths
    end in
  match paths with
  | p0 :: p1 :: p2 :: rest =>
      if typeIsFormulaTypeOrWallet p0 then
        inr {| tg_key := match xApiKey with QString key => Some key | _ => None end;
               tg_type := typeOfSegment p0;
               tg_address := p1;
               tg_formulaName := String.concat "/" (p2 :: rest) |}
      else if typeIsFormulaTypeOrWallet p1 then
        inr {| tg_key := Some p0;
               tg_type := typeOfSegment p1;
               tg_address := p2;
               tg_formulaName := String.concat "/" rest |}
      else
        inl {| status := 400;
               body := BodyText ("type must be one of: "
                                   +:+ String.concat ", " FormulaTypeValues) |}
  | _ => inl {| status := 400; body := BodyText "missing required parameters" |}
  end.

(** *** The test key *)

Definition testCooldownSeconds : Z := 10.

(** An entry of [testRateLimit] that the purge removes. *)
Definition expired (now : Z) (entry : string * Z) : Prop :=
  testCooldownSeconds * 1000 ≤ now - entry.2.

#[global] Instance expired_dec now entry : Decision (expired now entry).
Proof. unfold expired. apply _. Defined.

(** What a request with the test key goes through: the CORS header, the
    purge of old entries of [testRateLimit], and the rate limit.  The
    result is the map as it is left, the [Access-Control-Allow-Origin]
    header, and the 429 answer if the request is refused. *)
Definition testKeyGate (origin : QueryValue) (ip : string) (now : Z)
    (testRateLimit : gmap string Z)
    : gmap string Z * string * option Response :=
  let allowOrigin :=
    match origin with
    | QString o => if String.eqb o "http://localhost:3000"
                   then "http://localhost:3000" else "https://indexer.zone"
    | _ => "https://indexer.zone"
    end in
  let testRateLimit := filter (λ entry, ¬ expired now entry) testRateLimit in
  match testRateLimit !! ip with
  | Some lastUsed =>
      if bool_decide (lastUsed ≠ 0)
         && bool_decide (now - lastUsed < testCooldownSeconds * 1000)
      then (testRateLimit, allowOrigin,
            Some {| status := 429;
                    body := BodyText (pretty testCooldownSeconds
                                        +:+ " second test rate limit exceeded") |})
      else (<[ip := now]> testRateLimit, allowOrigin, None)
  | None => (<[ip := now]> testRateLimit, allowOrigin, None)
  end.
End Routing.

(** ** Credits of an account key *)

Module AccountKeys.
(** A row of [AccountKeyCredit], as far as [useCredit] reads and writes
    it; an [amount] of [-1] is unlimited credit. *)
Record AccountKeyCredit := {
  akc_id : Z;
  akc_amount : Z;
  akc_used : Z;
  akc_hits : Z
}.

(** The [where] clause of [useCredit]: [amount = -1 OR amount >= "used" +
    amount]. *)
Definition hasEnough (amount : Z) (credit : AccountKeyCredit) : Prop :=
  akc_amount credit = -1 ∨ akc_used credit + amount ≤ akc_amount credit.

#[global] Instance hasEnough_dec amount credit : Decision (hasEnough amount credit).
Proof. unfold hasEnough. apply _. Defined.

(** [credit.increment('used', { by: amount })] and
    [credit.increment('hits')] on the row [credit]. *)
Definition increment (amount : Z) (credit : AccountKeyCredit) : AccountKeyCredit :=
  {| akc_id := akc_id credit; akc_amount := akc_amount credit;
     akc_used := akc_used credit + amount; akc_hits := akc_hits credit + 1 |}.

(** [useCredit(amount = 1)] on the credit rows of the key: the rows as
    they are left, and whether credit was found and used. *)
Definition useCredit (amount : option Z) (credits : list AccountKeyCredit)
    : list AccountKeyCredit * bool :=
  let amount := default 1 amount in
  match least akc_amount (filter (hasEnough amount) credits) with
  | None => (credits, false)
  | Some credit =>
      ((λ c, if bool_decide (akc_id c = akc_id credit)
             then increment amount c else c) <$> credits,
       true)
  end.
End AccountKeys.

(** ** Vocabulary of the further statements, and more sample data *)

#[global] Instance AccountKeyCredit_eq_dec : EqDecision AccountKeys.AccountKeyCredit.
Proof. solve_decision. Defined.

(** No finite credit is used beyond its amount. *)
Definition solvent (credits : list AccountKeys.AccountKeyCredit) : Prop :=
  ∀ c, c ∈ credits → AccountKeys.akc_amount c ≠ -1 →
       AccountKeys.akc_used c ≤ AccountKeys.akc_amount c.

Definition totalUsed (credits : list AccountKeys.AccountKeyCredit) : Z :=
  foldr Z.add 0 (AccountKeys.akc_used <$> credits).

Definition totalHits (credits : list AccountKeys.AccountKeyCredit) : Z :=
  foldr Z.add 0 (AccountKeys.akc_hits <$> credits).

(** Sample credit rows: one of 100 with 99 used, one unlimited. *)
Module SampleCredits.
Definition small : AccountKeys.AccountKeyCredit :=
  {| AccountKeys.akc_id := 1; AccountKeys.akc_amount := 100;
     AccountKeys.akc_used := 99; AccountKeys.akc_hits := 7 |}.

Definition unlimited : AccountKeys.AccountKeyCredit :=
  {| AccountKeys.akc_id := 2; AccountKeys.akc_amount := -1;
     AccountKeys.akc_used := 5000; AccountKeys.akc_hits := 12 |}.
End SampleCredits.

(** No character of [s] is the separator. *)
Fixpoint sep_free (sep : ascii) (s : string) : bool :=
  match s with
  | EmptyString => true
  | String c rest => negb (Ascii.eqb c sep) && sep_free sep rest
  end.

(** The number of separators in [s]. *)
Fixpoint count_sep (sep : ascii) (s : string) : nat :=
  match s with
  | EmptyString => 0%nat
  | String c rest => ((if Ascii.eqb c sep then 1 else 0) + count_sep sep rest)%nat
  end.

(** The key a request carries in its [x-api-key] header. *)
Definition headerKey (xApiKey : QueryValue) : option string :=
  match xApiKey with QString key => Some key | _ => None end.

(** Sample type names. *)
Module SamplePaths.
Definition typeIsFormulaTypeOrWallet (s : string) : bool :=
  bool_decide (s ∈ ["account"; "contract"; "generic"; "validator"; "wallet"]).

Definition formulaTypeOf (s : string) : FormulaType :=
  if String.eqb s "contract" then FtContract
  else if String.eqb s "validator" then FtValidator
  else if String.eqb s "account" then FtAccount
  else FtGeneric.

Definition FormulaTypeValues : list string :=
  ["account"; "contract"; "generic"; "validator"].
End SamplePaths.

(** A contract passes the code-id keys filter of [getContract]: no
    filter, an empty one, or one of whose keys the code id belongs to. *)
Definition passesCodeIdsKeys `{Runtime} (codeIdsKeysFilter : option (list string))
    (c : Contract) : bool :=
  match codeIdsKeysFilter with
  | Some (k :: ks) => bool_decide (c_codeId c ∈ findWasmCodeIdsByKeys (k :: ks))
  | _ => true
  end.

(** The contract row of an address, if it passes the filter. *)
Definition contractPassing `{Runtime} (db : Database) (address : string)
    (codeIdsKeysFilter : option (list string)) : option Contract :=
  match Contract_findOne db address with
  | Some c => if passesCodeIdsKeys codeIdsKeysFilter c then Some c else None
  | None => None
  end.

(** A transaction event that [getTxEvents] is to return: an event of
    the contract at or below the target block that meets the condition
    the extra [where] object has under every key other than
    [contractAddress] and [blockHeight]. *)
Definition txWanted `{Runtime} (opts : EnvOptions) (contractAddress : string)
    (where_ : option WhereOptions) (r : WasmTxEvent) : Prop :=
  wte_contractAddress r = contractAddress
  ∧ wte_blockHeight r ≤ height (block opts)
  ∧ ∀ key condition,
      default ∅ where_ !! key = Some condition →
      key ≠ "contractAddress" → key ≠ "blockHeight" →
      condition r = true.

(** A DAO treasury with a balance history and no snapshot. *)
Module SampleBank.
Definition treasury : string := "juno1dao".

Definition history : list BankStateEvent :=
  [ {| bse_address := treasury; bse_denom := "ujuno"; bse_blockHeight := 5;
       bse_balance := "10" |};
    {| bse_address := treasury; bse_denom := "ujuno"; bse_blockHeight := 8;
       bse_balance := "25" |};
    {| bse_address := treasury; bse_denom := "uusdc"; bse_blockHeight := 6;
       bse_balance := "7" |} ].

Definition db : Database :=
  {| wasmStateEvents := []; wasmStateEventTransformations := [];
     wasmTxEvents := []; bankBalances := []; bankStateEvents := history;
     contractRows := [{| c_address := treasury; c_codeId := 163 |}] |}.
End SampleBank.

(** What [getMap] returns from a memo entry. *)
Definition mapOutcome `{Runtime} (keyType : KeyType) (keyPrefix : string)
    (cached : option (list Event)) : Outcome (option (gmap string Json)) :=
  match mapM is_WasmStateEvent (default [] cached) with
  | None => Thrown "Incorrect event type."
  | Some wasmEvents =>
      if bool_decide (default [] cached = []) then Returned None
      else match buildMap keyType keyPrefix
                   (filter (λ e, wse_delete e = false) wasmEvents) ∅ with
           | Returned map => Returned (Some map)
           | Thrown msg => Thrown msg
           end
  end.

(** The memo entry [getMap] and [prefetch] make of the rows under a
    prefix. *)
Definition mapEntry (rows : list WasmStateEvent) : option (list Event) :=
  if bool_decide (rows = []) then None else Some (EvWasmState <$> rows).

(** The order of keys in a [DISTINCT ON] result. *)
Definition key_le (a b : string) : Prop := String.leb a b.

#[global] Instance key_le_dec a b : Decision (key_le a b).
Proof. unfold key_le. apply _. Defined.

(** The entry of the dependency recorder for a wasm state key. *)
Definition wasmDependency `{Runtime} (contractAddress key : string)
    (prefix : bool) : DependentKey :=
  {| dk_key := wasmDependentKey contractAddress key; dk_prefix := prefix |}.

(** The calls of a single-block computation: at most one unit of credit
    and one [compute]. *)
Definition is_single `{Runtime} (c : Call) : bool :=
  match c with
  | UsedCredit None | Computed _ => true
  | _ => false
  end.

(** A call that ends at or below the latest block: the end block of a
    computed range, and the height up to which a validity is extended. *)
Definition within_latest `{Runtime} `{!Server} (c : Call) : Prop :=
  match c with
  | ComputedRange _ blockEnd => height blockEnd ≤ height state_latestBlock
  | UpdatedValidity _ upTo => upTo ≤ height state_latestBlock
  | _ => True
  end.

(** A call that adds to or changes the stored computations. *)
Definition writes_stored `{Runtime} (c : Call) : bool :=
  match c with
  | UpdatedValidity _ _ | Created _ => true
  | _ => false
  end.

(** The request with its [time] parameter taken out. *)
Definition withoutTime (rq : Request) : Request :=
  {| rq_type := rq_type rq; rq_address := rq_address rq;
     rq_formulaName := rq_formulaName rq; rq_accountKey := rq_accountKey rq;
     rq_block := rq_block rq; rq_blocks := rq_blocks rq;
     rq_blockStep := rq_blockStep rq; rq_time := QAbsent;
     rq_times := rq_times rq; rq_timeStep := rq_timeStep rq;
     rq_args := rq_args rq |}.

(** A step all of whose calls satisfy [P] and whose answer, if it gives
    one, has a status in [ok]. *)
Definition calm `{Runtime} {A} (P : Call → Prop) (ok : Z → Prop) (m : Step A) : Prop :=
  Forall P m.1 ∧ match m.2 with inl r => ok (status r) | inr _ => True end.

(** What every call of the range branch behind the credit check
    satisfies. *)
Definition rangeCall `{Runtime} `{!Server} (stored : list Computation) (rq : Request) (c : Call)
    : Prop :=
  within_latest c ∧ is_credit c = false
  ∧ ((∀ x, x ∈ stored → ¬ sameQuery rq x) → writes_stored c = false).

(** A server like the sample one, whose keys have no credit left. *)
Definition poorServer : Server :=
  {| validateBlockString := Sample.blockOfString;
     BigInt := Sample.bigInt;
     getTypedFormula := @getTypedFormula _ Sample.server;
     Contract_findByPk := @Contract_findByPk _ Sample.server;
     Validator_findByPk := @Validator_findByPk _ Sample.server;
     state_chainId := @state_chainId _ Sample.server;
     state_latestBlock := @state_latestBlock _ Sample.server;
     currentTime := @currentTime _ Sample.server;
     Block_getForTime := @Block_getForTime _ Sample.server;
     Block_getFirst := @Block_getFirst _ Sample.server;
     useCredit := λ _ _, false;
     creditsForBlockInterval := @creditsForBlockInterval _ Sample.server;
     updateValidityUpToBlockHeight :=
       @updateValidityUpToBlockHeight _ Sample.server;
     computeRange := @computeRange _ Sample.server;
     createFromComputationOutputs :=
       @createFromComputationOutputs _ Sample.server;
     compute := @compute _ Sample.server;
     processComputationRange := @processComputationRange _ Sample.server;
     jsonString := @jsonString _ Sample.server;
     asString := @asString _ Sample.server;
     JSON_stringify := @JSON_stringify _ Sample.server |}.

(** Sample requests: a range of blocks, asked with no key, with the test
    key, and with a paying key. *)
Module SampleRequests.
Definition range : Request :=
  {| rq_type := FtContract; rq_address := Sample.addrA;
     rq_formulaName := "dao/config"; rq_accountKey := None;
     rq_block := QAbsent; rq_blocks := QString "10:10000..30:30000";
     rq_blockStep := QAbsent; rq_time := QAbsent;
     rq_times := QAbsent; rq_timeStep := QAbsent; rq_args := "{}" |}.

Definition withKey (accountKey : AccountKey) (rq : Request) : Request :=
  {| rq_type := rq_type rq; rq_address := rq_address rq;
     rq_formulaName := rq_formulaName rq; rq_accountKey := Some accountKey;
     rq_block := rq_block rq; rq_blocks := rq_blocks rq;
     rq_blockStep := rq_blockStep rq; rq_time := rq_time rq;
     rq_times := rq_times rq; rq_timeStep := rq_timeStep rq;
     rq_args := rq_args rq |}.

Definition testKey : AccountKey := {| ak_id := 1; ak_isTest := true |}.
Definition payingKey : AccountKey := {| ak_id := 2; ak_isTest := false |}.

Definition atTime (time : string) : Request :=
  {| rq_type := FtContract; rq_address := Sample.addrA;
     rq_formulaName := "dao/config"; rq_accountKey := None;
     rq_block := QString "7:7000"; rq_blocks := QAbsent;
     rq_blockStep := QAbsent; rq_time := QString time;
     rq_times := QAbsent; rq_timeStep := QAbsent; rq_args := "{}" |}.
End SampleRequests.

(** * Properties *)



(** Membership in a list that is written out. *)
Ltac in_list := apply list_elem_of_In; simpl; auto 10.

(** ** Greatest-height selection *)

Lemma newest_None {A} (h : A → Z) (rows : list A) :
  newest h rows = None ↔ rows = [].
Proof.
  split; [|intros ->; reflexivity].
  destruct rows as [|r rest]; [done|]. simpl.
  destruct (newest h rest); [case_bool_decide|]; discriminate.
Qed.

Lemma newest_Some {A} (h : A → Z) (rows : list A) (r : A) :
  newest h rows = Some r →
  r ∈ rows ∧ ∀ r', r' ∈ rows → h r' ≤ h r.
Proof.
  revert r. induction rows as [|x rest IH]; intros r; simpl; [discriminate|].
  destruct (newest h rest) as [b|] eqn:Hb.
  - destruct (IH b eq_refl) as [Hin Hmax].
    case_bool_decide as Hle; intros [= <-].
    + split; [left|]. intros r' [->|Hr']%elem_of_cons; [lia|].
      specialize (Hmax _ Hr'). lia.
    + split; [by right|]. intros r' [->|Hr']%elem_of_cons; [lia|auto].
  - apply newest_None in Hb as ->. intros [= <-].
    split; [left|]. intros r' [->|Hr']%elem_of_cons; [lia|]. inversion Hr'.
Qed.

Lemma NoDup_fmap_inj_on {A B} (f : A → B) (l : list A) :
  NoDup (f <$> l) → ∀ x y, x ∈ l → y ∈ l → f x = f y → x = y.
Proof.
  induction l as [|a l IH]; intros Hnd x y Hx Hy Hf; [inversion Hx|].
  rewrite fmap_cons in Hnd. apply NoDup_cons in Hnd as [Hnotin Hnd].
  apply elem_of_cons in Hx as [->|Hx], Hy as [->|Hy]; [done| | |by apply IH].
  - exfalso. apply Hnotin. rewrite Hf. by apply list_elem_of_fmap_2.
  - exfalso. apply Hnotin. rewrite <- Hf. by apply list_elem_of_fmap_2.
Qed.

Lemma filter_none {A} (P : A → Prop) `{!∀ x, Decision (P x)} (l : list A) :
  (∀ x, x ∈ l → ¬ P x) → filter P l = [].
Proof.
  induction l as [|a l IH]; intros Hno; [done|].
  rewrite filter_cons_False by (apply Hno; left).
  apply IH. intros x Hx. apply Hno. by right.
Qed.

Lemma elem_of_concat {A} (x : A) (ls : list (list A)) :
  x ∈ concat ls ↔ ∃ l, x ∈ l ∧ l ∈ ls.
Proof.
  induction ls as [|l ls IH]; simpl.
  - split; [intros Hx; inversion Hx|intros (l & _ & Hl); inversion Hl].
  - rewrite elem_of_app, IH. split.
    + intros [Hx|(l' & Hx & Hl')]; [exists l; split; [done|left]|].
      exists l'. split; [done|by right].
    + intros (l' & Hx & [->|Hl']%elem_of_cons); [by left|right; eauto].
Qed.

Lemma findOne_visible db a k h r :
  WasmStateEvent_findOne db a k h = Some r → most_recent db a k h r.
Proof.
  unfold WasmStateEvent_findOne. intros [Hin Hmax]%newest_Some.
  apply list_elem_of_filter in Hin as [(Ha & Hk & Hh) Hin].
  split; [done|]. intros r' (Hin' & Ha' & Hk' & Hh').
  apply Hmax, list_elem_of_filter. done.
Qed.

Lemma findOne_None db a k h :
  WasmStateEvent_findOne db a k h = None ↔ ∀ r, ¬ visible db a k h r.
Proof.
  unfold WasmStateEvent_findOne. rewrite newest_None. split.
  - intros Hnil r (Hin & Ha & Hk & Hh).
    assert (Hr : r ∈ filter (λ r, wse_contractAddress r = a ∧ wse_key r = k
                               ∧ wse_blockHeight r ≤ h) (wasmStateEvents db))
      by (apply list_elem_of_filter; done).
    rewrite Hnil in Hr. inversion Hr.
  - intros Hno. destruct (filter _ _) as [|r rest] eqn:Hf; [done|].
    exfalso. apply (Hno r).
    assert (Hr : r ∈ filter (λ r, wse_contractAddress r = a ∧ wse_key r = k
                               ∧ wse_blockHeight r ≤ h) (wasmStateEvents db))
      by (rewrite Hf; left).
    apply list_elem_of_filter in Hr as [(Ha & Hk & Hh) Hin]. done.
Qed.

Lemma most_recent_unique db a k h r r' :
  heights_unique db → most_recent db a k h r → most_recent db a k h r' → r = r'.
Proof.
  intros Huniq [Hv Hmax] [Hv' Hmax'].
  pose proof (Hmax _ Hv'). pose proof (Hmax' _ Hv).
  destruct Hv as (? & ? & ? & ?), Hv' as (? & ? & ? & ?).
  eapply (NoDup_fmap_inj_on _ _ Huniq); [done|done|].
  f_equal; [f_equal; congruence|lia].
Qed.

Lemma findOne_most_recent db a k h r :
  heights_unique db → most_recent db a k h r →
  WasmStateEvent_findOne db a k h = Some r.
Proof.
  intros Huniq Hr.
  destruct (WasmStateEvent_findOne db a k h) as [r0|] eqn:Hf.
  - f_equal. eapply most_recent_unique; eauto using findOne_visible.
  - exfalso. eapply findOne_None; [done|]. apply Hr.
Qed.

(** ** Point reads *)

Section PointRead.
Context `{Runtime} (db : Database) (opts : EnvOptions).

(** What [get] does on a key the memo has not tried. *)
Lemma get_untried s a keys :
  events s !! wasmDependentKey a (dbKeyForKeys keys) = None →
  (get db opts a keys s).2 =
    match WasmStateEvent_findOne db a (dbKeyForKeys keys) (height (block opts)) with
    | None => Returned None
    | Some r =>
        if wse_delete r then Returned None
        else match JSON_parse (default "null" (wse_value r)) with
             | Some v => Returned (Some v)
             | None => Thrown "SyntaxError"
             end
    end.
Proof.
  intros Hmemo. unfold get, bind, push_dependentKey, cache_events, query.
  destruct (dependentKeys s); simpl; rewrite Hmemo; simpl;
    (destruct (WasmStateEvent_findOne _ _ _ _) as [r|]; simpl; [|done]);
    unfold call_onFetch; destruct (onFetch opts); simpl;
    destruct (wse_delete r); simpl; try done;
    destruct (JSON_parse _); done.
Qed.
End PointRead.

(** C1. On a key the evaluation has not memoised yet, [get] returns the
    JSON-parsed value of the row of greatest height at or below the target
    block for that contract address and composed key; it returns absent
    when there is no such row, and when that row is a tombstone (which so
    shadows every older value). Heights are unique per key (I2). *)
Theorem get_effective_value `{Runtime} (db : Database) (opts : EnvOptions)
    (s : Store) (contractAddress : string) (keys : list KeyPart) :
  heights_unique db →
  events s !! wasmDependentKey contractAddress (dbKeyForKeys keys) = None →
  let key := dbKeyForKeys keys in
  let h := height (block opts) in
  let result := (get db opts contractAddress keys s).2 in
  ((∀ r, ¬ visible db contractAddress key h r) → result = Returned None)
  ∧ (∀ r, most_recent db contractAddress key h r → wse_delete r = true →
       result = Returned None)
  ∧ (∀ r, most_recent db contractAddress key h r → wse_delete r = false →
       result = match JSON_parse (default "null" (wse_value r)) with
                | Some value => Returned (Some value)
                | None => Thrown "SyntaxError"
                end).
Proof.
  intros Huniq Hmemo key h result. subst result.
  rewrite (get_untried db opts s contractAddress keys Hmemo).
  fold key h. repeat split.
  - intros Hno. apply findOne_None in Hno. by rewrite Hno.
  - intros r Hr Hdel. rewrite (findOne_most_recent _ _ _ _ _ Huniq Hr).
    by rewrite Hdel.
  - intros r Hr Hdel. rewrite (findOne_most_recent _ _ _ _ _ Huniq Hr).
    by rewrite Hdel.
Qed.

Lemma get_effective_value_witness :
  (get Sample.dbS2 (Sample.at_ 27) Sample.addrA [KString "k"]
     Sample.freshStore).2 = Returned None.
Proof.
  destruct (get_effective_value Sample.dbS2 (Sample.at_ 27) Sample.freshStore
              Sample.addrA [KString "k"]) as (_ & Htombstone & _).
  - unfold heights_unique. apply (bool_decide_unpack _). vm_compute. exact I.
  - reflexivity.
  - apply (Htombstone (Sample.tombstone 25)); [|reflexivity].
    split.
    + split; [in_list|].
      split; [reflexivity|]. split; [reflexivity|]. simpl. lia.
    + intros r' (Hin & _ & _ & Hh). simpl in Hin, Hh.
      repeat (apply elem_of_cons in Hin as [->|Hin]); simpl in *; try lia.
      inversion Hin.
Defined.


(** ** One row per key *)

Section DistinctOn.
Context {A : Type} (key : A → string) (h : A → Z).

Lemma distinct_on_elem rows e :
  e ∈ distinct_on key h rows ↔
  newest h (filter (λ r, key r = key e) rows) = Some e.
Proof.
  unfold distinct_on. rewrite list_elem_of_omap. split.
  - intros (k & _ & Hk). pose proof Hk as [Hin _]%newest_Some.
    apply list_elem_of_filter in Hin as [<- _]. done.
  - intros He. exists (key e). split; [|done].
    rewrite merge_sort_Permutation, elem_of_remove_dups.
    apply newest_Some in He as [Hin _].
    apply list_elem_of_filter in Hin as [_ Hin].
    by apply list_elem_of_fmap_2.
Qed.

Lemma distinct_on_covers rows r :
  r ∈ rows → ∃ e, e ∈ distinct_on key h rows ∧ key e = key r.
Proof.
  intros Hr.
  destruct (newest h (filter (λ x, key x = key r) rows)) as [e|] eqn:He.
  - exists e. pose proof He as [Hin _]%newest_Some.
    apply list_elem_of_filter in Hin as [Hk _].
    split; [|done]. apply distinct_on_elem. by rewrite Hk.
  - apply newest_None in He.
    assert (Hin : r ∈ filter (λ x, key x = key r) rows)
      by (by apply list_elem_of_filter).
    rewrite He in Hin. inversion Hin.
Qed.

Lemma distinct_on_sub rows e :
  e ∈ distinct_on key h rows →
  e ∈ rows ∧ ∀ r, r ∈ rows → key r = key e → h r ≤ h e.
Proof.
  intros [Hin Hmax]%distinct_on_elem%newest_Some.
  apply list_elem_of_filter in Hin as [_ Hin]. split; [done|].
  intros r Hr Hk. apply Hmax, list_elem_of_filter. done.
Qed.

Lemma distinct_on_nil rows : distinct_on key h rows = [] ↔ rows = [].
Proof.
  split; [|intros ->; reflexivity].
  destruct rows as [|r rest]; [done|]. intros Hnil.
  destruct (distinct_on_covers (r :: rest) r) as (e & He & _); [left|].
  rewrite Hnil in He. inversion He.
Qed.

Lemma head_filter_omap (f : string → option A) (ks : list string) (k : string) :
  NoDup ks →
  (∀ k' e, f k' = Some e → key e = k') →
  head (filter (λ e, key e = k) (omap f ks))
    = if decide (k ∈ ks) then f k else None.
Proof.
  intros Hnd Hkey. induction Hnd as [|k' ks Hnotin Hnd IH].
  - destruct (decide (k ∈ [])) as [Hin|]; [inversion Hin|done].
  - assert (Hrest : k ≠ k' →
              head (filter (λ e, key e = k) (omap f ks))
              = if decide (k ∈ k' :: ks) then f k else None).
    { intros Hne. rewrite IH.
      destruct (decide (k ∈ ks)) as [Hin|Hin],
               (decide (k ∈ k' :: ks)) as [Hin'|Hin']; try done.
      - exfalso. apply Hin'. by right.
      - exfalso. apply elem_of_cons in Hin' as [?|?]; done. }
    simpl. destruct (f k') as [e|] eqn:Hf; simpl.
    + destruct (decide (k = k')) as [->|Hne].
      * rewrite filter_cons_True by eauto.
        destruct (decide (k' ∈ k' :: ks)) as [|Hin']; [by rewrite Hf|].
        exfalso. apply Hin'. left.
      * rewrite filter_cons_False; [by apply Hrest|].
        rewrite (Hkey _ _ Hf). done.
    + destruct (decide (k = k')) as [->|Hne]; [|by apply Hrest].
      transitivity (if decide (k' ∈ ks) then f k' else None); [exact IH|].
      rewrite Hf. destruct (decide (k' ∈ ks)); by destruct (decide _).
Qed.

Lemma distinct_on_head rows k :
  head (filter (λ e, key e = k) (distinct_on key h rows))
    = newest h (filter (λ r, key r = k) rows).
Proof.
  unfold distinct_on. rewrite head_filter_omap.
  - destruct (decide _) as [Hin|Hnotin]; [done|].
    symmetry. apply newest_None, filter_none. intros r Hr Hk.
    apply Hnotin. rewrite merge_sort_Permutation, elem_of_remove_dups.
    rewrite <- Hk. by apply list_elem_of_fmap_2.
  - rewrite merge_sort_Permutation. apply NoDup_remove_dups.
  - intros k' e [Hin _]%newest_Some.
    by apply list_elem_of_filter in Hin as [? _].
Qed.
End DistinctOn.

(** ** Map reads *)

Lemma buildMap_nil `{Runtime} keyType keyPrefix :
  buildMap keyType keyPrefix [] ∅ = Returned ∅.
Proof. reflexivity. Qed.

Section MapRead.
Context `{Runtime} (db : Database) (opts : EnvOptions).

Lemma findAll_prefix_elem a p e :
  e ∈ WasmStateEvent_findAll_prefix db opts a p →
  under_prefix db a p (height (block opts)) e
  ∧ most_recent db a (wse_key e) (height (block opts)) e.
Proof.
  unfold WasmStateEvent_findAll_prefix.
  intros [Hin Hmax]%distinct_on_sub.
  apply list_elem_of_filter in Hin as [(Ha & Hp & Hh) Hin].
  split; [done|]. split; [done|].
  intros r' (Hin' & Ha' & Hk' & Hh'). apply Hmax; [|done].
  apply list_elem_of_filter. split; [|done].
  split; [done|]. split; [by rewrite Hk'|done].
Qed.

Lemma findAll_prefix_nil a p :
  WasmStateEvent_findAll_prefix db opts a p = [] ↔
  ∀ r, ¬ under_prefix db a p (height (block opts)) r.
Proof.
  unfold WasmStateEvent_findAll_prefix. rewrite distinct_on_nil. split.
  - intros Hnil r (Hin & Ha & Hp & Hh).
    assert (Hr : r ∈ filter (λ r, wse_contractAddress r = a
                               ∧ String.prefix p (wse_key r)
                               ∧ blockHeightFilter opts (wse_blockHeight r))
                        (wasmStateEvents db))
      by (apply list_elem_of_filter; done).
    rewrite Hnil in Hr. inversion Hr.
  - intros Hno. destruct (filter _ _) as [|r rest] eqn:Hf; [done|].
    exfalso. apply (Hno r).
    assert (Hr : r ∈ filter (λ r, wse_contractAddress r = a
                               ∧ String.prefix p (wse_key r)
                               ∧ blockHeightFilter opts (wse_blockHeight r))
                        (wasmStateEvents db))
      by (rewrite Hf; left).
    apply list_elem_of_filter in Hr as [(Ha & Hp & Hh) Hin]. done.
Qed.

(** What [getMap] does on a prefix the memo has not tried. *)
Lemma getMap_untried s a name keyType :
  events s !! wasmDependentKey a (mapKeyPrefix name) = None →
  (getMap db opts a name keyType s).2 =
    match WasmStateEvent_findAll_prefix db opts a (mapKeyPrefix name) with
    | [] => Returned None
    | rows =>
        match buildMap keyType (mapKeyPrefix name)
                (filter (λ e, wse_delete e = false) rows) ∅ with
        | Returned map => Returned (Some map)
        | Thrown msg => Thrown msg
        end
    end.
Proof.
  intros Hmemo. unfold getMap, bind, push_dependentKey, cache_events, query.
  set (rows := WasmStateEvent_findAll_prefix db opts a (mapKeyPrefix name)).
  assert (HmapM : mapM is_WasmStateEvent (EvWasmState <$> rows) = Some rows)
    by (by apply mapM_fmap_Some).
  destruct (dependentKeys s); simpl; rewrite Hmemo; simpl; rewrite HmapM;
    simpl; (destruct rows as [|r rest]; [done|]);
    rewrite bool_decide_eq_false_2 by done; simpl;
    unfold call_onFetch; destruct (onFetch opts); simpl;
    destruct (buildMap _ _ _ _); done.
Qed.
End MapRead.

(** C10. On a prefix the evaluation has not memoised yet, [getMap] returns
    absent when no row of the contract at or below the target block has a
    key under the prefix, and returns the empty mapping, not absent, when
    such rows exist and the most recent row of every such key is a
    tombstone. *)
Theorem getMap_absent_or_empty `{Runtime} (db : Database) (opts : EnvOptions)
    (s : Store) (contractAddress : string) (name : MapName) (keyType : KeyType) :
  events s !! wasmDependentKey contractAddress (mapKeyPrefix name) = None →
  let keyPrefix := mapKeyPrefix name in
  let h := height (block opts) in
  let result := (getMap db opts contractAddress name keyType s).2 in
  ((∀ r, ¬ under_prefix db contractAddress keyPrefix h r) →
     result = Returned None)
  ∧ ((∃ r, under_prefix db contractAddress keyPrefix h r) →
     (∀ r, under_prefix db contractAddress keyPrefix h r →
           most_recent db contractAddress (wse_key r) h r →
           wse_delete r = true) →
     result = Returned (Some ∅)).
Proof.
  intros Hmemo keyPrefix h result. subst result.
  rewrite (getMap_untried db opts s contractAddress name keyType Hmemo).
  fold keyPrefix. split.
  - intros Hno.
    by rewrite (proj2 (findAll_prefix_nil db opts contractAddress keyPrefix) Hno).
  - intros [r0 Hr0] Hall.
    destruct (WasmStateEvent_findAll_prefix db opts contractAddress keyPrefix)
      as [|e rest] eqn:Hrows.
    { exfalso.
      exact (proj1 (findAll_prefix_nil db opts contractAddress keyPrefix)
               Hrows r0 Hr0). }
    rewrite <- Hrows.
    assert (Hnone : filter (λ e, wse_delete e = false)
              (WasmStateEvent_findAll_prefix db opts contractAddress keyPrefix) = []).
    { apply filter_none. intros x Hx.
      apply findAll_prefix_elem in Hx as [Hu Hm].
      rewrite (Hall _ Hu Hm). done. }
    rewrite Hnone. done.
Qed.

Lemma getMap_absent_or_empty_witness :
  (getMap Sample.dbItemsGone (Sample.at_ 10) Sample.addrA
     (NameOne (KString "items")) KeyTypeString Sample.freshStore).2
    = Returned (Some ∅).
Proof.
  destruct (getMap_absent_or_empty Sample.dbItemsGone (Sample.at_ 10)
              Sample.freshStore Sample.addrA (NameOne (KString "items"))
              KeyTypeString) as [_ Hempty]; [reflexivity|].
  apply Hempty.
  - exists Sample.itemAGone.
    split; [in_list|].
    split; [reflexivity|]. split; [vm_compute; exact I|]. simpl. lia.
  - intros r (Hin & _ & _ & _) [_ Hmax]. simpl in Hin.
    repeat (apply elem_of_cons in Hin as [->|Hin]); [|reflexivity|inversion Hin].
    exfalso.
    assert (Hlate : wse_blockHeight Sample.itemAGone ≤ wse_blockHeight Sample.itemA).
    { apply Hmax. split; [in_list|].
      split; [reflexivity|]. split; [reflexivity|]. simpl. lia. }
    simpl in Hlate. lia.
Defined.


(** ** Balances *)

Lemma queries_app effs effs' : queries (effs ++ effs') = queries effs ++ queries effs'.
Proof. unfold queries. apply omap_app. Qed.

Lemma hookCalls_app effs effs' :
  hookCalls (effs ++ effs') = hookCalls effs ++ hookCalls effs'.
Proof. unfold hookCalls. apply omap_app. Qed.

Section Balances.
Context `{Runtime} (db : Database) (opts : EnvOptions).

Lemma BankBalance_findOne_Some a b :
  BankBalance_findOne db opts a = Some b →
  snapshot_visible db a (height (block opts)) b.
Proof.
  unfold BankBalance_findOne. intros Hb%head_Some_elem_of.
  apply list_elem_of_filter in Hb as [[Ha Hh] Hin]. done.
Qed.

Lemma BankBalance_findOne_None a :
  BankBalance_findOne db opts a = None ↔
  ∀ b, ¬ snapshot_visible db a (height (block opts)) b.
Proof.
  unfold BankBalance_findOne. rewrite head_None. split.
  - intros Hnil b (Hin & Ha & Hh).
    assert (Hb : b ∈ filter (λ r, bb_address r = a
                               ∧ blockHeightFilter opts (bb_blockHeight r))
                        (bankBalances db))
      by (apply list_elem_of_filter; done).
    rewrite Hnil in Hb. inversion Hb.
  - intros Hno. apply filter_none. intros b Hin [Ha Hh]. by apply (Hno b).
Qed.

(** A code-id check against a sound contract memo: the answer, and at
    most one [Contract] read. *)
Lemma contractMatches_sound s a keys :
  contract_memo_sound db s a →
  keys ≠ [] →
  ∃ s' extra,
    contractMatchesCodeIdKeys db a keys s
      = (s', Returned (bool_decide (contract_matches db a keys)))
    ∧ events s' = events s ∧ dependentKeys s' = dependentKeys s
    ∧ effects s' = effects s ++ extra
    ∧ (extra = [] ∨ extra = [Queried TContract]).
Proof.
  intros Hsound Hkeys.
  unfold contractMatchesCodeIdKeys, getContract, bind, cache_contracts, query,
    set_cache_contracts, getCodeIdsForKeys.
  destruct keys as [|k ks]; [done|].
  simpl. unfold ret.
  assert (Hb : bool_decide (contract_matches db a (k :: ks))
               = match Contract_findOne db a with
                 | Some c => bool_decide (c_codeId c ∈ findWasmCodeIdsByKeys (k :: ks))
                 | None => false
                 end).
  { destruct (Contract_findOne db a) as [c|] eqn:Hc.
    - apply bool_decide_ext. unfold contract_matches. rewrite Hc. tauto.
    - apply bool_decide_eq_false. unfold contract_matches. rewrite Hc. tauto. }
  rewrite Hb. clear Hb.
  destruct (contracts s !! a) as [cached|] eqn:Hmemo.
  - pose proof (Hsound _ Hmemo) as ->.
    destruct (Contract_findOne db a) as [c|]; simpl.
    + destruct (bool_decide (c_codeId c ∈ findWasmCodeIdsByKeys (k :: ks)));
        simpl; exists s, []; rewrite app_nil_r; auto 10.
    + exists s, []. rewrite app_nil_r. auto 10.
  - simpl. destruct (Contract_findOne db a) as [c|]; simpl.
    + destruct (bool_decide (c_codeId c ∈ findWasmCodeIdsByKeys (k :: ks)));
        simpl; eexists _, [Queried TContract]; auto 10.
    + eexists _, [Queried TContract]. auto 10.
Qed.

Lemma BankBalance_findOne_is_Some a :
  (∃ b, snapshot_visible db a (height (block opts)) b) →
  is_Some (BankBalance_findOne db opts a).
Proof.
  intros [b Hb]. destruct (BankBalance_findOne db opts a) eqn:Hf; [eauto|].
  exfalso. exact (proj1 (BankBalance_findOne_None a) Hf b Hb).
Qed.

(** With one row per address, the row the lookup settles on is the row
    of the address. *)
Lemma history_contract_keeps a :
  addresses_unique db → history_contract db a ↔ keeps_history db a.
Proof.
  intros Hunique. unfold history_contract, contract_matches, keeps_history.
  destruct (Contract_findOne db a) as [c|] eqn:Hc; unfold Contract_findOne in Hc.
  - apply head_Some_elem_of, list_elem_of_filter in Hc as [Ha Hin]. split.
    + intros Hid. by exists c.
    + intros (c' & Hin' & Ha' & Hid).
      by rewrite (NoDup_fmap_inj_on c_address _ Hunique c c' Hin Hin'
                    (eq_trans Ha (eq_sym Ha'))).
  - split; [done|]. intros (c' & Hin' & Ha' & _).
    apply head_None in Hc.
    assert (Hc' : c' ∈ filter (λ c, c_address c = a) (contractRows db))
      by (by apply list_elem_of_filter).
    rewrite Hc in Hc'. inversion Hc'.
Qed.

Lemma BankStateEvent_findOne_latest a denom e :
  BankStateEvent_findOne db opts a denom = Some e →
  latest_balance db a denom (height (block opts)) e.
Proof.
  unfold BankStateEvent_findOne. intros [Hin Hmax]%newest_Some.
  apply list_elem_of_filter in Hin as [(Ha & Hd & Hh) Hin].
  split; [done|]. intros e' (Hin' & Ha' & Hd' & Hh').
  apply Hmax, list_elem_of_filter. done.
Qed.

Lemma BankStateEvent_findOne_None a denom :
  BankStateEvent_findOne db opts a denom = None ↔
  ∀ e, ¬ balance_visible db a denom (height (block opts)) e.
Proof.
  unfold BankStateEvent_findOne. rewrite newest_None. split.
  - intros Hnil e (Hin & Ha & Hd & Hh).
    assert (He : e ∈ filter (λ r, bse_address r = a ∧ bse_denom r = denom
                               ∧ blockHeightFilter opts (bse_blockHeight r))
                        (bankStateEvents db))
      by (apply list_elem_of_filter; done).
    rewrite Hnil in He. inversion He.
  - intros Hno. apply filter_none. intros e Hin (Ha & Hd & Hh).
    by apply (Hno e).
Qed.

(** [getBalance] on an address whose balance slots this evaluation has
    not tried yet: its result and the queries it adds, by what the
    database holds. *)
Lemma getBalance_untried s a denom :
  BANK_HISTORY_CODE_IDS_KEYS ≠ [] →
  getDependentKey (dependentKeyNamespace FBankBalance) [a]
    ≠ getDependentKey (dependentKeyNamespace FBankState) [a; denom] →
  events s !! getDependentKey (dependentKeyNamespace FBankBalance) [a] = None →
  events s !! getDependentKey (dependentKeyNamespace FBankState) [a; denom] = None →
  contract_memo_sound db s a →
  let run := getBalance db opts a denom s in
  match BankBalance_findOne db opts a with
  | Some b =>
      run.2 = Returned (bb_balances b !! denom)
      ∧ queries (effects run.1) = queries (effects s) ++ [TBankBalance]
  | None =>
      ∃ lookup, (lookup = [] ∨ lookup = [TContract]) ∧
      if bool_decide (history_contract db a) then
        run.2 = Returned (bse_balance <$> BankStateEvent_findOne db opts a denom)
        ∧ queries (effects run.1)
          = queries (effects s) ++ [TBankBalance] ++ lookup ++ [TBankStateEvent]
      else
        run.2 = Returned None
        ∧ queries (effects run.1)
          = queries (effects s) ++ [TBankBalance] ++ lookup
  end.
Proof.
  intros Hkeys Hne Hsnap Hhist Hcontract run. subst run.
  unfold getBalance, bind, cache_events, query. simpl. rewrite Hsnap. simpl.
  destruct (BankBalance_findOne db opts a) as [b|]; simpl.
  - unfold call_onFetch. destruct (onFetch opts); simpl;
      rewrite ?queries_app; simpl; rewrite ?app_nil_r; done.
  - unfold getBalance_history, bind.
    match goal with
    | |- context [contractMatchesCodeIdKeys db a _ ?s1] =>
        destruct (contractMatches_sound s1 a BANK_HISTORY_CODE_IDS_KEYS
                    Hcontract Hkeys) as (s2 & extra & -> & Hev & Hdk & Heff & Hextra)
    end.
    simpl in Hev, Heff. unfold history_contract.
    exists (queries extra). split; [destruct Hextra as [-> | ->]; auto|].
    destruct (bool_decide (contract_matches db a BANK_HISTORY_CODE_IDS_KEYS));
      simpl.
    + assert (Hmiss : events s2 !! getDependentKey
                (dependentKeyNamespace FBankState) [a; denom] = None)
        by (rewrite Hev, lookup_insert_ne; done).
      unfold push_dependentKey, cache_events, query.
      destruct (dependentKeys s2); simpl; rewrite Hmiss; simpl;
        (destruct (BankStateEvent_findOne db opts a denom) as [e|]; simpl);
        unfold call_onFetch; destruct (onFetch opts); simpl;
        rewrite ?Heff, ?queries_app; simpl; rewrite ?queries_app; simpl;
        rewrite ?app_nil_r, <- ?app_assoc; done.
    + unfold ret. simpl. rewrite Heff, !queries_app. simpl.
      rewrite <- app_assoc. done.
Qed.
End Balances.

(** C4. On an address whose balance slots the evaluation has not tried
    yet, [getBalance] first reads the [BankBalance] snapshot at or below
    the target height and answers from it when there is one, without
    touching [BankStateEvent]; when there is none it checks the contract,
    and it reads the per-denom [BankStateEvent] history only if the
    address is a contract whose code id belongs to one of the configured
    bank-history keys, answering with the balance of the most recent
    event of the denom at or below the target height, or with absent
    when there is no such event; otherwise it returns absent without
    that query. *)
Theorem getBalance_snapshot_then_history `{Runtime} (db : Database)
    (opts : EnvOptions) (s : Store) (address denom : string) :
  BANK_HISTORY_CODE_IDS_KEYS ≠ [] →
  addresses_unique db →
  let snapshotKey := getDependentKey (dependentKeyNamespace FBankBalance) [address] in
  let historyKey :=
    getDependentKey (dependentKeyNamespace FBankState) [address; denom] in
  snapshotKey ≠ historyKey →
  events s !! snapshotKey = None →
  events s !! historyKey = None →
  contract_memo_sound db s address →
  let h := height (block opts) in
  let run := getBalance db opts address denom s in
  ∃ qs, queries (effects run.1) = queries (effects s) ++ qs
    ∧ head qs = Some TBankBalance
    ∧ ((∃ b, snapshot_visible db address h b) →
         (∃ b, snapshot_visible db address h b
               ∧ run.2 = Returned (bb_balances b !! denom))
         ∧ TBankStateEvent ∉ qs)
    ∧ ((∀ b, ¬ snapshot_visible db address h b) →
         ¬ keeps_history db address →
         run.2 = Returned None ∧ TBankStateEvent ∉ qs)
    ∧ ((∀ b, ¬ snapshot_visible db address h b) →
         keeps_history db address →
         TBankStateEvent ∈ qs
         ∧ ((∀ e, ¬ balance_visible db address denom h e) →
              run.2 = Returned None)
         ∧ ((∃ e, balance_visible db address denom h e) →
              ∃ e, latest_balance db address denom h e
                   ∧ run.2 = Returned (Some (bse_balance e)))).
Proof.
  intros Hkeys Hunique snapshotKey historyKey Hne Hsnap Hhist Hcontract h run.
  pose proof (getBalance_untried db opts s address denom
                Hkeys Hne Hsnap Hhist Hcontract) as Hrun.
  fold run in Hrun. simpl in Hrun.
  pose proof (history_contract_keeps db address Hunique) as Hkeeps.
  destruct (BankBalance_findOne db opts address) as [b|] eqn:Hb.
  - destruct Hrun as [Hres Hq]. exists [TBankBalance]. split; [done|].
    apply BankBalance_findOne_Some in Hb.
    split; [done|]. split.
    { intros _. split; [eauto|]. intros Hin. apply list_elem_of_In in Hin.
      simpl in Hin. intuition discriminate. }
    split; intros Hno; exfalso; by apply (Hno b).
  - pose proof (proj1 (BankBalance_findOne_None db opts address) Hb) as Hno.
    destruct Hrun as (lookup & Hlookup & Hrun).
    case_bool_decide as Hh; destruct Hrun as [Hres Hq]; eexists;
      (split; [exact Hq|]); (split; [done|]);
      (split; [intros [b Hb']; exfalso; by apply (Hno b)|]);
      split; intros _ Hh'; try (exfalso; tauto).
    + split; [destruct Hlookup as [-> | ->]; in_list|].
      rewrite Hres.
      destruct (BankStateEvent_findOne db opts address denom) as [e|] eqn:He.
      * apply BankStateEvent_findOne_latest in He. split.
        -- intros Hnone. exfalso. apply (Hnone e), He.
        -- intros _. by exists e.
      * pose proof (proj1 (BankStateEvent_findOne_None db opts address denom) He)
          as Hnone.
        split; [done|]. intros [e He']. exfalso. by apply (Hnone e).
    + split; [done|]. intros Hin. apply list_elem_of_In in Hin.
      destruct Hlookup as [-> | ->]; simpl in Hin; intuition discriminate.
Qed.

Lemma getBalance_snapshot_then_history_witness :
  (getBalance SampleBank.db (Sample.at_ 7) SampleBank.treasury "ujuno"
     Sample.freshStore).2 = Returned (Some "10").
Proof.
  destruct (getBalance_snapshot_then_history SampleBank.db (Sample.at_ 7)
              Sample.freshStore SampleBank.treasury "ujuno")
    as (qs & _ & _ & _ & _ & Hhistory).
  - discriminate.
  - unfold addresses_unique. simpl. apply NoDup_singleton.
  - vm_compute. discriminate.
  - reflexivity.
  - reflexivity.
  - intros c Hc. discriminate Hc.
  - destruct Hhistory as (_ & _ & Hlatest).
    + intros b (Hin & _). inversion Hin.
    + eexists. split; [left|]. split; [reflexivity|].
      apply (bool_decide_unpack _). vm_compute. exact I.
    + destruct Hlatest as (e & [(Hin & _ & Hdenom & Hh) Hmax] & ->).
      * eexists. split; [left|]. split; [reflexivity|].
        split; [reflexivity|]. simpl. lia.
      * simpl in Hin, Hh.
        repeat (apply elem_of_cons in Hin as [->|Hin]);
          [reflexivity|simpl in Hh; lia|discriminate Hdenom|inversion Hin].
Defined.


(** ** Dependencies and the hook *)

(** [get] appends its key to a present recorder whatever the read finds. *)
Lemma get_records_dependency `{Runtime} db opts s a keys ds :
  dependentKeys s = Some ds →
  dependentKeys (get db opts a keys s).1
    = Some (ds ++ [{| dk_key := wasmDependentKey a (dbKeyForKeys keys);
                      dk_prefix := false |}]).
Proof.
  intros Hds. unfold get, bind, push_dependentKey, cache_events, query.
  rewrite Hds. simpl.
  destruct (events s !! _) as [cached|]; simpl.
  - destruct (head (default [] cached)) as [[e| | | |]|]; simpl; try done.
    unfold call_onFetch. destruct (onFetch opts); simpl;
      destruct (wse_delete e); simpl; try done; destruct (JSON_parse _); done.
  - destruct (WasmStateEvent_findOne _ _ _ _) as [e|]; simpl; [|done].
    unfold call_onFetch. destruct (onFetch opts); simpl;
      destruct (wse_delete e); simpl; try done; destruct (JSON_parse _); done.
Qed.

(** What [get] returns is the same whatever hook is installed, or none. *)
Lemma get_value_ignores_hook `{Runtime} db (b : Block) hook hook' s a keys :
  (get db {| block := b; onFetch := hook |} a keys s).2
  = (get db {| block := b; onFetch := hook' |} a keys s).2.
Proof.
  unfold get, bind, push_dependentKey, cache_events, set_cache_events, query,
    call_onFetch, emit, ret, throw. simpl.
  destruct (dependentKeys s);
    destruct (events s !! wasmDependentKey a (dbKeyForKeys keys)) as [cached|];
    simpl; repeat case_match; simplify_eq/=; done.
Qed.

(** C3. [getBalance] on an address with no balance snapshot that is not a
    contract: the snapshot and the contract are both read, nothing is
    found, absent is returned, and the dependency recorder is exactly as
    it was before the call. *)
Theorem getBalance_miss_records_nothing :
  let run := getBalance Sample.emptyDb (Sample.at_ 100) "juno1wallet" "ujuno"
               Sample.freshStore in
  run.2 = Returned None
  ∧ queries (effects run.1) = [TBankBalance; TContract]
  ∧ dependentKeys run.1 = Some [].
Proof. vm_compute. done. Qed.

(** C5. [getTxEvents] finds a row and returns it, yet the hook is never
    called and its state is untouched; [prefetchTransformations] fetches
    and memoises a row, yet hands the hook an empty list. *)
Theorem getTxEvents_skips_hook :
  let run := getTxEvents Sample.dbTx (Sample.at_ 10) Sample.addrA None
               Sample.freshStore in
  let run' := prefetchTransformations Sample.dbConfig (Sample.at_ 10) Sample.addrA
                [PnString "config"] Sample.freshStore in
  (run.2 = Returned (Some [Sample.tx])
   ∧ hookCalls (effects run.1) = []
   ∧ hookState run.1 = 0%nat)
  ∧ (events run'.1 !! "wasm_state_transformation:juno1contract:config"
       = Some (Some [EvTransformation Sample.config])
     ∧ hookCalls (effects run'.1) = [[]]).
Proof. vm_compute. done. Qed.

(** ** The memo *)

(** Unfolding a getter down to the store, and closing goals about the
    store it leaves. *)
Ltac run_getter :=
  unfold get, getMap, getTxEvents, bind, ret, throw, push_dependentKey,
    cache_events, set_cache_events, query, call_onFetch, emit;
  simpl.

Ltac settle_effects :=
  simpl;
  repeat first [ progress rewrite queries_app
               | progress rewrite hookCalls_app
               | progress rewrite lookup_insert_eq
               | progress rewrite app_nil_r
               | progress rewrite <- app_assoc
               | progress simpl ];
  try done.

Section Memo.
Context `{Runtime} (db : Database) (opts : EnvOptions).

(** A memoised key: no query, the memo is left as it is. *)
Lemma get_hit s a keys cached :
  events s !! wasmDependentKey a (dbKeyForKeys keys) = Some cached →
  let run := get db opts a keys s in
  run.2 = memo_outcome cached
  ∧ events run.1 = events s
  ∧ queries (effects run.1) = queries (effects s).
Proof.
  intros Hmemo run. subst run. run_getter.
  unfold memo_outcome, row_outcome.
  destruct (dependentKeys s); simpl; rewrite Hmemo;
    repeat case_match; simplify_eq/=; settle_effects.
Qed.

(** A key not tried yet: one query, and the row found (or [null]) is
    memoised. *)
Lemma get_miss s a keys :
  events s !! wasmDependentKey a (dbKeyForKeys keys) = None →
  let found :=
    WasmStateEvent_findOne db a (dbKeyForKeys keys) (height (block opts)) in
  let run := get db opts a keys s in
  run.2 = from_option row_outcome (Returned None) found
  ∧ events run.1 !! wasmDependentKey a (dbKeyForKeys keys)
      = Some ((λ r, [EvWasmState r]) <$> found)
  ∧ queries (effects run.1) = queries (effects s) ++ [TWasmStateEvent].
Proof.
  intros Hmemo found run. subst found run. run_getter. unfold row_outcome.
  destruct (dependentKeys s); simpl; rewrite Hmemo;
    (destruct (WasmStateEvent_findOne _ _ _ _) as [e|]); simpl;
    repeat case_match; simplify_eq/=; settle_effects.
Qed.

(** Reading the same key twice. *)
Lemma get_twice s a keys :
  let first := get db opts a keys s in
  let second := get db opts a keys first.1 in
  queries (effects second.1) = queries (effects first.1)
  ∧ second.2 = first.2.
Proof.
  intros first second.
  destruct (events s !! wasmDependentKey a (dbKeyForKeys keys))
    as [cached|] eqn:Hmemo.
  - destruct (get_hit s a keys cached Hmemo) as (Hres & Hev & _).
    fold first in Hres, Hev.
    assert (Hmemo' : events first.1 !! wasmDependentKey a (dbKeyForKeys keys)
                       = Some cached) by (by rewrite Hev).
    destruct (get_hit first.1 a keys cached Hmemo') as (Hres' & _ & Hq').
    fold second in Hres', Hq'. split; [done|congruence].
  - destruct (get_miss s a keys Hmemo) as (Hres & Hev & _).
    fold first in Hres, Hev.
    destruct (get_hit first.1 a keys _ Hev) as (Hres' & _ & Hq').
    fold second in Hres', Hq'. split; [done|].
    rewrite Hres', Hres. unfold memo_outcome.
    by destruct (WasmStateEvent_findOne _ _ _ _).
Qed.

(** *** Loops that only assign memo slots *)

Lemma with_events_id s : with_events (events s) s = s.
Proof. by destruct s. Qed.

Lemma for_each_events {A} (f : A → gmap string (option (list Event))
                                 → gmap string (option (list Event)))
    (body : A → M unit) (l : list A) :
  (∀ x s, body x s = (with_events (f x (events s)) s, Returned tt)) →
  ∀ s, for_each l body s
       = (with_events (foldl (λ m x, f x m) (events s) l) s, Returned tt).
Proof.
  intros Hbody. induction l as [|x l IH]; intros s; simpl.
  - unfold ret. by rewrite with_events_id.
  - unfold bind. rewrite Hbody, IH. done.
Qed.

Lemma for_each_push {A} (d : A → DependentKey) (l : list A) s :
  ∃ s', for_each l (λ x, push_dependentKey (d x)) s = (s', Returned tt)
        ∧ events s' = events s
        ∧ queries (effects s') = queries (effects s).
Proof.
  revert s. induction l as [|x l IH]; intros s; simpl.
  - by exists s.
  - unfold bind, push_dependentKey at 1.
    destruct (dependentKeys s).
    + match goal with
      | |- context [for_each l _ ?s1] =>
          destruct (IH s1) as (s' & -> & Hev & Hq)
      end.
      exists s'. split; [done|]. split; [done|].
      rewrite Hq. settle_effects.
    + destruct (IH s) as (s' & -> & Hev & Hq). by exists s'.
Qed.

Lemma foldl_memo_writes a fetched listOfKeys
    (m : gmap string (option (list Event))) :
  foldl (λ m keyPrefix,
           foldl (λ m event,
                    <[wasmDependentKey a (wse_key event) := memoEntry event]> m)
                 (<[wasmDependentKey a keyPrefix :=
                     if bool_decide
                          (filter (λ event, String.prefix keyPrefix (wse_key event))
                                  fetched = [])
                     then None
                     else Some (EvWasmState <$>
                            filter (λ event, String.prefix keyPrefix (wse_key event))
                                   fetched)]> m)
                 (filter (λ event, String.prefix keyPrefix (wse_key event)) fetched))
        (foldl (λ m key,
                  <[wasmDependentKey a key :=
                      match head (filter (λ event, wse_key event = key) fetched) with
                      | Some event => memoEntry event
                      | None => None
                      end]> m)
               m (nonMapKeys listOfKeys))
        (mapKeyPrefixes listOfKeys)
  = foldl (λ m w, <[w.1 := w.2]> m) m (prefetchWrites a fetched listOfKeys).
Proof.
  unfold prefetchWrites. rewrite foldl_app, foldl_fmap. simpl.
  assert (Hsame : ∀ l (m : gmap string (option (list Event))),
    foldl (λ m key, <[wasmDependentKey a key :=
               match head (filter (λ event, wse_key event = key) fetched) with
               | Some event => memoEntry event
               | None => None
               end]> m) m l
    = foldl (λ m key, <[wasmDependentKey a key :=
               from_option memoEntry None
                 (head (filter (λ event, wse_key event = key) fetched))]> m)
            m l).
  { intros l. induction l as [|x l IH]; intros m0; simpl; [done|].
    rewrite IH. by destruct (head _). }
  rewrite Hsame. clear Hsame.
  generalize (foldl
    (λ m key, <[wasmDependentKey a key :=
        from_option memoEntry None
          (head (filter (λ event, wse_key event = key) fetched))]> m)
    m (nonMapKeys listOfKeys)).
  generalize (mapKeyPrefixes listOfKeys) as ps. intros ps.
  induction ps as [|P ps IH]; intros m0; simpl; [done|].
  rewrite IH, foldl_app, foldl_fmap. done.
Qed.

(** Some key is asked for: the condition on the key is not empty. *)
Lemma prefetchKeyFilter_Some listOfKeys :
  listOfKeys ≠ [] ↔ is_Some (prefetchKeyFilter listOfKeys).
Proof.
  split.
  - destruct listOfKeys as [|key rest]; [done|]. intros _.
    unfold prefetchKeyFilter, nonMapKeys, mapKeyPrefixes.
    rewrite !filter_cons.
    destruct (is_string_or_number key), (map_truthy key); simpl;
      repeat case_match; simplify_eq/=; eauto.
  - intros [f Hf] ->. discriminate Hf.
Qed.

(** A [prefetch] makes one query and then assigns memo slots. *)
Lemma prefetch_run s a listOfKeys :
  listOfKeys ≠ [] →
  let fetched := prefetchRows db opts a listOfKeys in
  ∃ s3,
    events s3 = events s
    ∧ queries (effects s3) = queries (effects s) ++ [TWasmStateEvent]
    ∧ prefetch db opts a listOfKeys s
      = (with_events
           (foldl (λ m w, <[w.1 := w.2]> m) (events s)
                  (prefetchWrites a fetched listOfKeys)) s3,
         Returned tt).
Proof.
  intros [f Hf]%prefetchKeyFilter_Some fetched. unfold prefetch.
  assert (Hfetched : fetched = WasmStateEvent_findAll_filter db opts a f)
    by (subst fetched; unfold prefetchRows; by rewrite Hf).
  rewrite Hf.
  unfold bind at 1.
  destruct (for_each_push
              (λ key, {| dk_key := wasmDependentKey a key;
                         dk_prefix := endsWith key "," |})
              (prefetchDbKey <$> listOfKeys) s) as (s1 & -> & Hev1 & Hq1).
  unfold bind at 1. unfold query at 1. rewrite <- Hfetched.
  unfold bind at 1.
  set (s3 := (call_onFetch opts (EvWasmState <$> fetched)
                (emit (Queried TWasmStateEvent) s1)).1).
  assert (Hs3 : call_onFetch opts (EvWasmState <$> fetched)
                  (emit (Queried TWasmStateEvent) s1) = (s3, Returned tt)
                ∧ events s3 = events s
                ∧ queries (effects s3) = queries (effects s) ++ [TWasmStateEvent]).
  { subst s3. unfold call_onFetch, emit.
    destruct (onFetch opts); simpl; rewrite Hev1, ?queries_app, Hq1;
      settle_effects. }
  destruct Hs3 as (-> & Hev3 & Hq3).
  exists s3. split; [done|]. split; [done|].
  unfold bind at 1.
  rewrite (for_each_events
             (λ key m, <[wasmDependentKey a key :=
                 match head (filter (λ event, wse_key event = key) fetched) with
                 | Some event => memoEntry event
                 | None => None
                 end]> m)) by (intros; reflexivity).
  rewrite (for_each_events
             (λ keyPrefix m,
                foldl (λ m event,
                         <[wasmDependentKey a (wse_key event) := memoEntry event]> m)
                      (<[wasmDependentKey a keyPrefix :=
                          if bool_decide
                               (filter (λ event, String.prefix keyPrefix (wse_key event))
                                       fetched = [])
                          then None
                          else Some (EvWasmState <$>
                                 filter (λ event, String.prefix keyPrefix (wse_key event))
                                        fetched)]> m)
                      (filter (λ event, String.prefix keyPrefix (wse_key event))
                              fetched))).
  2:{ intros P s0. unfold bind, set_cache_events at 1.
      rewrite (for_each_events
                 (λ event m,
                    <[wasmDependentKey a (wse_key event) := memoEntry event]> m))
        by (intros; reflexivity).
      reflexivity. }
  unfold with_events at 1 2. simpl.
  rewrite foldl_memo_writes, Hev3. reflexivity.
Qed.

(** *** What a [prefetch] leaves in a slot *)

Lemma writes_lookup_stable (ws : list (string * option (list Event)))
    (m : gmap string (option (list Event))) d v :
  m !! d = Some v →
  (∀ w, w ∈ ws → w.1 = d → w.2 = v) →
  foldl (λ m w, <[w.1 := w.2]> m) m ws !! d = Some v.
Proof.
  revert m. induction ws as [|w ws IH]; intros m Hm Hall; simpl; [done|].
  apply IH.
  - destruct (decide (w.1 = d)) as [Hd|Hd].
    + rewrite Hd, lookup_insert_eq. f_equal. apply Hall; [left|done].
    + by rewrite lookup_insert_ne.
  - intros w' Hw'. apply Hall. by right.
Qed.

Lemma writes_lookup (ws : list (string * option (list Event)))
    (m : gmap string (option (list Event))) d v :
  (∀ w, w ∈ ws → w.1 = d → w.2 = v) →
  (∃ w, w ∈ ws ∧ w.1 = d) →
  foldl (λ m w, <[w.1 := w.2]> m) m ws !! d = Some v.
Proof.
  revert m. induction ws as [|w ws IH]; intros m Hall (w0 & Hin & Hd); simpl.
  { inversion Hin. }
  destruct (decide (w.1 = d)) as [Hw|Hw].
  - apply writes_lookup_stable.
    + rewrite Hw, lookup_insert_eq. f_equal. apply Hall; [left|done].
    + intros w' Hw'. apply Hall. by right.
  - apply IH.
    + intros w' Hw'. apply Hall. by right.
    + apply elem_of_cons in Hin as [->|Hin]; [done|eauto].
Qed.

(** The rows a keyed query returns for a key its filter admits are the
    rows a point read would settle on. *)
Lemma fetched_head a f k :
  key_filter_matches f k = true →
  head (filter (λ e, wse_key e = k) (WasmStateEvent_findAll_filter db opts a f))
    = WasmStateEvent_findOne db a k (height (block opts)).
Proof.
  intros Hk. unfold WasmStateEvent_findAll_filter, WasmStateEvent_findOne.
  rewrite distinct_on_head, list_filter_filter. f_equal.
  apply list_filter_iff. intros r. unfold blockHeightFilter. split.
  - intros (Hkey & Ha & _ & Hh). done.
  - intros (Ha & Hkey & Hh). rewrite Hkey, Hk. done.
Qed.

Lemma fetched_elem a f e :
  e ∈ WasmStateEvent_findAll_filter db opts a f →
  key_filter_matches f (wse_key e) = true
  ∧ WasmStateEvent_findOne db a (wse_key e) (height (block opts)) = Some e.
Proof.
  intros He.
  assert (Hm : key_filter_matches f (wse_key e) = true).
  { unfold WasmStateEvent_findAll_filter in He.
    apply distinct_on_sub in He as [Hin _].
    apply list_elem_of_filter in Hin as [(_ & Hm & _) _].
    by apply Is_true_true. }
  split; [done|]. rewrite <- (fetched_head a f _ Hm).
  unfold WasmStateEvent_findAll_filter in *.
  rewrite distinct_on_head. by apply distinct_on_elem.
Qed.

Lemma prefetchKeyFilter_matches listOfKeys k :
  k ∈ nonMapKeys listOfKeys
  ∨ regexp_prefix_plus (mapKeyPrefixes listOfKeys) k = true →
  ∃ f, prefetchKeyFilter listOfKeys = Some f
       ∧ key_filter_matches f k = true.
Proof.
  unfold prefetchKeyFilter.
  destruct (nonMapKeys listOfKeys) as [|k1 ks], (mapKeyPrefixes listOfKeys)
    as [|p1 ps]; simpl; intros [Hin|Hre]; try done;
    try (by inversion Hin);
    (eexists; split; [reflexivity|]); simpl;
    try (by apply bool_decide_eq_true);
    try (by rewrite (bool_decide_eq_true_2 _ Hin));
    simpl in Hre; rewrite Hre; by rewrite ?orb_true_r.
Qed.

Lemma regexp_prefix_plus_intro ps p k :
  p ∈ ps → String.prefix p k = true →
  (String.length p < String.length k)%nat →
  regexp_prefix_plus ps k = true.
Proof.
  intros Hin Hp Hlen. unfold regexp_prefix_plus.
  apply existsb_exists. exists p. split; [by apply list_elem_of_In|].
  rewrite Hp. simpl. by apply Nat.ltb_lt.
Qed.

Lemma memo_outcome_entry found :
  memo_outcome (from_option memoEntry None found)
    = from_option row_outcome (Returned None) found.
Proof.
  destruct found as [e|]; [|done]. unfold memoEntry, memo_outcome. simpl.
  unfold row_outcome. destruct (wse_delete e) eqn:Hd; simpl; [done|].
  unfold row_outcome. by rewrite Hd.
Qed.

(** The slot of a key after a [prefetch] that asked for that key, or
    that asked for a map prefix under which the key has a row. *)
Lemma prefetch_slot s a listOfKeys k :
  memo_key_unshared db a listOfKeys k →
  k ∉ mapKeyPrefixes listOfKeys →
  (k ∈ nonMapKeys listOfKeys
   ∨ ∃ p r, p ∈ mapKeyPrefixes listOfKeys ∧ String.prefix p k = true
            ∧ (String.length p < String.length k)%nat
            ∧ visible db a k (height (block opts)) r) →
  events (prefetch db opts a listOfKeys s).1 !! wasmDependentKey a k
    = Some (from_option memoEntry None
              (WasmStateEvent_findOne db a k (height (block opts)))).
Proof.
  intros Hunshared Hnotprefix Hcovered.
  assert (∃ f, prefetchKeyFilter listOfKeys = Some f
               ∧ key_filter_matches f k = true) as (f & Hf & Hmatch).
  { apply prefetchKeyFilter_matches.
    destruct Hcovered as [?|(p & r & Hp & Hpre & Hlen & _)]; [by left|right].
    by eapply regexp_prefix_plus_intro. }
  destruct (prefetch_run s a listOfKeys) as (s3 & _ & _ & ->).
  { apply prefetchKeyFilter_Some. by rewrite Hf. }
  simpl. unfold prefetchRows. rewrite Hf. simpl.
  set (fetched := WasmStateEvent_findAll_filter db opts a f).
  unfold memo_key_unshared in Hunshared.
  rewrite !Forall_app, !Forall_forall in Hunshared.
  destruct Hunshared as (Hkeys & Hprefixes & Hstored).
  apply writes_lookup.
  - intros w Hw Hd. unfold prefetchWrites in Hw.
    apply elem_of_app in Hw as [Hw|Hw].
    + apply list_elem_of_fmap in Hw as (k' & -> & Hk'). simpl in *.
      rewrite (Hkeys _ Hk' Hd). unfold fetched. by rewrite fetched_head.
    + apply elem_of_concat in Hw as (l & Hw & Hl).
      apply list_elem_of_fmap in Hl as (p & -> & Hp).
      apply elem_of_cons in Hw as [->|Hw]; simpl in *.
      * exfalso. apply Hnotprefix. by rewrite <- (Hprefixes _ Hp Hd).
      * apply list_elem_of_fmap in Hw as (e & -> & He). simpl in *.
        apply list_elem_of_filter in He as [_ He].
        pose proof (fetched_elem a f e He) as [_ Hfound].
        assert (Hk : wse_key e = k).
        { apply Hstored; [|done]. apply list_elem_of_fmap_2.
          apply findOne_visible in Hfound as [(Hin & _) _]. done. }
        rewrite <- Hk, Hfound. done.
  - destruct Hcovered as [Hk|(p & r & Hp & Hpre & Hlen & Hvis)].
    + exists (wasmDependentKey a k,
              from_option memoEntry None
                (head (filter (λ event, wse_key event = k) fetched))).
      split; [|reflexivity].
      unfold prefetchWrites. apply elem_of_app. left.
      apply list_elem_of_fmap. exists k. split; [reflexivity|done].
    + destruct (WasmStateEvent_findOne db a k (height (block opts)))
        as [e|] eqn:Hfound.
      2:{ exfalso. exact (proj1 (findOne_None db a k _) Hfound r Hvis). }
      pose proof (fetched_head a f k Hmatch) as Hhead. fold fetched in Hhead.
      rewrite Hfound in Hhead. apply head_Some_elem_of in Hhead.
      apply list_elem_of_filter in Hhead as [Hk He].
      exists (wasmDependentKey a (wse_key e), memoEntry e).
      split; [|by rewrite Hk].
      unfold prefetchWrites. apply elem_of_app. right.
      apply elem_of_concat. eexists. split; [|by apply list_elem_of_fmap_2].
      simpl. right.
      apply list_elem_of_fmap. exists e. split; [reflexivity|].
      apply list_elem_of_filter. split; [|done]. rewrite Hk, Hpre. done.
Qed.

(** Reading a key that a [prefetch] has loaded. *)
Lemma get_after_prefetch s s0 a listOfKeys keys :
  let k := dbKeyForKeys keys in
  memo_key_unshared db a listOfKeys k →
  k ∉ mapKeyPrefixes listOfKeys →
  (k ∈ nonMapKeys listOfKeys
   ∨ ∃ p r, p ∈ mapKeyPrefixes listOfKeys ∧ String.prefix p k = true
            ∧ (String.length p < String.length k)%nat
            ∧ visible db a k (height (block opts)) r) →
  events s0 !! wasmDependentKey a k = None →
  let loaded := (prefetch db opts a listOfKeys s).1 in
  let again := get db opts a keys loaded in
  queries (effects again.1) = queries (effects loaded)
  ∧ again.2 = (get db opts a keys s0).2.
Proof.
  intros k Hunshared Hnotprefix Hcovered Hfresh loaded again.
  pose proof (prefetch_slot s a listOfKeys k Hunshared Hnotprefix Hcovered)
    as Hslot.
  destruct (get_hit loaded a keys _ Hslot) as (Hres & _ & Hq).
  destruct (get_miss s0 a keys Hfresh) as (Hres0 & _ & _).
  split; [exact Hq|].
  subst again. rewrite Hres, Hres0. apply memo_outcome_entry.
Qed.
End Memo.

(** Deciding a closed proposition by evaluation. *)
Ltac by_computation := apply (bool_decide_unpack _); vm_compute; exact I.

(** [prefetch] takes a byte-array key for a map prefix: the slot of the
    key is filled from the rows that merely begin with it, and the row
    stored under the key itself is then no longer seen. *)
Example prefetch_byte_array_key :
  let k := [KBytes [Byte.x6b]] in
  let loaded := (prefetch Sample.dbS1 (Sample.at_ 25) Sample.addrA
                   [PfBytes [Byte.x6b]] Sample.freshStore).1 in
  (get Sample.dbS1 (Sample.at_ 25) Sample.addrA k Sample.freshStore).2
    = Returned (Some "2")
  ∧ (get Sample.dbS1 (Sample.at_ 25) Sample.addrA k loaded).2 = Returned None.
Proof. vm_compute. done. Qed.

(** C8, as stated, fails: after a [prefetch] of the map prefix [items], a
    [get] of the key [items/b], which lies under that prefix but has no
    row, goes to the database once more. *)
Lemma get_under_prefetched_prefix_reads :
  let loaded := (prefetch Sample.dbItems (Sample.at_ 10) Sample.addrA
                   [Sample.itemsMap] Sample.freshStore).1 in
  let again := get Sample.dbItems (Sample.at_ 10) Sample.addrA
                 [KString "items"; KString "b"] loaded in
  String.prefix (prefetchDbKey Sample.itemsMap)
                (dbKeyForKeys [KString "items"; KString "b"]) = true
  ∧ reads (effects again.1) = S (reads (effects loaded)).
Proof. vm_compute. done. Qed.

(** C8, amended. Within one evaluation, a second [get] of the same
    contract address and composed key makes no further database read and
    returns what the first returned. The same holds for a [get] that
    follows a [prefetch] which named the key as an exact key, or which
    named a map prefix under which the key has a row at or below the
    target block: it makes no read and returns what an unmemoised read
    returns. The key must not itself be among the prefixes of that
    [prefetch], and must not share its memo slot with another key. *)
Theorem memo_reuse `{Runtime} (db : Database) (opts : EnvOptions) :
  (∀ s contractAddress keys,
     let first := get db opts contractAddress keys s in
     let second := get db opts contractAddress keys first.1 in
     reads (effects second.1) = reads (effects first.1)
     ∧ second.2 = first.2)
  ∧ (∀ s s0 contractAddress listOfKeys keys,
       let key := dbKeyForKeys keys in
       memo_key_unshared db contractAddress listOfKeys key →
       key ∉ mapKeyPrefixes listOfKeys →
       (key ∈ nonMapKeys listOfKeys
        ∨ ∃ keyPrefix r,
            keyPrefix ∈ mapKeyPrefixes listOfKeys
            ∧ String.prefix keyPrefix key = true
            ∧ (String.length keyPrefix < String.length key)%nat
            ∧ visible db contractAddress key (height (block opts)) r) →
       events s0 !! wasmDependentKey contractAddress key = None →
       let loaded := (prefetch db opts contractAddress listOfKeys s).1 in
       let again := get db opts contractAddress keys loaded in
       reads (effects again.1) = reads (effects loaded)
       ∧ again.2 = (get db opts contractAddress keys s0).2).
Proof.
  split.
  - intros s a keys first second.
    destruct (get_twice db opts s a keys) as [Hq Hres].
    unfold reads. fold first second in Hq, Hres. by rewrite Hq.
  - intros s s0 a listOfKeys keys key Hunshared Hnotprefix Hcovered Hfresh
      loaded again.
    destruct (get_after_prefetch db opts s s0 a listOfKeys keys
                Hunshared Hnotprefix Hcovered Hfresh) as [Hq Hres].
    unfold reads. fold loaded again in Hq, Hres. by rewrite Hq.
Qed.

Lemma memo_reuse_witness :
  let loaded := (prefetch Sample.dbItems (Sample.at_ 10) Sample.addrA
                   [Sample.itemsMap] Sample.freshStore).1 in
  let again := get Sample.dbItems (Sample.at_ 10) Sample.addrA
                 [KString "items"; KString "a"] loaded in
  reads (effects again.1) = reads (effects loaded)
  ∧ again.2 = (get Sample.dbItems (Sample.at_ 10) Sample.addrA
                 [KString "items"; KString "a"] Sample.freshStore).2.
Proof.
  apply (proj2 (memo_reuse Sample.dbItems (Sample.at_ 10))
           Sample.freshStore Sample.freshStore Sample.addrA
           [Sample.itemsMap] [KString "items"; KString "a"]).
  - unfold memo_key_unshared. by_computation.
  - by_computation.
  - right. exists (prefetchDbKey Sample.itemsMap), Sample.itemA.
    split; [in_list|].
    split; [vm_compute; reflexivity|].
    split; [vm_compute; lia|].
    split; [left|]. split; [reflexivity|]. split; [reflexivity|].
    vm_compute. discriminate.
  - reflexivity.
Defined.

(** ** The compute endpoint *)


Section RouteFacts.
Context `{Runtime} `{!Server}.

(** *** The continuity test *)

Lemma isRangeCoveredBeforeEnd_spec (cs : list Computation) :
  isRangeCoveredBeforeEnd cs = true ↔
  ∀ i c c', cs !! i = Some c → cs !! S i = Some c' →
    cmp_latestBlockHeightValid c = height (cmp_block c') - 1.
Proof.
  unfold isRangeCoveredBeforeEnd. rewrite forallb_forall. split.
  - intros Hall i c c' Hc Hc'.
    specialize (Hall (i, c)). simpl in Hall.
    assert (Hin : In (i, c) (imap pair cs))
      by (apply list_elem_of_In, (elem_of_lookup_imap_2 pair), Hc).
    apply Hall in Hin. rewrite Hc' in Hin.
    apply lookup_lt_Some in Hc'.
    rewrite bool_decide_eq_false_2 in Hin by lia. simpl in Hin.
    by apply bool_decide_eq_true in Hin.
  - intros Hpairs [i c] Hin.
    apply list_elem_of_In, elem_of_lookup_imap_1 in Hin
      as (i' & c0 & Heq & Hc).
    injection Heq as -> ->.
    destruct (cs !! S i') as [c'|] eqn:Hc'.
    + rewrite (bool_decide_eq_true_2 _ (Hpairs _ _ _ Hc Hc')).
      apply orb_true_r.
    + apply lookup_ge_None in Hc'. apply lookup_lt_Some in Hc.
      rewrite bool_decide_eq_true_2 by lia. done.
Qed.

(** *** Steps that call nobody *)

Lemma quiet_andThen {A B} (m : Step A) (k : A → Step B) okStatus P Q :
  quiet m okStatus P →
  (∀ a, P a → quiet (k a) okStatus Q) →
  quiet (andThen m k) okStatus Q.
Proof.
  unfold quiet, andThen. destruct m as [calls [r|a]]; simpl.
  - intros [-> Hr] _. done.
  - intros [-> Ha] Hk. specialize (Hk a Ha).
    destruct (k a) as [calls' r']. simpl in *. done.
Qed.

Lemma quiet_weaken {A} (m : Step A) okStatus (P Q : A → Prop) :
  quiet m okStatus P → (∀ a, P a → Q a) → quiet m okStatus Q.
Proof.
  unfold quiet. destruct m as [calls [r|a]]; simpl; intros [? ?] HPQ; auto.
Qed.

Lemma quiet_status {A} (m : Step A) (okStatus okStatus' : Z → Prop) P :
  quiet m okStatus P → (∀ st, okStatus st → okStatus' st) →
  quiet m okStatus' P.
Proof.
  unfold quiet. destruct m as [calls [r|a]]; simpl; intros [? ?] HS; auto.
Qed.


Lemma quiet_inl {A} (m : Step A) okStatus :
  quiet m okStatus (λ _, False) →
  ∃ response, m = ([], inl response) ∧ okStatus (status response).
Proof.
  unfold quiet. destruct m as [calls [r|a]]; simpl; intros [-> Hr]; [eauto|done].
Qed.

Lemma computer_rejects stored rq okStatus :
  quiet (route stored rq) okStatus (λ _, False) →
  ∃ response, computer stored rq = ([], response) ∧ okStatus (status response).
Proof.
  intros (r & Hroute & Hr)%quiet_inl. unfold computer. rewrite Hroute. eauto.
Qed.

Lemma andThen_proceed {A B} (a : A) (k : A → Step B) :
  andThen ([], inr a) k = k a.
Proof. unfold andThen. by destruct (k a). Qed.

Lemma computer_calls stored rq :
  (computer stored rq).1 = (route stored rq).1.
Proof. unfold computer. by destruct (route stored rq) as [calls [r|v]]. Qed.

Lemma computer_status stored rq :
  status (computer stored rq).2
  = match (route stored rq).2 with inl r => status r | inr _ => 200 end.
Proof. unfold computer. by destruct (route stored rq) as [calls [r|v]]. Qed.

(** *** Validation of the query *)

Lemma truthy_string_QString s : s ≠ "" → truthy_string (QString s) = Some s.
Proof.
  intros Hs. unfold truthy_string.
  destruct (String.eqb_spec s ""); [done|reflexivity].
Qed.

Lemma truthy_string_inv q s :
  truthy_string q = Some s → q = QString s ∧ s ≠ "".
Proof.
  unfold truthy_string. destruct q as [|s'|l]; try done.
  destruct (String.eqb_spec s' ""); [done|]. by intros [= ->].
Qed.

Ltac settle_quiet :=
  unfold quiet, badRequest, reply, proceed; simpl;
  repeat case_match; simplify_eq/=; try done.

Lemma validateBlocks_quiet rq :
  quiet (validateBlocks rq) (λ st, st = 400)
    (λ r, is_Some (truthy_string (rq_blocks rq)) → is_Some r.1).
Proof.
  unfold validateBlocks. settle_quiet; intros [? ?]; done.
Qed.

Lemma validateTimes_quiet rq :
  quiet (validateTimes rq) (λ st, st = 400)
    (λ r, is_Some (truthy_string (rq_times rq)) → is_Some r.1).
Proof.
  unfold validateTimes. settle_quiet; intros [? ?]; done.
Qed.

Lemma validateBlocks_step rq :
  quiet (validateBlocks rq) (λ st, st = 400)
    (λ r, is_Some (truthy_string (rq_blocks rq)) →
          is_Some (truthy_string (rq_blockStep rq)) → is_Some r.2).
Proof.
  unfold validateBlocks. settle_quiet; intros [? ?] [? ?]; done.
Qed.

Lemma validateTimes_step rq :
  quiet (validateTimes rq) (λ st, st = 400)
    (λ r, is_Some (truthy_string (rq_times rq)) →
          is_Some (truthy_string (rq_timeStep rq)) → is_Some r.2).
Proof.
  unfold validateTimes. settle_quiet; intros [? ?] [? ?]; done.
Qed.

Lemma validateBlocks_bad_range rq b0 b1 :
  blocksRange rq b0 b1 → height b1 ≤ height b0 →
  quiet (validateBlocks rq) (λ st, st = 400) (λ _, False).
Proof.
  intros (s & a & b & rest & Hq & Hs & Hsplit & Ha & Hb & Hv0 & Hv1) Hle.
  unfold validateBlocks. rewrite Hq, (truthy_string_QString s Hs), Hsplit.
  simpl. destruct (String.eqb_spec a "") as [|_]; [done|].
  destruct (String.eqb_spec b "") as [|_]; [done|].
  rewrite Hv0, Hv1. rewrite (bool_decide_eq_true_2 _ Hle). simpl.
  by split.
Qed.

Lemma validateBlocks_bad_step rq :
  is_Some (truthy_string (rq_blocks rq)) → badStep (rq_blockStep rq) →
  quiet (validateBlocks rq) (λ st, st = 400) (λ _, False).
Proof.
  intros [s Hs] (t & Ht & Hbad). unfold validateBlocks. rewrite Hs, Ht.
  settle_quiet;
  match goal with
  | Hn : bool_decide (?z < 1) = false |- _ =>
      apply bool_decide_eq_false in Hn; specialize (Hbad z eq_refl); lia
  end.
Qed.

Lemma validateTimes_bad_range rq t0 t1 :
  timesRange rq t0 t1 → t1 ≤ t0 →
  quiet (validateTimes rq) (λ st, st = 400) (λ _, False).
Proof.
  intros (s & a & b & rest & Hq & Hs & Hsplit & Ha & Hb & Hv0 & Hv1) Hle.
  unfold validateTimes. rewrite Hq, (truthy_string_QString s Hs), Hsplit.
  simpl. destruct (String.eqb_spec a "") as [|_]; [done|].
  destruct (String.eqb_spec b "") as [|_]; [done|].
  rewrite Hv0, Hv1. simpl. rewrite (bool_decide_eq_true_2 _ Hle).
  by split.
Qed.

Lemma validateTimes_bad_step rq :
  is_Some (truthy_string (rq_times rq)) → badStep (rq_timeStep rq) →
  quiet (validateTimes rq) (λ st, st = 400) (λ _, False).
Proof.
  intros [s Hs] (t & Ht & Hbad). unfold validateTimes. rewrite Hs, Ht.
  settle_quiet;
  match goal with
  | Hn : bool_decide (?z < 1) = false |- _ =>
      apply bool_decide_eq_false in Hn; specialize (Hbad z eq_refl); lia
  end.
Qed.

(** What [validate] lets through, given what its two range validators
    let through. *)
Lemma validate_quiet rq (PB : option (Block * Block) * option Z → Prop)
    (PT : option (Z * option Z) * option Z → Prop) :
  quiet (validateBlocks rq) (λ st, st = 400) PB →
  quiet (validateTimes rq) (λ st, st = 400) PT →
  quiet (validate rq) (λ st, st = 400)
    (λ p, PB (p_blocks p, p_blockStep p) ∧ PT (p_times p, p_timeStep p)).
Proof.
  intros HB HT. unfold validate.
  destruct (String.eqb (rq_address rq) ""); [by split|].
  destruct (String.eqb (rq_formulaName rq) ""); [by split|].
  eapply (quiet_andThen _ _ _ (λ _, True)).
  { settle_quiet. }
  intros block _. eapply quiet_andThen; [exact HB|].
  intros [blocks blockStep] HPB.
  eapply (quiet_andThen _ _ _ (λ _, True)).
  { settle_quiet. }
  intros time _. eapply quiet_andThen; [exact HT|].
  intros [times timeStep] HPT. by split.
Qed.

Lemma validate_rejects rq :
  quiet (validateBlocks rq) (λ st, st = 400) (λ _, False)
  ∨ quiet (validateTimes rq) (λ st, st = 400) (λ _, False) →
  quiet (validate rq) (λ st, st = 400) (λ _, False).
Proof.
  intros [HB|HT].
  - eapply quiet_weaken;
      [exact (validate_quiet rq _ _ HB (validateTimes_quiet rq))|].
    by intros p [? _].
  - eapply quiet_weaken;
      [exact (validate_quiet rq _ _ (validateBlocks_quiet rq) HT)|].
    by intros p [_ ?].
Qed.

Lemma checkTarget_quiet rq typedFormula :
  quiet (checkTarget rq typedFormula) (λ st, st = 404 ∨ st = 405) (λ _, True).
Proof. unfold checkTarget. settle_quiet; split; auto. Qed.
End RouteFacts.

(** C7, as stated, fails: a step that comes without its own range is not
    looked at. This request gives a [blocks] range and [timeStep=0], but
    no [times]; the range is computed and answered with 200. *)
Lemma unpaired_step_is_ignored :
  computer [] {| rq_type := FtContract; rq_address := Sample.addrA;
                 rq_formulaName := "dao/config"; rq_accountKey := None;
                 rq_block := QAbsent;
                 rq_blocks := QString "10:10000..30:30000";
                 rq_blockStep := QAbsent; rq_time := QAbsent;
                 rq_times := QAbsent; rq_timeStep := QString "0";
                 rq_args := "{}" |}
  = ([FoundOneComputation;
      ComputedRange (Sample.blockAt 10) (Sample.blockAt 30)],
     {| status := 200; body := BodyValue (Some "2,3") |}).
Proof. vm_compute. reflexivity. Qed.

(** C7, amended. A request whose [blocks] range has a start height at or
    above its end height, or whose [times] range has a start at or above
    its end, or that gives [blocks] together with a [blockStep] that is
    not a positive integer, or [times] together with a [timeStep] that is
    not a positive integer, is answered with status 400, and nothing is
    evaluated, looked up or stored for it. *)
Theorem bad_range_or_step_rejected `{Runtime} `{!Server}
    (stored : list Computation) (rq : Request) :
  (∃ b0 b1, blocksRange rq b0 b1 ∧ height b1 ≤ height b0)
  ∨ (∃ t0 t1, timesRange rq t0 t1 ∧ t1 ≤ t0)
  ∨ (is_Some (truthy_string (rq_blocks rq)) ∧ badStep (rq_blockStep rq))
  ∨ (is_Some (truthy_string (rq_times rq)) ∧ badStep (rq_timeStep rq)) →
  ∃ response, computer stored rq = ([], response) ∧ status response = 400.
Proof.
  intros Hbad. apply (computer_rejects stored rq (λ st, st = 400)).
  unfold route. eapply (quiet_andThen _ _ _ (λ _, False)); [|by intros p []].
  apply validate_rejects.
  destruct Hbad as [(b0 & b1 & Hr & Hle)|[(t0 & t1 & Hr & Hle)|[[Hb Hs]|[Ht Hs]]]].
  - left. by eapply validateBlocks_bad_range.
  - right. by eapply validateTimes_bad_range.
  - left. by apply validateBlocks_bad_step.
  - right. by apply validateTimes_bad_step.
Qed.

Lemma bad_range_or_step_rejected_witness :
  ∃ response,
    computer [] {| rq_type := FtContract; rq_address := Sample.addrA;
                   rq_formulaName := "dao/config"; rq_accountKey := None;
                   rq_block := QAbsent;
                   rq_blocks := QString "30:30000..10:10000";
                   rq_blockStep := QAbsent; rq_time := QAbsent;
                   rq_times := QAbsent; rq_timeStep := QAbsent;
                   rq_args := "{}" |}
      = ([], response)
    ∧ status response = 400.
Proof.
  apply bad_range_or_step_rejected. left.
  exists (Sample.blockAt 30), (Sample.blockAt 10). split; [|simpl; lia].
  exists "30:30000..10:10000", "30:30000", "10:10000", [].
  repeat split; try discriminate; vm_compute; reflexivity.
Defined.


(** C6. A request for a formula declared dynamic that gives a [blocks]
    or a [times] range is turned away with a client error (400, or the
    404 or 405 of the checks on the target that come first), and nothing
    is evaluated, looked up or stored for it. *)
Theorem dynamic_range_rejected `{Runtime} `{!Server}
    (stored : list Computation) (rq : Request) (typedFormula : TypedFormula) :
  getTypedFormula (rq_type rq) (rq_formulaName rq) = FormulaFound typedFormula →
  f_dynamic (tf_formula typedFormula) = true →
  is_Some (truthy_string (rq_blocks rq)) ∨ is_Some (truthy_string (rq_times rq)) →
  ∃ response,
    computer stored rq = ([], response)
    ∧ (status response = 400 ∨ status response = 404 ∨ status response = 405).
Proof.
  intros Hfound Hdynamic Hrange.
  apply (computer_rejects stored rq (λ st, st = 400 ∨ st = 404 ∨ st = 405)).
  unfold route. eapply quiet_andThen.
  { eapply quiet_status;
      [exact (validate_quiet rq _ _ (validateBlocks_quiet rq)
                (validateTimes_quiet rq))|].
    intros st ->. by left. }
  intros p [Hblocks Htimes]. simpl in Hblocks, Htimes.
  rewrite Hfound. eapply (quiet_andThen _ _ _ (λ tf, tf = typedFormula)).
  { by split. }
  intros tf ->. eapply quiet_andThen.
  { eapply quiet_status; [apply checkTarget_quiet|]. intros st [->| ->]; auto. }
  intros _ _. rewrite Hdynamic. simpl.
  assert (bool_decide (is_Some (p_blocks p)) || bool_decide (is_Some (p_times p))
          = true) as ->.
  { destruct Hrange as [Hb|Ht].
    - rewrite (bool_decide_eq_true_2 _ (Hblocks Hb)). done.
    - rewrite (bool_decide_eq_true_2 _ (Htimes Ht)). apply orb_true_r. }
  split; [done|]. by left.
Qed.

Lemma dynamic_range_rejected_witness :
  ∃ response,
    computer [] {| rq_type := FtGeneric; rq_address := "_";
                   rq_formulaName := "now"; rq_accountKey := None;
                   rq_block := QAbsent;
                   rq_blocks := QString "10:10000..20:20000";
                   rq_blockStep := QAbsent; rq_time := QAbsent;
                   rq_times := QAbsent; rq_timeStep := QAbsent;
                   rq_args := "{}" |}
      = ([], response)
    ∧ (status response = 400 ∨ status response = 404 ∨ status response = 405).
Proof.
  apply (dynamic_range_rejected _ _ Sample.now).
  - vm_compute. reflexivity.
  - reflexivity.
  - left. vm_compute. eauto.
Defined.


Section RangeFacts.
Context `{Runtime} `{!Server}.

Lemma andThen_calls {A B} (m : Step A) (k : A → Step B) :
  (andThen m k).1
  = m.1 ++ match m.2 with inr a => (k a).1 | inl _ => [] end.
Proof.
  unfold andThen. destruct m as [calls [r|a]]; simpl.
  - by rewrite app_nil_r.
  - by destruct (k a).
Qed.

Lemma andThen_Forall {A B} (Q : Call → Prop) (m : Step A) (k : A → Step B) :
  Forall Q m.1 → (∀ a, Forall Q (k a).1) → Forall Q (andThen m k).1.
Proof.
  intros Hm Hk. rewrite andThen_calls. apply Forall_app. split; [done|].
  destruct m.2; [constructor|apply Hk].
Qed.

Lemma quiet_Forall {A} (Q : Call → Prop) (m : Step A) okStatus P :
  quiet m okStatus P → Forall Q m.1.
Proof. intros [-> _]. constructor. Qed.

Ltac settle_calls :=
  unfold badRequest, reply, proceed, call; simpl;
  repeat case_match; simplify_eq/=; repeat constructor.

(** The single-block branch never goes near the stored computations. *)
Lemma computeOnce_calls rq typedFormula block :
  Forall (λ c, touches_stored c = false)
         (computeOnce rq typedFormula block).1.
Proof.
  unfold computeOnce. repeat apply andThen_Forall; intros; settle_calls.
Qed.

(** Nor does the range branch when a step is set: it asks for credit if
    keys are in use and computes the range. *)
Lemma computeOverRange_stepped_calls stored rq typedFormula blockStep timeStep
    times blocks :
  is_Some blockStep ∨ is_Some timeStep →
  Forall (λ c, touches_stored c = false)
         (computeOverRange stored rq typedFormula blockStep timeStep
            times blocks).1.
Proof.
  intros Hstep. unfold computeOverRange.
  apply andThen_Forall; [settle_calls|]. intros _.
  apply andThen_Forall.
  { destruct blockStep, timeStep; try constructor.
    destruct Hstep as [[? [=]]|[? [=]]]. }
  intros existing. apply andThen_Forall; [|intros; constructor].
  destruct existing; [constructor|]. settle_calls.
Qed.

(** The calls of the range branch when a step is set and credit, if
    asked for, is granted. *)
Lemma computeOverRange_stepped stored rq typedFormula blockStep timeStep
    times blocks :
  is_Some blockStep ∨ is_Some timeStep →
  let capped :=
    if bool_decide (height state_latestBlock < height blocks.2)
    then (blocks.1, state_latestBlock) else blocks in
  (∀ accountKey, rq_accountKey rq = Some accountKey →
     useCredit accountKey
       (Some (creditsForBlockInterval
                (height capped.2 - height capped.1 + 1))) = true) →
  engineCalls (computeOverRange stored rq typedFormula blockStep timeStep
                 times blocks).1
    = [ComputedRange capped.1 capped.2].
Proof.
  intros Hstep capped Hcredit. unfold computeOverRange. fold capped.
  assert (Hexisting :
    match blockStep, timeStep with
    | None, None => reuseExisting stored rq typedFormula capped
    | _, _ => proceed None
    end = ([], inr None)).
  { destruct blockStep, timeStep; try done.
    destruct Hstep as [[? [=]]|[? [=]]]. }
  rewrite Hexisting.
  destruct (rq_accountKey rq) as [accountKey|] eqn:Hkey.
  - rewrite (Hcredit accountKey eq_refl).
    unfold andThen, call, proceed, badRequest, reply; simpl.
    by destruct (computeRange _ _ _ _ _).
  - unfold andThen, call, proceed, badRequest, reply; simpl.
    by destruct (computeRange _ _ _ _ _).
Qed.
End RangeFacts.

(** C9, as stated, fails: a [timeStep] that comes with a [blocks] range
    and no [times] is not looked at, and the stored chain is consulted
    and reused. *)
Lemma unpaired_step_reuses_stored :
  (computer [Sample.piece10; Sample.piece20]
     {| rq_type := FtContract; rq_address := Sample.addrA;
        rq_formulaName := "dao/config"; rq_accountKey := None;
        rq_block := QAbsent; rq_blocks := QString "10:10000..24:24000";
        rq_blockStep := QAbsent; rq_time := QAbsent;
        rq_times := QAbsent; rq_timeStep := QString "5";
        rq_args := "{}" |}).1
  = [FoundOneComputation; FoundAllComputations;
     UpdatedValidity Sample.piece20 24].
Proof. vm_compute. reflexivity. Qed.

Section Served.
Context `{Runtime} `{!Server}.

(** *** What validation lets through *)

Lemma validateBlocks_absent rq :
  truthy_string (rq_blocks rq) = None → validateBlocks rq = proceed (None, None).
Proof. intros Hq. unfold validateBlocks. by rewrite Hq. Qed.

Lemma validateTimes_absent rq :
  truthy_string (rq_times rq) = None → validateTimes rq = proceed (None, None).
Proof. intros Hq. unfold validateTimes. by rewrite Hq. Qed.

Lemma validateBlocks_range rq b0 b1 :
  blocksRange rq b0 b1 →
  height b0 < height b1 → timeUnixMs b0 < timeUnixMs b1 →
  (truthy_string (rq_blockStep rq) = None →
     validateBlocks rq = proceed (Some (b0, b1), None))
  ∧ (∀ n, goodStep (rq_blockStep rq) n →
       validateBlocks rq = proceed (Some (b0, b1), Some n)).
Proof.
  intros (s & a & b & rest & Hq & Hs & Hsplit & Ha & Hb & Hv0 & Hv1) Hh Ht.
  unfold validateBlocks. rewrite Hq, (truthy_string_QString s Hs), Hsplit.
  simpl. destruct (String.eqb_spec a "") as [|_]; [done|].
  destruct (String.eqb_spec b "") as [|_]; [done|].
  rewrite Hv0, Hv1.
  rewrite (bool_decide_eq_false_2 (height b1 ≤ height b0)) by lia.
  rewrite (bool_decide_eq_false_2 (timeUnixMs b1 ≤ timeUnixMs b0)) by lia.
  simpl. split.
  - by intros ->.
  - intros n (t & -> & -> & Hn). by rewrite bool_decide_eq_false_2 by lia.
Qed.

Lemma validateTimes_range rq t0 t1 n :
  timesRange rq t0 t1 → t0 < t1 → goodStep (rq_timeStep rq) n →
  validateTimes rq = proceed (Some (t0, Some t1), Some n).
Proof.
  intros (s & a & b & rest & Hq & Hs & Hsplit & Ha & Hb & Hv0 & Hv1) Hlt
    (t & Hstep & Hn & Hpos).
  unfold validateTimes. rewrite Hq, (truthy_string_QString s Hs), Hsplit.
  simpl. destruct (String.eqb_spec a "") as [|_]; [done|].
  destruct (String.eqb_spec b "") as [|_]; [done|].
  rewrite Hv0, Hv1. simpl.
  rewrite (bool_decide_eq_false_2 (t1 ≤ t0)) by lia.
  rewrite Hstep, Hn. by rewrite bool_decide_eq_false_2 by lia.
Qed.

Lemma validate_wellFormed rq blocks blockStep times timeStep :
  wellFormed rq →
  validateBlocks rq = proceed (blocks, blockStep) →
  validateTimes rq = proceed (times, timeStep) →
  ∃ block time,
    validate rq
    = proceed {| p_block := block; p_blocks := blocks; p_blockStep := blockStep;
                 p_time := time; p_times := times; p_timeStep := timeStep |}.
Proof.
  intros (Haddress & Hformula & Hblock & Htime) HB HT. unfold validate.
  destruct (String.eqb_spec (rq_address rq) "") as [|_]; [done|].
  destruct (String.eqb_spec (rq_formulaName rq) "") as [|_]; [done|].
  rewrite HB, HT.
  destruct (truthy_string (rq_block rq)) as [_block|];
    [destruct (Hblock _ eq_refl) as [b ->]|];
    (destruct (truthy_string (rq_time rq)) as [_time|];
       [destruct (Htime _ eq_refl) as (t & -> & Ht);
        rewrite (bool_decide_eq_false_2 (t < 0)) by lia|]);
    by eexists _, _.
Qed.

Lemma checkTarget_accepted rq typedFormula :
  targetAccepted rq typedFormula → checkTarget rq typedFormula = proceed tt.
Proof.
  unfold targetAccepted, checkTarget.
  destruct (tf_type typedFormula); try done.
  - intros (contract & -> & Hfilter).
    destruct (f_filter (tf_formula typedFormula)) as [[[[|k ks]|]]|]; try done.
    by rewrite bool_decide_eq_true_2 by (by eapply Hfilter).
  - by intros ->.
Qed.

(** *** The branch a served request takes *)

Lemma isTestKey_served rq typedFormula :
  servable rq typedFormula → isTestKey rq = false.
Proof.
  intros (_ & _ & _ & _ & Hkey). unfold isTestKey.
  by destruct (rq_accountKey rq).
Qed.

(** A served request with a [blocks] range and no [times]. *)
Lemma route_blocks stored rq typedFormula blocks blockStep :
  servable rq typedFormula →
  validateBlocks rq = proceed (Some blocks, blockStep) →
  validateTimes rq = proceed (None, None) →
  route stored rq
  = computeOverRange stored rq typedFormula blockStep None None blocks.
Proof.
  intros Hserved HB HT.
  pose proof (isTestKey_served _ _ Hserved) as Htest.
  destruct Hserved as (Hwf & Hfound & Htarget & Hdynamic & _).
  destruct (validate_wellFormed rq _ _ _ _ Hwf HB HT) as (block & time & Hv).
  unfold route. rewrite Hv. unfold proceed at 1. rewrite andThen_proceed.
  rewrite Hfound. unfold proceed at 1. rewrite andThen_proceed.
  rewrite (checkTarget_accepted _ _ Htarget).
  unfold proceed at 1. rewrite andThen_proceed.
  rewrite Hdynamic, Htest.
  cbn [andb p_times p_blocks p_blockStep p_timeStep fmap option_fmap option_map].
  reflexivity.
Qed.

(** A served request with a [times] range and no [blocks]. *)
Lemma route_times stored rq typedFormula t0 t1 timeStep blocks :
  servable rq typedFormula →
  validateBlocks rq = proceed (None, None) →
  validateTimes rq = proceed (Some (t0, Some t1), timeStep) →
  blocksOfTimes t0 t1 blocks.1 blocks.2 →
  ∃ times,
    route stored rq
    = computeOverRange stored rq typedFormula None timeStep (Some times) blocks.
Proof.
  intros Hserved HB HT [Hstart Hend].
  pose proof (isTestKey_served _ _ Hserved) as Htest.
  destruct Hserved as (Hwf & Hfound & Htarget & Hdynamic & _).
  destruct (validate_wellFormed rq _ _ _ _ Hwf HB HT) as (block & time & Hv).
  exists (adjustTimes (t0, Some t1)).
  assert (Hblocks : blocksForTimes (adjustTimes (t0, Some t1)) = Some blocks).
  { unfold blocksForTimes, adjustTimes, sinceNow in *. simpl.
    destruct blocks as [blockStart blockEnd]. simpl in Hstart, Hend.
    assert (Hsame : (if bool_decide (t1 ≠ 0) && bool_decide (t1 < 0)
                     then Some (t1 + currentTime) else Some t1)
                    = Some (if bool_decide (t1 < 0) then t1 + currentTime
                            else t1)).
    { repeat case_bool_decide; simpl; try done; lia. }
    rewrite Hsame. clear Hsame.
    set (end_ := if bool_decide (t1 < 0) then t1 + currentTime else t1) in *.
    assert (Hstart' :
      match Block_getForTime
              (if bool_decide (t0 < 0) then t0 + currentTime else t0) with
      | Some b => Some b
      | None => Block_getFirst
      end = Some blockStart).
    { destruct Hstart as [->|[-> ->]]; done. }
    rewrite Hstart'.
    destruct (decide (end_ = 0)) as [Hzero|Hzero].
    - rewrite (bool_decide_eq_true_2 _ Hzero) in Hend.
      rewrite (bool_decide_eq_false_2 (end_ ≠ 0)) by tauto.
      by rewrite Hend.
    - rewrite (bool_decide_eq_false_2 _ Hzero) in Hend.
      rewrite (bool_decide_eq_true_2 (end_ ≠ 0)) by done.
      by rewrite Hend. }
  unfold route. rewrite Hv. unfold proceed at 1. rewrite andThen_proceed.
  rewrite Hfound. unfold proceed at 1. rewrite andThen_proceed.
  rewrite (checkTarget_accepted _ _ Htarget).
  unfold proceed at 1. rewrite andThen_proceed.
  rewrite Hdynamic, Htest.
  cbn [andb p_times p_blocks p_blockStep p_timeStep fmap option_fmap option_map].
  rewrite Hblocks. reflexivity.
Qed.

Lemma capped_blocks (blocks : Block * Block) :
  (if bool_decide (height state_latestBlock < height blocks.2)
   then (blocks.1, state_latestBlock) else blocks)
  = (blocks.1, cappedEnd blocks.2).
Proof. unfold cappedEnd. destruct blocks. by case_bool_decide. Qed.

(** *** The stored chain *)

Lemma existingStart_None stored rq blocks :
  existingStartComputation stored rq blocks = None →
  ∀ c, c ∈ stored → sameQuery rq c → height blocks.1 < height (cmp_block c).
Proof.
  unfold existingStartComputation. rewrite newest_None.
  intros Hnil c Hin Hsame.
  destruct (decide (height (cmp_block c) ≤ height blocks.1)) as [Hle|]; [|lia].
  assert (Hc : c ∈ filter (λ c, sameQuery rq c
                                ∧ height (cmp_block c) ≤ height blocks.1) stored)
    by (by apply list_elem_of_filter).
  rewrite Hnil in Hc. inversion Hc.
Qed.

Lemma existingStart_Some stored rq blocks start :
  existingStartComputation stored rq blocks = Some start →
  chainStart stored rq blocks.1 start.
Proof.
  unfold existingStartComputation. intros [Hin Hmax]%newest_Some.
  apply list_elem_of_filter in Hin as [[Hsame Hle] Hin].
  split; [done|]. split; [done|]. split; [done|].
  intros c Hc Hq Hh. apply Hmax, list_elem_of_filter. done.
Qed.

Lemma ascending_total : Total ascending.
Proof. intros a b. unfold ascending. lia. Qed.

Lemma existingRest_chain stored rq blocks :
  chainRest stored rq blocks.1 blocks.2
    (existingRestComputations stored rq blocks).
Proof.
  unfold chainRest, existingRestComputations. split.
  - apply (@Sorted_merge_sort _ ascending _ ascending_total).
  - rewrite merge_sort_Permutation.
    by rewrite (list_filter_iff _ (withinRange rq blocks.1 blocks.2)).
Qed.

(** *** The calls of the range branch when no step is set *)

Lemma computeOverRange_reuse stored rq typedFormula times blocks :
  let capped := (blocks.1, cappedEnd blocks.2) in
  creditGranted rq capped.1 capped.2 →
  let recompute := ComputedRange capped.1 capped.2 in
  engineCalls (computeOverRange stored rq typedFormula None None times blocks).1
  = match existingStartComputation stored rq capped with
    | None => [FoundOneComputation; recompute]
    | Some start =>
        let existing := start :: existingRestComputations stored rq capped in
        let tail := default start (last existing) in
        let extend := UpdatedValidity tail (height capped.2) in
        if isRangeCoveredBeforeEnd existing then
          if updateValidityUpToBlockHeight tail (height capped.2)
          then [FoundOneComputation; FoundAllComputations; extend]
          else
            match computeRange typedFormula (rq_address rq) (rq_args rq)
                    (cmp_block tail) capped.2 with
            | Thrown _ =>
                [FoundOneComputation; FoundAllComputations; extend;
                 ComputedRange (cmp_block tail) capped.2]
            | Returned missing =>
                let created :=
                  createFromComputationOutputs (rq_address rq) typedFormula
                    (rq_args rq) (drop 1 missing) in
                let newTail := default start (last (existing ++ created)) in
                [FoundOneComputation; FoundAllComputations; extend;
                 ComputedRange (cmp_block tail) capped.2;
                 Created (drop 1 missing);
                 UpdatedValidity newTail (height capped.2)]
                ++ (if updateValidityUpToBlockHeight newTail (height capped.2)
                    then [] else [recompute])
            end
        else [FoundOneComputation; FoundAllComputations; recompute]
    end.
Proof.
  intros capped Hcredit recompute. unfold computeOverRange.
  rewrite capped_blocks. fold capped. cbv zeta. unfold reuseExisting.
  destruct (rq_accountKey rq) as [accountKey|] eqn:Hkey;
    [rewrite (Hcredit accountKey Hkey)|];
    (destruct (existingStartComputation stored rq capped) as [start|];
     [cbv zeta;
      destruct (isRangeCoveredBeforeEnd _);
        [destruct (updateValidityUpToBlockHeight _ _);
           [|destruct (computeRange _ _ _ _ _);
               [destruct (updateValidityUpToBlockHeight _ _)|]]|]|]);
    unfold andThen, call, proceed, badRequest, internalError, reply; simpl;
    repeat case_match; simplify_eq/=; done.
Qed.
End Served.

(** C9, amended. When a request gives a [blockStep] together with
    [blocks], or a [timeStep] together with [times], nothing the endpoint
    does consults, extends or adds to the stored computations; and when
    the endpoint serves such a request (it is well formed, the formula is
    known, not dynamic and applies to the target, the key is not the test
    key and is granted the credit), what it calls besides the credit is
    [computeRange], once, over the whole range the request asks for,
    capped at the latest block, whatever is stored. *)
Theorem stepped_range_recomputes `{Runtime} `{!Server}
    (stored : list Computation) (rq : Request) :
  ((is_Some (truthy_string (rq_blocks rq))
    ∧ is_Some (truthy_string (rq_blockStep rq)))
   ∨ (is_Some (truthy_string (rq_times rq))
      ∧ is_Some (truthy_string (rq_timeStep rq))) →
   Forall (λ c, touches_stored c = false) (computer stored rq).1)
  ∧ (∀ typedFormula blockStart blockEnd,
       servable rq typedFormula →
       steppedRange rq blockStart blockEnd →
       creditGranted rq blockStart (cappedEnd blockEnd) →
       engineCalls (computer stored rq).1
       = [ComputedRange blockStart (cappedEnd blockEnd)]).
Proof.
  split.
  - intros Hpaired.
    assert (Hroute : Forall (λ c, touches_stored c = false) (route stored rq).1).
    { unfold route. rewrite andThen_calls.
      pose proof (validate_quiet rq _ _ (validateBlocks_step rq)
                    (validateTimes_step rq)) as [-> Hpost].
      simpl. destruct (validate rq).2 as [r|p]; [constructor|].
      simpl in Hpost. destruct Hpost as [HblockStep HtimeStep].
      assert (Hstep : is_Some (p_blockStep p) ∨ is_Some (p_timeStep p)).
      { destruct Hpaired as [[? ?]|[? ?]]; [left|right]; auto. }
      apply andThen_Forall.
      { destruct (getTypedFormula _ _); repeat constructor. }
      intros typedFormula. apply andThen_Forall.
      { eapply quiet_Forall, checkTarget_quiet. }
      intros _. repeat case_match; try constructor;
        auto using computeOnce_calls, computeOverRange_stepped_calls. }
    unfold computer. by destruct (route stored rq) as [calls [r|v]].
  - intros typedFormula blockStart blockEnd Hserved Hrange Hcredit.
    rewrite computer_calls.
    destruct Hrange as [(Hblocks & Hh & Ht & [n Hstep] & Htimes)
                       |(Hblocks & t0 & t1 & Htimes & Hlt & [n Hstep] & Hof)].
    + rewrite (route_blocks stored rq typedFormula (blockStart, blockEnd)
                 (Some n) Hserved
                 (proj2 (validateBlocks_range rq _ _ Hblocks Hh Ht) n Hstep)
                 (validateTimes_absent rq Htimes)).
      rewrite (computeOverRange_stepped stored rq typedFormula (Some n) None
                 None (blockStart, blockEnd));
        rewrite ?capped_blocks; eauto.
    + destruct (route_times stored rq typedFormula t0 t1 (Some n)
                  (blockStart, blockEnd) Hserved
                  (validateBlocks_absent rq Hblocks)
                  (validateTimes_range rq t0 t1 n Htimes Hlt Hstep) Hof)
        as [times ->].
      rewrite (computeOverRange_stepped stored rq typedFormula None (Some n)
                 (Some times) (blockStart, blockEnd));
        rewrite ?capped_blocks; eauto.
Qed.

Lemma stepped_range_recomputes_witness :
  let rq := {| rq_type := FtContract; rq_address := Sample.addrA;
               rq_formulaName := "dao/config"; rq_accountKey := None;
               rq_block := QAbsent; rq_blocks := QString "10:10000..30:30000";
               rq_blockStep := QString "10"; rq_time := QAbsent;
               rq_times := QAbsent; rq_timeStep := QAbsent;
               rq_args := "{}" |} in
  Forall (λ c, touches_stored c = false)
    (computer [Sample.piece10; Sample.piece20] rq).1
  ∧ engineCalls (computer [Sample.piece10; Sample.piece20] rq).1
    = [ComputedRange (Sample.blockAt 10) (Sample.blockAt 30)].
Proof.
  intros rq. split.
  - apply (proj1 (stepped_range_recomputes [Sample.piece10; Sample.piece20] rq)).
    left. split; eexists; reflexivity.
  - assert (Hserved : servable rq Sample.daoConfig).
    { repeat split; try discriminate.
      exists {| c_address := Sample.addrA; c_codeId := 163 |}.
      split; [reflexivity|]. intros filter keys Hfilter. discriminate Hfilter. }
    assert (Hrange : steppedRange rq (Sample.blockAt 10) (Sample.blockAt 30)).
    { left. split.
      { exists "10:10000..30:30000", "10:10000", "30:30000", [].
        repeat split; try discriminate; vm_compute; reflexivity. }
      split; [simpl; lia|]. split; [simpl; lia|].
      split; [|reflexivity].
      exists 10, "10". repeat split; try reflexivity. lia. }
    assert (Hcredit : creditGranted rq (Sample.blockAt 10)
                        (cappedEnd (Sample.blockAt 30))).
    { intros accountKey Hkey. discriminate Hkey. }
    exact (proj2 (stepped_range_recomputes [Sample.piece10; Sample.piece20] rq)
             Sample.daoConfig (Sample.blockAt 10) (Sample.blockAt 30)
             Hserved Hrange Hcredit).
Defined.


(** C2. The endpoint serves a range request without a step (it is well
    formed, the formula is known, not dynamic and applies to the target,
    the key is not the test key and is granted the credit) through the
    reuse protocol. It looks for the most recent stored computation of
    the query at or below the start block; with none, it computes the
    whole range. Otherwise it takes that computation and, in ascending
    order, all those of the query above the start block and at or below
    the end block, capped at the latest block. This chain counts as
    continuous exactly when every piece is valid up to the block just
    before the next one: a chain that is not continuous is not used and
    the whole range is computed. On a continuous chain the endpoint asks
    the last piece to extend its validity to the end block; when that
    fails it calls [computeRange] from the last piece's block to the end
    block, drops the first result, stores the others and asks the new
    last piece, computing the whole range if that fails too. *)
Theorem range_reuse_protocol `{Runtime} `{!Server}
    (stored : list Computation) (rq : Request) (typedFormula : TypedFormula)
    (blockStart b1 : Block) :
  servable rq typedFormula →
  blocksRange rq blockStart b1 →
  height blockStart < height b1 →
  timeUnixMs blockStart < timeUnixMs b1 →
  truthy_string (rq_blockStep rq) = None →
  truthy_string (rq_times rq) = None →
  let blockEnd := cappedEnd b1 in
  creditGranted rq blockStart blockEnd →
  let calls := engineCalls (computer stored rq).1 in
  let recompute := ComputedRange blockStart blockEnd in
  ((∀ c, c ∈ stored → sameQuery rq c →
         height blockStart < height (cmp_block c))
   ∧ calls = [FoundOneComputation; recompute])
  ∨ ∃ start rest,
      chainStart stored rq blockStart start
      ∧ chainRest stored rq blockStart blockEnd rest
      ∧ let chain := start :: rest in
        let tail := default start (last chain) in
        let extend := UpdatedValidity tail (height blockEnd) in
        (¬ continuous chain
         ∧ calls = [FoundOneComputation; FoundAllComputations; recompute])
        ∨ (continuous chain
           ∧ if updateValidityUpToBlockHeight tail (height blockEnd)
             then calls = [FoundOneComputation; FoundAllComputations; extend]
             else
               match computeRange typedFormula (rq_address rq) (rq_args rq)
                       (cmp_block tail) blockEnd with
               | Thrown _ =>
                   calls = [FoundOneComputation; FoundAllComputations; extend;
                            ComputedRange (cmp_block tail) blockEnd]
               | Returned missing =>
                   let created :=
                     createFromComputationOutputs (rq_address rq) typedFormula
                       (rq_args rq) (drop 1 missing) in
                   let newTail := default start (last (chain ++ created)) in
                   calls
                   = [FoundOneComputation; FoundAllComputations; extend;
                      ComputedRange (cmp_block tail) blockEnd;
                      Created (drop 1 missing);
                      UpdatedValidity newTail (height blockEnd)]
                     ++ (if updateValidityUpToBlockHeight newTail
                              (height blockEnd)
                         then [] else [recompute])
               end).
Proof.
  intros Hserved Hblocks Hh Ht Hstep Htimes blockEnd Hcredit calls recompute.
  subst calls. rewrite computer_calls.
  rewrite (route_blocks stored rq typedFormula (blockStart, b1) None Hserved
             (proj1 (validateBlocks_range rq _ _ Hblocks Hh Ht) Hstep)
             (validateTimes_absent rq Htimes)).
  rewrite (computeOverRange_reuse stored rq typedFormula None (blockStart, b1)
             Hcredit).
  cbn [fst snd]. fold blockEnd. fold recompute.
  destruct (existingStartComputation stored rq (blockStart, blockEnd))
    as [start|] eqn:Hstart.
  - right.
    exists start, (existingRestComputations stored rq (blockStart, blockEnd)).
    split; [exact (existingStart_Some _ _ _ _ Hstart)|].
    split; [exact (existingRest_chain stored rq (blockStart, blockEnd))|].
    cbv zeta.
    destruct (isRangeCoveredBeforeEnd _) eqn:Hcovered.
    + right. split; [exact (proj1 (isRangeCoveredBeforeEnd_spec _) Hcovered)|].
      destruct (updateValidityUpToBlockHeight _ _); [done|].
      by destruct (computeRange _ _ _ _ _).
    + left. split; [|done]. intros Hcontinuous.
      apply (proj2 (isRangeCoveredBeforeEnd_spec _)) in Hcontinuous.
      congruence.
  - left. split; [|done].
    exact (existingStart_None _ _ _ Hstart).
Qed.

Lemma range_reuse_protocol_witness :
  let stored := [Sample.piece10; Sample.piece20] in
  let rq := SampleRequests.range in
  let blockStart := Sample.blockAt 10 in
  let blockEnd := Sample.blockAt 30 in
  let calls := engineCalls (computer stored rq).1 in
  let recompute := ComputedRange blockStart blockEnd in
  ((∀ c, c ∈ stored → sameQuery rq c →
         height blockStart < height (cmp_block c))
   ∧ calls = [FoundOneComputation; recompute])
  ∨ ∃ start rest,
      chainStart stored rq blockStart start
      ∧ chainRest stored rq blockStart blockEnd rest
      ∧ let chain := start :: rest in
        let tail := default start (last chain) in
        let extend := UpdatedValidity tail (height blockEnd) in
        (¬ continuous chain
         ∧ calls = [FoundOneComputation; FoundAllComputations; recompute])
        ∨ (continuous chain
           ∧ if updateValidityUpToBlockHeight tail (height blockEnd)
             then calls = [FoundOneComputation; FoundAllComputations; extend]
             else
               match computeRange Sample.daoConfig (rq_address rq) (rq_args rq)
                       (cmp_block tail) blockEnd with
               | Thrown _ =>
                   calls = [FoundOneComputation; FoundAllComputations; extend;
                            ComputedRange (cmp_block tail) blockEnd]
               | Returned missing =>
                   let created :=
                     createFromComputationOutputs (rq_address rq)
                       Sample.daoConfig (rq_args rq) (drop 1 missing) in
                   let newTail := default start (last (chain ++ created)) in
                   calls
                   = [FoundOneComputation; FoundAllComputations; extend;
                      ComputedRange (cmp_block tail) blockEnd;
                      Created (drop 1 missing);
                      UpdatedValidity newTail (height blockEnd)]
                     ++ (if updateValidityUpToBlockHeight newTail
                              (height blockEnd)
                         then [] else [recompute])
               end).
Proof.
  assert (Hserved : servable SampleRequests.range Sample.daoConfig).
  { repeat split; try discriminate.
    exists {| c_address := Sample.addrA; c_codeId := 163 |}.
    split; [reflexivity|]. intros filter keys Hfilter. discriminate Hfilter. }
  assert (Hrange : blocksRange SampleRequests.range (Sample.blockAt 10)
                     (Sample.blockAt 30)).
  { exists "10:10000..30:30000", "10:10000", "30:30000", [].
    repeat split; try discriminate; vm_compute; reflexivity. }
  assert (Hheight : height (Sample.blockAt 10) < height (Sample.blockAt 30))
    by (simpl; lia).
  assert (Htime : timeUnixMs (Sample.blockAt 10) < timeUnixMs (Sample.blockAt 30))
    by (simpl; lia).
  assert (Hcredit : creditGranted SampleRequests.range (Sample.blockAt 10)
                      (cappedEnd (Sample.blockAt 30))).
  { intros accountKey Hkey. discriminate Hkey. }
  exact (range_reuse_protocol [Sample.piece10; Sample.piece20]
           SampleRequests.range Sample.daoConfig
           (Sample.blockAt 10) (Sample.blockAt 30)
           Hserved Hrange Hheight Htime eq_refl eq_refl Hcredit).
Defined.

(** * Further properties of the environment and the endpoint *)

(** ** Least-value selection *)

Lemma least_None {A} (h : A → Z) (rows : list A) :
  least h rows = None ↔ rows = [].
Proof.
  split; [|intros ->; reflexivity].
  destruct rows as [|r rest]; [done|]. simpl.
  destruct (least h rest); [case_bool_decide|]; discriminate.
Qed.

Lemma least_Some {A} (h : A → Z) (rows : list A) (r : A) :
  least h rows = Some r →
  r ∈ rows ∧ ∀ r', r' ∈ rows → h r ≤ h r'.
Proof.
  revert r. induction rows as [|x rest IH]; intros r; simpl; [discriminate|].
  destruct (least h rest) as [b|] eqn:Hb.
  - destruct (IH b eq_refl) as [Hin Hmin].
    case_bool_decide as Hle; intros [= <-].
    + split; [left|]. intros r' [->|Hr']%elem_of_cons; [lia|].
      specialize (Hmin _ Hr'). lia.
    + split; [by right|]. intros r' [->|Hr']%elem_of_cons; [lia|auto].
  - apply least_None in Hb as ->. intros [= <-].
    split; [left|]. intros r' [->|Hr']%elem_of_cons; [lia|]. inversion Hr'.
Qed.

Lemma filter_fmap_unchanged {A} (P : A → Prop) `{!∀ x, Decision (P x)}
    (g : A → A) (l : list A) :
  (∀ c, c ∈ l → g c = c ∨ (¬ P c ∧ ¬ P (g c))) →
  filter P (g <$> l) = filter P l.
Proof.
  induction l as [|x l IH]; intros Hg; [done|].
  rewrite fmap_cons, !filter_cons, IH by (intros c Hc; apply Hg; by right).
  destruct (Hg x) as [->|[Hx Hgx]]; [left|done|].
  by rewrite !decide_False.
Qed.

(** ** Credits of an account key *)


(** The row [useCredit] settles on, when it finds one. *)
Lemma useCredit_chosen amount credits credit :
  least AccountKeys.akc_amount (filter (AccountKeys.hasEnough (default 1 amount)) credits) = Some credit →
  credit ∈ credits ∧ AccountKeys.hasEnough (default 1 amount) credit
  ∧ ∀ c, c ∈ credits → AccountKeys.hasEnough (default 1 amount) c →
         AccountKeys.akc_amount credit ≤ AccountKeys.akc_amount c.
Proof.
  intros [Hin Hmin]%least_Some.
  apply list_elem_of_filter in Hin as [Henough Hin].
  split; [done|]. split; [done|].
  intros c Hc Hok. apply Hmin, list_elem_of_filter. done.
Qed.

(** With one row per id, the update touches the chosen row only. *)
Lemma increment_one amount credit credits :
  NoDup (AccountKeys.akc_id <$> credits) → credit ∈ credits →
  ∀ c, c ∈ credits →
    (if bool_decide (AccountKeys.akc_id c = AccountKeys.akc_id credit) then AccountKeys.increment amount c else c)
    = if bool_decide (c = credit) then AccountKeys.increment amount credit else c.
Proof.
  intros Hnd Hcredit c Hc.
  destruct (decide (c = credit)) as [->|Hne].
  - by rewrite !bool_decide_eq_true_2.
  - rewrite (bool_decide_eq_false_2 (c = credit)) by done.
    rewrite bool_decide_eq_false_2; [done|].
    intros Hid. apply Hne.
    by apply (NoDup_fmap_inj_on AccountKeys.akc_id credits Hnd).
Qed.

Lemma total_after_increment (f : AccountKeys.AccountKeyCredit → Z) amount credit credits d :
  NoDup credits → credit ∈ credits →
  f (AccountKeys.increment amount credit) = f credit + d →
  foldr Z.add 0
    (f <$> ((λ c, if bool_decide (c = credit) then AccountKeys.increment amount credit else c)
              <$> credits))
  = foldr Z.add 0 (f <$> credits) + d.
Proof.
  intros Hnd Hin Hf. induction credits as [|x credits IH]; [inversion Hin|].
  apply NoDup_cons in Hnd as [Hx Hnd]. rewrite !fmap_cons. cbn [foldr].
  destruct (decide (x = credit)) as [->|Hne].
  - rewrite bool_decide_eq_true_2 by done. rewrite Hf.
    assert (Hsame : (λ c, if bool_decide (c = credit)
                          then AccountKeys.increment amount credit else c) <$> credits
                    = credits).
    { clear IH Hin Hnd. induction credits as [|y credits IH]; [done|].
      rewrite fmap_cons, bool_decide_eq_false_2.
      - f_equal. apply IH. intros Hin. apply Hx. by right.
      - intros ->. apply Hx. left. }
    rewrite Hsame. lia.
  - rewrite bool_decide_eq_false_2 by done.
    apply elem_of_cons in Hin as [->|Hin]; [done|].
    rewrite IH by done. lia.
Qed.

(** X1. [useCredit] answers false exactly when no credit row of the key
    is unlimited or has the amount left, and it then leaves every row as
    it was. *)
Theorem useCredit_refused (amount : option Z)
    (credits : list AccountKeys.AccountKeyCredit) :
  let run := AccountKeys.useCredit amount credits in
  (run.2 = false ↔
     ∀ c, c ∈ credits → ¬ AccountKeys.hasEnough (default 1 amount) c)
  ∧ (run.2 = false → run.1 = credits).
Proof.
  unfold AccountKeys.useCredit.
  destruct (least _ _) as [credit|] eqn:Hleast; simpl.
  - split; [|done]. split; [done|]. intros Hnone. exfalso.
    apply useCredit_chosen in Hleast as (Hin & Henough & _).
    by apply (Hnone credit).
  - split; [|done]. split; [|done]. intros _ c Hc Henough.
    apply least_None in Hleast.
    assert (Hin : c ∈ filter (AccountKeys.hasEnough (default 1 amount)) credits)
      by (by apply list_elem_of_filter).
    rewrite Hleast in Hin. inversion Hin.
Qed.

(** X2. With one row per id, a [useCredit] that finds credit adds the
    amount to the used total of the key and one to its hits, and no
    finite credit is taken beyond its amount: rows that were within
    their amounts still are. *)
Theorem useCredit_charges_once (amount : option Z)
    (credits : list AccountKeys.AccountKeyCredit) :
  NoDup (AccountKeys.akc_id <$> credits) →
  let run := AccountKeys.useCredit amount credits in
  (run.2 = true →
     totalUsed run.1 = totalUsed credits + default 1 amount
     ∧ totalHits run.1 = totalHits credits + 1
     ∧ AccountKeys.akc_amount <$> run.1 = AccountKeys.akc_amount <$> credits)
  ∧ (solvent credits → solvent run.1).
Proof.
  intros Hids. unfold AccountKeys.useCredit.
  assert (Hnd : NoDup credits) by (by eapply NoDup_fmap_1).
  destruct (least _ _) as [credit|] eqn:Hleast; simpl; [|done].
  apply useCredit_chosen in Hleast as (Hin & Henough & _).
  assert (Hupdate :
    (λ c, if bool_decide (AccountKeys.akc_id c = AccountKeys.akc_id credit)
          then AccountKeys.increment (default 1 amount) c else c) <$> credits
    = (λ c, if bool_decide (c = credit)
            then AccountKeys.increment (default 1 amount) credit else c)
        <$> credits).
  { apply list_fmap_ext. intros i c Hc.
    apply (increment_one _ credit credits Hids Hin).
    by eapply list_elem_of_lookup_2. }
  rewrite Hupdate. split.
  - intros _. unfold totalUsed, totalHits.
    rewrite (total_after_increment AccountKeys.akc_used _ _ _ (default 1 amount))
      by done.
    rewrite (total_after_increment AccountKeys.akc_hits _ _ _ 1) by done.
    split; [done|]. split; [done|].
    rewrite <- list_fmap_compose. apply list_fmap_ext. intros i c _. simpl.
    by case_bool_decide; subst.
  - intros Hsolvent c' Hc' Hfinite.
    apply list_elem_of_fmap in Hc' as (c & -> & Hc).
    case_bool_decide as Heq; [|by apply Hsolvent].
    subst c. simpl in *. destruct Henough as [?|?]; [done|lia].
Qed.

Lemma useCredit_charges_once_witness :
  totalUsed (AccountKeys.useCredit None [SampleCredits.small]).1 = 100
  ∧ solvent (AccountKeys.useCredit None [SampleCredits.small]).1.
Proof.
  assert (Hids : NoDup (AccountKeys.akc_id <$> [SampleCredits.small]))
    by (apply (bool_decide_unpack _); vm_compute; exact I).
  destruct (useCredit_charges_once None [SampleCredits.small] Hids)
    as [Hcharged Hsolvent].
  split.
  - destruct Hcharged as (Hused & _); [reflexivity|]. exact Hused.
  - apply Hsolvent. intros c Hc _.
    apply elem_of_cons in Hc as [->|Hc]; [simpl; lia|inversion Hc].
Defined.

(** X3. An unlimited credit row is used before any finite one: "lowest
    amount first" puts the amount [-1] ahead.  With one row per id and no
    amount below [-1], a key that has an unlimited row always finds
    credit, and its finite rows are left as they were. *)
Theorem useCredit_unlimited_first (amount : option Z)
    (credits : list AccountKeys.AccountKeyCredit) :
  NoDup (AccountKeys.akc_id <$> credits) →
  (∃ c, c ∈ credits ∧ AccountKeys.akc_amount c = -1) →
  (∀ c, c ∈ credits → -1 ≤ AccountKeys.akc_amount c) →
  let run := AccountKeys.useCredit amount credits in
  run.2 = true
  ∧ filter (λ c, AccountKeys.akc_amount c ≠ -1) run.1
    = filter (λ c, AccountKeys.akc_amount c ≠ -1) credits.
Proof.
  intros Hids (u & Hu & Hunlimited) Hamounts. unfold AccountKeys.useCredit.
  destruct (least _ _) as [credit|] eqn:Hleast; simpl.
  - split; [done|].
    apply useCredit_chosen in Hleast as (Hin & Henough & Hmin).
    assert (Hcredit : AccountKeys.akc_amount credit = -1).
    { pose proof (Hmin u Hu (or_introl Hunlimited)).
      pose proof (Hamounts credit Hin). lia. }
    apply filter_fmap_unchanged. intros c Hc.
    rewrite (increment_one _ credit credits Hids Hin c Hc).
    case_bool_decide as Heq; [|by left].
    subst c. right. simpl. split; intros Hfinite; by apply Hfinite.
  - exfalso. apply least_None in Hleast.
    assert (Hin : u ∈ filter (AccountKeys.hasEnough (default 1 amount)) credits)
      by (apply list_elem_of_filter; split; [by left|done]).
    rewrite Hleast in Hin. inversion Hin.
Qed.

Lemma useCredit_unlimited_first_witness :
  (AccountKeys.useCredit (Some 50) [SampleCredits.small; SampleCredits.unlimited]).2
    = true
  ∧ filter (λ c, AccountKeys.akc_amount c ≠ -1)
      (AccountKeys.useCredit (Some 50)
         [SampleCredits.small; SampleCredits.unlimited]).1
    = [SampleCredits.small].
Proof.
  apply (useCredit_unlimited_first (Some 50)
           [SampleCredits.small; SampleCredits.unlimited]).
  - apply (bool_decide_unpack _). vm_compute. exact I.
  - exists SampleCredits.unlimited. split; [in_list|reflexivity].
  - intros c Hc.
    repeat (apply elem_of_cons in Hc as [->|Hc]); simpl; try lia. inversion Hc.
Defined.

(** ** The test key *)

Section TestKey.
Context `{Runtime}.

(** The map after a request from [ip] at time [now], by whether the
    request was let through. *)
Lemma testKeyGate_map origin ip now (m : gmap string Z) :
  let purged := filter (λ entry, ¬ expired now entry) m in
  let run := testKeyGate origin ip now m in
  match run.2 with
  | Some response => status response = 429 ∧ run.1.1 = purged
                     ∧ ∃ lastUsed, purged !! ip = Some lastUsed ∧ lastUsed ≠ 0
  | None => run.1.1 = <[ip := now]> purged
            ∧ (purged !! ip = None ∨ purged !! ip = Some 0)
  end.
Proof.
  intros purged run. subst run. unfold testKeyGate. fold purged.
  destruct (purged !! ip) as [lastUsed|] eqn:Hip; simpl; [|auto].
  case_bool_decide as Hzero; simpl.
  - case_bool_decide as Hwait; simpl; [eauto 10|].
    exfalso. apply map_lookup_filter_Some in Hip as [_ Hfresh].
    unfold expired in Hfresh. simpl in Hfresh. lia.
  - split; [done|]. right. f_equal.
    destruct (decide (lastUsed = 0)); [done|]. exfalso. tauto.
Qed.
End TestKey.

(** X4. Whatever the rate-limit map held, after a request with the test
    key at time [now] every entry left in it is younger than the
    cooldown, and the entry of another address is one the map already
    held. *)
Theorem testKeyGate_keeps_fresh `{Runtime} (origin : QueryValue) (ip : string)
    (now : Z) (testRateLimit : gmap string Z) (ip' : string) (lastUsed : Z) :
  (testKeyGate origin ip now testRateLimit).1.1 !! ip' = Some lastUsed →
  now - lastUsed < testCooldownSeconds * 1000
  ∧ (ip' ≠ ip → testRateLimit !! ip' = Some lastUsed).
Proof.
  pose proof (testKeyGate_map origin ip now testRateLimit) as Hmap.
  simpl in Hmap.
  assert (Hpurged : ∀ t, filter (λ entry, ¬ expired now entry) testRateLimit
                           !! ip' = Some t →
            now - t < testCooldownSeconds * 1000 ∧ testRateLimit !! ip' = Some t).
  { intros t [Ht Hfresh]%map_lookup_filter_Some.
    unfold expired in Hfresh. simpl in Hfresh. split; [lia|done]. }
  destruct (testKeyGate origin ip now testRateLimit).2 as [response|].
  - destruct Hmap as (_ & -> & _). intros Hl.
    destruct (Hpurged _ Hl). done.
  - destruct Hmap as [-> _].
    destruct (decide (ip' = ip)) as [->|Hne].
    + rewrite lookup_insert_eq. intros [= <-].
      unfold testCooldownSeconds. split; [lia|done].
    + rewrite lookup_insert_ne by done. intros Hl.
      destruct (Hpurged _ Hl). done.
Qed.

Lemma testKeyGate_keeps_fresh_witness :
  1000 - 500 < testCooldownSeconds * 1000
  ∧ ("10.0.0.1" ≠ "10.0.0.2" →
     ({[ "10.0.0.1" := 500; "10.0.0.3" := -20000 ]} : gmap string Z)
       !! "10.0.0.1" = Some 500).
Proof.
  apply (testKeyGate_keeps_fresh QAbsent "10.0.0.2" 1000
           {[ "10.0.0.1" := 500; "10.0.0.3" := -20000 ]} "10.0.0.1" 500).
  vm_compute. reflexivity.
Defined.

(** X5. After a request with the test key that was let through at time
    [now] (not the epoch itself), the next request from the same address
    is refused with 429 exactly when it comes less than the cooldown
    after [now]; a refused request leaves the entry at [now], so it does
    not prolong the wait. *)
Theorem testKeyGate_cooldown `{Runtime} (origin origin' : QueryValue)
    (ip : string) (now now' : Z) (testRateLimit : gmap string Z) :
  now ≠ 0 →
  let first := testKeyGate origin ip now testRateLimit in
  first.2 = None →
  let second := testKeyGate origin' ip now' first.1.1 in
  (is_Some second.2 ↔ now' - now < testCooldownSeconds * 1000)
  ∧ (∀ response, second.2 = Some response →
       status response = 429 ∧ second.1.1 !! ip = Some now).
Proof.
  intros Hnow first Haccepted second.
  pose proof (testKeyGate_map origin ip now testRateLimit) as Hfirst.
  simpl in Hfirst. fold first in Hfirst. rewrite Haccepted in Hfirst.
  destruct Hfirst as [Hmap _].
  pose proof (testKeyGate_map origin' ip now' first.1.1) as Hsecond.
  simpl in Hsecond. fold second in Hsecond. rewrite Hmap in Hsecond.
  assert (Hentry : ∀ t,
            filter (λ entry, ¬ expired now' entry)
              (<[ip := now]> (filter (λ entry, ¬ expired now entry) testRateLimit))
              !! ip = Some t ↔ t = now ∧ now' - now < testCooldownSeconds * 1000).
  { intros t. rewrite map_lookup_filter_Some, lookup_insert_eq.
    unfold expired. simpl. split.
    - intros [[= <-] ?]. split; [done|lia].
    - intros [-> ?]. split; [done|lia]. }
  destruct second.2 as [response|].
  - destruct Hsecond as (Hstatus & Hleft & lastUsed & Hl & _).
    apply Hentry in Hl as [-> Hwait].
    split; [split; [done|eauto]|].
    intros ? [= <-]. split; [done|]. rewrite Hleft. apply Hentry. done.
  - destruct Hsecond as [_ Hl]. split; [|done].
    split; [intros [? [=]]|]. intros Hwait. exfalso.
    pose proof (proj2 (Hentry now) (conj eq_refl Hwait)) as Hthere.
    rewrite Hthere in Hl. destruct Hl as [[=]|[=]]. done.
Qed.

Lemma testKeyGate_cooldown_witness :
  let first := testKeyGate QAbsent "10.0.0.2" 1000 ∅ in
  let second := testKeyGate QAbsent "10.0.0.2" 5000
                  first.1.1 in
  (is_Some second.2 ↔ 5000 - 1000 < testCooldownSeconds * 1000)
  ∧ (∀ response, second.2 = Some response →
       status response = 429 ∧ second.1.1 !! "10.0.0.2" = Some 1000).
Proof.
  apply (testKeyGate_cooldown QAbsent QAbsent "10.0.0.2"
           1000 5000 ∅); [lia|reflexivity].
Defined.

(** ** Paths *)

Lemma split_on_nonempty sep current s : split_on sep current s ≠ [].
Proof.
  revert current. induction s as [|c rest IH]; intros current; simpl; [done|].
  destruct (Ascii.eqb c sep); [done|apply IH].
Qed.

Lemma string_app_empty_l (a : string) : "" +:+ a = a.
Proof. reflexivity. Qed.

Lemma string_app_cons (x : ascii) (a b : string) :
  String x a +:+ b = String x (a +:+ b).
Proof. reflexivity. Qed.

Lemma string_app_snoc (a : string) (c : ascii) (b : string) :
  (a +:+ String c "") +:+ b = a +:+ String c b.
Proof.
  induction a as [|x a IH]; [done|]. by rewrite !string_app_cons, IH.
Qed.

Lemma string_app_empty_r (a : string) : a +:+ "" = a.
Proof. induction a as [|x a IH]; [done|]. by rewrite string_app_cons, IH. Qed.

(** A text without separator is one segment. *)
Lemma split_on_free sep current s :
  sep_free sep s = true → split_on sep current s = [current +:+ s].
Proof.
  revert current. induction s as [|c rest IH]; intros current; simpl.
  - by rewrite string_app_empty_r.
  - destruct (Ascii.eqb c sep); simpl; [done|]. intros Hfree.
    by rewrite IH, string_app_snoc.
Qed.

(** ... and the split goes on after the separator that follows it. *)
Lemma split_on_segment sep current s rest :
  sep_free sep s = true →
  split_on sep current (s +:+ String sep rest)
  = (current +:+ s) :: split_on sep "" rest.
Proof.
  revert current. induction s as [|c s IH]; intros current.
  - intros _. change ("" +:+ String sep rest) with (String sep rest).
    simpl. rewrite Ascii.eqb_refl. by rewrite string_app_empty_r.
  - rewrite string_app_cons. simpl.
    destruct (Ascii.eqb c sep); simpl; [done|]. intros Hfree.
    by rewrite IH, string_app_snoc.
Qed.

(** Joining what a split gives returns the text. *)
Lemma concat_split_on sep current s :
  String.concat (String sep "") (split_on sep current s) = current +:+ s.
Proof.
  revert current. induction s as [|c rest IH]; intros current; simpl.
  - by rewrite string_app_empty_r.
  - destruct (Ascii.eqb_spec c sep) as [->|Hne].
    + pose proof (split_on_nonempty sep "" rest) as Hne.
      specialize (IH "").
      destruct (split_on sep "" rest) as [|x l]; [done|].
      change (String.concat (String sep "") (current :: x :: l))
        with (current +:+ String sep "" +:+ String.concat (String sep "") (x :: l)).
      rewrite IH. change ("" +:+ rest) with rest.
      by rewrite string_app_cons.
    + by rewrite IH, string_app_snoc.
Qed.

Lemma split_on_length sep current s :
  length (split_on sep current s) = S (count_sep sep s).
Proof.
  revert current. induction s as [|c rest IH]; intros current; simpl; [done|].
  destruct (Ascii.eqb c sep); simpl; by rewrite IH.
Qed.

(** X6. A path [/type/address/formula...] whose first segment is a
    formula type (and not the chain id) is read with the key taken from
    the [x-api-key] header, the second segment as the address, and all
    the rest of the path, slashes included, as the formula name. *)
Theorem routePath_type_first `{Runtime} `{!Server}
    (typeIsFormulaTypeOrWallet : string → bool)
    (formulaTypeOf : string → FormulaType) (FormulaTypeValues : list string)
    (xApiKey : QueryValue) (type address formulaName : string) :
  sep_free "/" type = true →
  sep_free "/" address = true →
  type ≠ state_chainId →
  typeIsFormulaTypeOrWallet type = true →
  routePath typeIsFormulaTypeOrWallet formulaTypeOf FormulaTypeValues xApiKey
    ("/" +:+ type +:+ "/" +:+ address +:+ "/" +:+ formulaName)
  = inr {| tg_key := headerKey xApiKey;
           tg_type := typeOfSegment formulaTypeOf type;
           tg_address := address;
           tg_formulaName := formulaName |}.
Proof.
  intros Htype Haddress Hchain Hknown. unfold routePath.
  change ("/" +:+ type +:+ "/" +:+ address +:+ "/" +:+ formulaName)
    with (String "/" (type +:+ String "/" (address +:+ String "/" formulaName))).
  cbn [split_on]. rewrite Ascii.eqb_refl.
  rewrite (split_on_segment _ _ _ _ Htype), (split_on_segment _ _ _ _ Haddress).
  cbn [drop]. rewrite !string_app_empty_l.
  destruct (String.eqb_spec type state_chainId) as [|_]; [done|].
  pose proof (split_on_nonempty "/" "" formulaName) as Hne.
  pose proof (concat_split_on "/" "" formulaName) as Hjoin.
  destruct (split_on "/" "" formulaName) as [|p2 rest]; [done|].
  rewrite Hknown. unfold headerKey. by rewrite Hjoin.
Qed.

Lemma routePath_type_first_witness :
  routePath SamplePaths.typeIsFormulaTypeOrWallet SamplePaths.formulaTypeOf
    SamplePaths.FormulaTypeValues (QString "secret")
    ("/" +:+ "contract" +:+ "/" +:+ "juno1contract" +:+ "/" +:+ "dao/config")
  = inr {| tg_key := Some "secret"; tg_type := FtContract;
           tg_address := "juno1contract"; tg_formulaName := "dao/config" |}.
Proof.
  apply (routePath_type_first SamplePaths.typeIsFormulaTypeOrWallet
           SamplePaths.formulaTypeOf SamplePaths.FormulaTypeValues
           (QString "secret") "contract" "juno1contract" "dao/config");
    try reflexivity.
  vm_compute. discriminate.
Defined.

(** X7. A path [/key/type/address/formula...] whose first segment is not
    a formula type (nor the chain id) and whose second is one is read
    with the first segment as the key, whatever the [x-api-key] header
    holds. *)
Theorem routePath_key_first `{Runtime} `{!Server}
    (typeIsFormulaTypeOrWallet : string → bool)
    (formulaTypeOf : string → FormulaType) (FormulaTypeValues : list string)
    (xApiKey : QueryValue) (key type address formulaName : string) :
  sep_free "/" key = true →
  sep_free "/" type = true →
  sep_free "/" address = true →
  key ≠ state_chainId →
  typeIsFormulaTypeOrWallet key = false →
  typeIsFormulaTypeOrWallet type = true →
  routePath typeIsFormulaTypeOrWallet formulaTypeOf FormulaTypeValues xApiKey
    ("/" +:+ key +:+ "/" +:+ type +:+ "/" +:+ address +:+ "/" +:+ formulaName)
  = inr {| tg_key := Some key;
           tg_type := typeOfSegment formulaTypeOf type;
           tg_address := address;
           tg_formulaName := formulaName |}.
Proof.
  intros Hkey Htype Haddress Hchain Hnotype Hknown. unfold routePath.
  change ("/" +:+ key +:+ "/" +:+ type +:+ "/" +:+ address +:+ "/" +:+ formulaName)
    with (String "/" (key +:+ String "/" (type +:+ String "/"
            (address +:+ String "/" formulaName)))).
  cbn [split_on]. rewrite Ascii.eqb_refl.
  rewrite (split_on_segment _ _ _ _ Hkey), (split_on_segment _ _ _ _ Htype),
    (split_on_segment _ _ _ _ Haddress).
  cbn [drop]. rewrite !string_app_empty_l.
  destruct (String.eqb_spec key state_chainId) as [|_]; [done|].
  rewrite Hnotype, Hknown. by rewrite concat_split_on.
Qed.

Lemma routePath_key_first_witness :
  routePath SamplePaths.typeIsFormulaTypeOrWallet SamplePaths.formulaTypeOf
    SamplePaths.FormulaTypeValues (QString "other")
    ("/" +:+ "secret" +:+ "/" +:+ "wallet" +:+ "/" +:+ "juno1wallet" +:+ "/"
       +:+ "tokens/list")
  = inr {| tg_key := Some "secret"; tg_type := FtAccount;
           tg_address := "juno1wallet"; tg_formulaName := "tokens/list" |}.
Proof.
  apply (routePath_key_first SamplePaths.typeIsFormulaTypeOrWallet
           SamplePaths.formulaTypeOf SamplePaths.FormulaTypeValues
           (QString "other") "secret" "wallet" "juno1wallet" "tokens/list");
    try reflexivity.
  vm_compute. discriminate.
Defined.

(** X8. A leading chain-id segment is dropped: the path is read as the
    path behind it, as long as that one does not begin with the chain id
    again. *)
Theorem routePath_chain_prefix `{Runtime} `{!Server}
    (typeIsFormulaTypeOrWallet : string → bool)
    (formulaTypeOf : string → FormulaType) (FormulaTypeValues : list string)
    (xApiKey : QueryValue) (path : string) :
  sep_free "/" state_chainId = true →
  head (split_on "/" "" path) ≠ Some state_chainId →
  routePath typeIsFormulaTypeOrWallet formulaTypeOf FormulaTypeValues xApiKey
    ("/" +:+ state_chainId +:+ "/" +:+ path)
  = routePath typeIsFormulaTypeOrWallet formulaTypeOf FormulaTypeValues xApiKey
      ("/" +:+ path).
Proof.
  intros Hchain Hfirst. unfold routePath.
  change ("/" +:+ state_chainId +:+ "/" +:+ path)
    with (String "/" (state_chainId +:+ String "/" path)).
  change ("/" +:+ path) with (String "/" path).
  cbn [split_on]. rewrite Ascii.eqb_refl.
  rewrite (split_on_segment _ _ _ _ Hchain).
  cbn [drop]. rewrite !string_app_empty_l. rewrite String.eqb_refl.
  destruct (split_on "/" "" path) as [|first rest]; [done|]. cbn [drop].
  destruct (String.eqb_spec first state_chainId) as [->|_]; [|done].
  exfalso. by apply Hfirst.
Qed.

Lemma routePath_chain_prefix_witness :
  routePath SamplePaths.typeIsFormulaTypeOrWallet SamplePaths.formulaTypeOf
    SamplePaths.FormulaTypeValues QAbsent
    ("/" +:+ state_chainId +:+ "/" +:+ "contract/juno1contract/dao/config")
  = routePath SamplePaths.typeIsFormulaTypeOrWallet SamplePaths.formulaTypeOf
      SamplePaths.FormulaTypeValues QAbsent
      ("/" +:+ "contract/juno1contract/dao/config").
Proof.
  apply (routePath_chain_prefix SamplePaths.typeIsFormulaTypeOrWallet
           SamplePaths.formulaTypeOf SamplePaths.FormulaTypeValues QAbsent
           "contract/juno1contract/dao/config").
  - reflexivity.
  - vm_compute. discriminate.
Defined.

(** X9. A path with fewer than three slashes cannot name a type, an
    address and a formula: it is answered with 400. *)
Theorem routePath_too_short `{Runtime} `{!Server}
    (typeIsFormulaTypeOrWallet : string → bool)
    (formulaTypeOf : string → FormulaType) (FormulaTypeValues : list string)
    (xApiKey : QueryValue) (path : string) :
  (count_sep "/" path < 3)%nat →
  routePath typeIsFormulaTypeOrWallet formulaTypeOf FormulaTypeValues xApiKey path
  = inl {| status := 400; body := BodyText "missing required parameters" |}.
Proof.
  intros Hshort. unfold routePath.
  pose proof (split_on_length "/" "" path) as Hlen.
  destruct (split_on "/" "" path) as [|p [|p0 [|p1 [|p2 rest]]]];
    simpl in Hlen; try lia; cbn [drop]; try done;
    repeat (case_match; simplify_eq/=; try done).
Qed.

Lemma routePath_too_short_witness :
  routePath SamplePaths.typeIsFormulaTypeOrWallet SamplePaths.formulaTypeOf
    SamplePaths.FormulaTypeValues QAbsent "/contract/juno1contract"
  = inl {| status := 400; body := BodyText "missing required parameters" |}.
Proof.
  apply (routePath_too_short SamplePaths.typeIsFormulaTypeOrWallet
           SamplePaths.formulaTypeOf SamplePaths.FormulaTypeValues QAbsent
           "/contract/juno1contract").
  vm_compute. lia.
Defined.

(** ** Dates of a key *)

Section Dates.
Context `{Runtime} (db : Database) (opts : EnvOptions).
Context {Date : Type} (dateOfUnixMs : Z → Date).

(** [getDateKeyModified] on a memoised key: no query, and the date of the
    memoised row. *)
Lemma getDateKeyModified_hit s a keys cached :
  events s !! wasmDependentKey a (dbKeyForKeys keys) = Some cached →
  let run := getDateKeyModified db opts dateOfUnixMs a keys s in
  run.2 = match head (default [] cached) with
          | Some (EvWasmState r) =>
              Returned (Some (dateOfUnixMs (wse_blockTimeUnixMs r)))
          | Some _ => Thrown "Incorrect event type."
          | None => Returned None
          end
  ∧ queries (effects run.1) = queries (effects s).
Proof.
  intros Hmemo run. subst run. unfold getDateKeyModified. run_getter.
  destruct (dependentKeys s); simpl; rewrite Hmemo;
    repeat case_match; simplify_eq/=; settle_effects.
Qed.

(** ... and on a key not tried yet: one query, for the most recent
    row. *)
Lemma getDateKeyModified_miss s a keys :
  events s !! wasmDependentKey a (dbKeyForKeys keys) = None →
  let run := getDateKeyModified db opts dateOfUnixMs a keys s in
  run.2 = Returned ((λ r, dateOfUnixMs (wse_blockTimeUnixMs r))
            <$> WasmStateEvent_findOne db a (dbKeyForKeys keys)
                  (height (block opts)))
  ∧ queries (effects run.1) = queries (effects s) ++ [TWasmStateEvent].
Proof.
  intros Hmemo run. subst run. unfold getDateKeyModified. run_getter.
  destruct (dependentKeys s); simpl; rewrite Hmemo;
    (destruct (WasmStateEvent_findOne _ _ _ _) as [e|]); simpl;
    repeat case_match; simplify_eq/=; settle_effects.
Qed.

Lemma findFirstSet_Some a k where_ r :
  WasmStateEvent_findFirstSet db opts a k where_ = Some r →
  visible db a k (height (block opts)) r ∧ wse_delete r = false
  ∧ default (λ _, true) where_ r = true
  ∧ ∀ r', visible db a k (height (block opts)) r' → wse_delete r' = false →
          default (λ _, true) where_ r' = true →
          wse_blockHeight r ≤ wse_blockHeight r'.
Proof.
  unfold WasmStateEvent_findFirstSet. intros [Hin Hmin]%least_Some.
  apply list_elem_of_filter in Hin as [(Ha & Hk & Hd & Hw & Hh) Hin].
  split; [done|]. split; [done|]. split; [by apply Is_true_true|].
  intros r' (Hin' & Ha' & Hk' & Hh') Hd' Hw'.
  apply Hmin, list_elem_of_filter. split; [|done].
  split; [done|]. split; [done|]. split; [done|].
  split; [by apply Is_true_true|done].
Qed.

Lemma findFirstSet_None a k where_ :
  WasmStateEvent_findFirstSet db opts a k where_ = None →
  ∀ r, visible db a k (height (block opts)) r →
       default (λ _, true) where_ r = true → wse_delete r = true.
Proof.
  unfold WasmStateEvent_findFirstSet. intros Hnil%least_None.
  intros r (Hin & Ha & Hk & Hh) Hw.
  destruct (wse_delete r) eqn:Hd; [done|]. exfalso.
  assert (Hr : r ∈ filter (λ r, wse_contractAddress r = a ∧ wse_key r = k
                             ∧ wse_delete r = false
                             ∧ default (λ _, true) where_ r
                             ∧ blockHeightFilter opts (wse_blockHeight r))
                      (wasmStateEvents db)).
  { apply list_elem_of_filter. split; [|done].
    split; [done|]. split; [done|]. split; [done|].
    split; [by apply Is_true_true|done]. }
  rewrite Hnil in Hr. inversion Hr.
Qed.
End Dates.

(** X10. [getDateKeyModified] uses the memo slot of [get]: after a [get]
    of a key not memoised before, it makes no read of its own, and it
    returns the date of the most recent row at or below the target block
    whether or not that row is a tombstone. *)
Theorem getDateKeyModified_after_get `{Runtime} {Date : Type}
    (dateOfUnixMs : Z → Date) (db : Database) (opts : EnvOptions) (s : Store)
    (contractAddress : string) (keys : list KeyPart) :
  events s !! wasmDependentKey contractAddress (dbKeyForKeys keys) = None →
  let first := get db opts contractAddress keys s in
  let second :=
    getDateKeyModified db opts dateOfUnixMs contractAddress keys first.1 in
  reads (effects second.1) = reads (effects first.1)
  ∧ second.2
    = Returned ((λ r, dateOfUnixMs (wse_blockTimeUnixMs r))
        <$> WasmStateEvent_findOne db contractAddress (dbKeyForKeys keys)
              (height (block opts))).
Proof.
  intros Hmemo first second.
  destruct (get_miss db opts s contractAddress keys Hmemo) as (_ & Hslot & _).
  fold first in Hslot.
  destruct (getDateKeyModified_hit db opts dateOfUnixMs first.1 contractAddress
              keys _ Hslot) as [Hres Hq].
  fold second in Hres, Hq. unfold reads. rewrite Hq. split; [done|].
  rewrite Hres. by destruct (WasmStateEvent_findOne _ _ _ _).
Qed.

Lemma getDateKeyModified_after_get_witness :
  let first := get Sample.dbS2 (Sample.at_ 27) Sample.addrA [KString "k"]
                 Sample.freshStore in
  let second := getDateKeyModified Sample.dbS2 (Sample.at_ 27) (λ ms, ms)
                  Sample.addrA [KString "k"] first.1 in
  first.2 = Returned None
  ∧ reads (effects second.1) = reads (effects first.1)
  ∧ second.2 = Returned (Some 25000).
Proof.
  split; [reflexivity|].
  apply (getDateKeyModified_after_get (λ ms, ms) Sample.dbS2 (Sample.at_ 27)
           Sample.freshStore Sample.addrA [KString "k"]).
  reflexivity.
Defined.

(** X11. [getDateKeyFirstSet] neither reads nor writes the memo: every
    call makes exactly one read.  It returns the date of a live row of
    the key at or below the target block that no other live row
    precedes, and absent when every such row is a tombstone. *)
Theorem getDateKeyFirstSet_earliest `{Runtime} {Date : Type}
    (dateOfUnixMs : Z → Date) (db : Database) (opts : EnvOptions) (s : Store)
    (contractAddress : string) (keys : list KeyPart) :
  let key := dbKeyForKeys keys in
  let h := height (block opts) in
  let run := getDateKeyFirstSet db opts dateOfUnixMs contractAddress keys s in
  events run.1 = events s
  ∧ queries (effects run.1) = queries (effects s) ++ [TWasmStateEvent]
  ∧ match run.2 with
    | Returned (Some date) =>
        ∃ r, visible db contractAddress key h r ∧ wse_delete r = false
             ∧ date = dateOfUnixMs (wse_blockTimeUnixMs r)
             ∧ ∀ r', visible db contractAddress key h r' →
                     wse_delete r' = false →
                     wse_blockHeight r ≤ wse_blockHeight r'
    | Returned None =>
        ∀ r, visible db contractAddress key h r → wse_delete r = true
    | Thrown _ => False
    end.
Proof.
  intros key h run. subst run.
  unfold getDateKeyFirstSet, dateKeyFirstSet. fold key.
  pose proof (findFirstSet_Some db opts contractAddress key None) as Hsome.
  pose proof (findFirstSet_None db opts contractAddress key None) as Hnone.
  run_getter.
  destruct (WasmStateEvent_findFirstSet db opts contractAddress key None)
    as [r|].
  - destruct (Hsome r eq_refl) as (Hv & Hd & _ & Hmin).
    destruct (dependentKeys s), (onFetch opts); simpl;
      (split; [done|]); (split; [settle_effects|]);
      exists r; eauto 10.
  - destruct (dependentKeys s); simpl;
      (split; [done|]); (split; [settle_effects|]);
      intros r Hr; by apply Hnone.
Qed.

(** X29. A [prefetch] memoises a tombstone as "nothing there", and
    [getDateKeyModified] reads that memo: for a key whose most recent row
    is a tombstone, it returns the date of the tombstone when the key
    has not been memoised, and absent after a [prefetch] that named the
    key. *)
Theorem prefetched_tombstone_has_no_date `{Runtime} {Date : Type}
    (dateOfUnixMs : Z → Date) (db : Database) (opts : EnvOptions)
    (s s0 : Store) (contractAddress : string) (listOfKeys : list PrefetchKey)
    (keys : list KeyPart) (r : WasmStateEvent) :
  let key := dbKeyForKeys keys in
  memo_key_unshared db contractAddress listOfKeys key →
  key ∉ mapKeyPrefixes listOfKeys →
  key ∈ nonMapKeys listOfKeys →
  WasmStateEvent_findOne db contractAddress key (height (block opts)) = Some r →
  wse_delete r = true →
  events s0 !! wasmDependentKey contractAddress key = None →
  let loaded := (prefetch db opts contractAddress listOfKeys s).1 in
  (getDateKeyModified db opts dateOfUnixMs contractAddress keys loaded).2
    = Returned None
  ∧ (getDateKeyModified db opts dateOfUnixMs contractAddress keys s0).2
    = Returned (Some (dateOfUnixMs (wse_blockTimeUnixMs r))).
Proof.
  intros key Hunshared Hnotprefix Hnamed Hfound Hdeleted Hfresh loaded.
  pose proof (prefetch_slot db opts s contractAddress listOfKeys key
                Hunshared Hnotprefix (or_introl Hnamed)) as Hslot.
  fold loaded in Hslot. rewrite Hfound in Hslot.
  unfold memoEntry in Hslot. simpl in Hslot. rewrite Hdeleted in Hslot.
  destruct (getDateKeyModified_hit db opts dateOfUnixMs loaded contractAddress
              keys _ Hslot) as [-> _].
  destruct (getDateKeyModified_miss db opts dateOfUnixMs s0 contractAddress
              keys Hfresh) as [-> _].
  fold key. by rewrite Hfound.
Qed.

Lemma prefetched_tombstone_has_no_date_witness :
  let loaded := (prefetch Sample.dbS2 (Sample.at_ 27) Sample.addrA
                   [PfString "k"] Sample.freshStore).1 in
  (getDateKeyModified Sample.dbS2 (Sample.at_ 27) (λ ms, ms) Sample.addrA
     [KString "k"] loaded).2 = Returned None
  ∧ (getDateKeyModified Sample.dbS2 (Sample.at_ 27) (λ ms, ms) Sample.addrA
       [KString "k"] Sample.freshStore).2 = Returned (Some 25000).
Proof.
  apply (prefetched_tombstone_has_no_date (λ ms, ms) Sample.dbS2 (Sample.at_ 27)
           Sample.freshStore Sample.freshStore Sample.addrA [PfString "k"]
           [KString "k"] (Sample.tombstone 25)).
  - unfold memo_key_unshared. by_computation.
  - by_computation.
  - by_computation.
  - vm_compute. reflexivity.
  - reflexivity.
  - reflexivity.
Defined.

(** ** All balances of an address *)

Lemma omap_keys_NoDup {A} (key : A → string) (f : string → option A)
    (ks : list string) :
  NoDup ks → (∀ k e, f k = Some e → key e = k) →
  NoDup (key <$> omap f ks).
Proof.
  intros Hnd Hkey. induction Hnd as [|k ks Hnotin Hnd IH]; [constructor|].
  simpl. destruct (f k) as [e|] eqn:Hf; [|done].
  rewrite fmap_cons. apply NoDup_cons. split; [|done].
  rewrite (Hkey _ _ Hf). intros Hin.
  apply list_elem_of_fmap in Hin as (e' & Hk & He').
  apply list_elem_of_omap in He' as (k' & Hk' & Hf').
  apply Hnotin. rewrite Hk, (Hkey _ _ Hf'). done.
Qed.

Lemma distinct_on_NoDup {A} (key : A → string) (h : A → Z) (rows : list A) :
  NoDup (key <$> distinct_on key h rows).
Proof.
  unfold distinct_on. apply omap_keys_NoDup.
  - rewrite merge_sort_Permutation. apply NoDup_remove_dups.
  - intros k e [Hin _]%newest_Some.
    by apply list_elem_of_filter in Hin as [? _].
Qed.

Section AllBalances.
Context `{Runtime} (db : Database) (opts : EnvOptions).

Lemma foldl_denoms_lookup (l : list BankStateEvent) (m : gmap string string) d :
  NoDup (bse_denom <$> l) →
  foldl (λ acc e, <[bse_denom e := bse_balance e]> acc) m l !! d
  = match head (filter (λ e, bse_denom e = d) l) with
    | Some e => Some (bse_balance e)
    | None => m !! d
    end.
Proof.
  revert m. induction l as [|x l IH]; intros m Hnd; [done|].
  rewrite fmap_cons in Hnd. apply NoDup_cons in Hnd as [Hx Hnd].
  cbn [foldl]. rewrite IH by done. rewrite filter_cons.
  destruct (decide (bse_denom x = d)) as [Hd|Hd].
  - assert (Hnone : filter (λ e, bse_denom e = d) l = []).
    { apply filter_none. intros e He Hed. apply Hx.
      rewrite Hd, <- Hed. by apply list_elem_of_fmap_2. }
    rewrite Hnone. simpl. by rewrite Hd, lookup_insert_eq.
  - destruct (head _); [done|]. by rewrite lookup_insert_ne.
Qed.

(** The entry of a denom in what the history query of [getBalances]
    gives is the balance the history query of [getBalance] finds. *)
Lemma denomBalances_findAll a denom :
  denomBalances (BankStateEvent_findAll db opts a) !! denom
  = bse_balance <$> BankStateEvent_findOne db opts a denom.
Proof.
  unfold denomBalances.
  rewrite foldl_denoms_lookup by apply distinct_on_NoDup.
  unfold BankStateEvent_findAll. rewrite distinct_on_head.
  rewrite lookup_empty, list_filter_filter.
  unfold BankStateEvent_findOne.
  assert (Hsame :
    filter (λ r, bse_denom r = denom
                 ∧ bse_address r = a ∧ blockHeightFilter opts (bse_blockHeight r))
           (bankStateEvents db)
    = filter (λ r, bse_address r = a ∧ bse_denom r = denom
                   ∧ blockHeightFilter opts (bse_blockHeight r))
             (bankStateEvents db)).
  { apply list_filter_iff. intros r. tauto. }
  rewrite Hsame. by destruct (newest _ _).
Qed.

(** [getBalances] on an address whose balance slots this evaluation has
    not tried yet. *)
Lemma getBalances_untried s a :
  BANK_HISTORY_CODE_IDS_KEYS ≠ [] →
  getDependentKey (dependentKeyNamespace FBankBalance) [a]
    ≠ getDependentKey (dependentKeyNamespace FBankState) [a] +:+ ":" →
  events s !! getDependentKey (dependentKeyNamespace FBankBalance) [a] = None →
  events s !! (getDependentKey (dependentKeyNamespace FBankState) [a] +:+ ":")
    = None →
  contract_memo_sound db s a →
  (getBalances db opts a s).2
  = Returned
      match BankBalance_findOne db opts a with
      | Some b => Some (bb_balances b)
      | None =>
          if bool_decide (history_contract db a) then
            match BankStateEvent_findAll db opts a with
            | [] => None
            | rows => Some (denomBalances rows)
            end
          else None
      end.
Proof.
  intros Hkeys Hne Hsnap Hhist Hcontract.
  unfold getBalances, bind, cache_events, query. simpl. rewrite Hsnap. simpl.
  destruct (BankBalance_findOne db opts a) as [b|]; simpl.
  - unfold call_onFetch. by destruct (onFetch opts).
  - unfold getBalances_history, bind.
    match goal with
    | |- context [contractMatchesCodeIdKeys db a _ ?s1] =>
        destruct (contractMatches_sound db s1 a BANK_HISTORY_CODE_IDS_KEYS
                    Hcontract Hkeys) as (s2 & extra & -> & Hev & Hdk & Heff & Hextra)
    end.
    simpl in Hev. unfold history_contract.
    destruct (bool_decide (contract_matches db a BANK_HISTORY_CODE_IDS_KEYS));
      simpl; [|done].
    assert (Hmiss : events s2 !! (getDependentKey
                (dependentKeyNamespace FBankState) [a] +:+ ":") = None)
      by (rewrite Hev, lookup_insert_ne; done).
    set (rows := BankStateEvent_findAll db opts a).
    assert (HmapM : mapM is_BankStateEvent (EvBankState <$> rows) = Some rows)
      by (by apply mapM_fmap_Some).
    unfold push_dependentKey, cache_events, query.
    destruct (dependentKeys s2); simpl; rewrite Hmiss; simpl; rewrite HmapM;
      simpl; (destruct rows as [|r rest]; [done|]);
      rewrite bool_decide_eq_false_2 by done; simpl;
      unfold call_onFetch; by destruct (onFetch opts).
Qed.
End AllBalances.

(** X12. [getBalance(address, denom)] is the entry of [denom] in what
    [getBalances(address)] returns, and absent when that returns absent:
    the two getters, each run on a store that has not tried the balance
    slots of the address, agree on every denom. *)
Theorem getBalance_entry_of_getBalances `{Runtime} (db : Database)
    (opts : EnvOptions) (s : Store) (address denom : string) :
  BANK_HISTORY_CODE_IDS_KEYS ≠ [] →
  let snapshotKey := getDependentKey (dependentKeyNamespace FBankBalance) [address] in
  let historyKey :=
    getDependentKey (dependentKeyNamespace FBankState) [address; denom] in
  let historyPrefix :=
    getDependentKey (dependentKeyNamespace FBankState) [address] +:+ ":" in
  snapshotKey ≠ historyKey →
  snapshotKey ≠ historyPrefix →
  events s !! snapshotKey = None →
  events s !! historyKey = None →
  events s !! historyPrefix = None →
  contract_memo_sound db s address →
  ∃ balances,
    (getBalances db opts address s).2 = Returned balances
    ∧ (getBalance db opts address denom s).2
      = Returned (balances ≫= λ m, m !! denom).
Proof.
  intros Hkeys snapshotKey historyKey historyPrefix Hne Hne' Hsnap Hhist
    Hprefix Hcontract.
  rewrite (getBalances_untried db opts s address Hkeys Hne' Hsnap Hprefix
             Hcontract).
  eexists. split; [reflexivity|].
  pose proof (getBalance_untried db opts s address denom
                Hkeys Hne Hsnap Hhist Hcontract) as Hrun.
  simpl in Hrun.
  destruct (BankBalance_findOne db opts address) as [b|].
  - by destruct Hrun as [-> _].
  - destruct Hrun as (lookup & _ & Hrun).
    destruct (bool_decide (history_contract db address));
      destruct Hrun as [-> _]; [|done].
    f_equal. rewrite <- denomBalances_findAll.
    destruct (BankStateEvent_findAll db opts address) as [|r rest] eqn:Hrows;
      [|done].
    simpl. unfold denomBalances. simpl. by rewrite lookup_empty.
Qed.

Lemma getBalance_entry_of_getBalances_witness :
  ∃ balances,
    (getBalances SampleBank.db (Sample.at_ 10) SampleBank.treasury
       Sample.freshStore).2 = Returned balances
    ∧ (getBalance SampleBank.db (Sample.at_ 10) SampleBank.treasury "ujuno"
         Sample.freshStore).2
      = Returned (balances ≫= λ m, m !! "ujuno").
Proof.
  apply (getBalance_entry_of_getBalances SampleBank.db (Sample.at_ 10)
           Sample.freshStore SampleBank.treasury "ujuno").
  - discriminate.
  - vm_compute. discriminate.
  - vm_compute. discriminate.
  - reflexivity.
  - reflexivity.
  - reflexivity.
  - intros c Hc. discriminate Hc.
Defined.

(** ** Contracts *)

Section Contracts.
Context `{Runtime} (db : Database).

(** [getContract] against a sound memo: the row if it passes the filter,
    a memo that holds the row afterwards, and a read only when the memo
    had no entry. *)
Lemma getContract_sound s a codeIdsKeysFilter :
  contract_memo_sound db s a →
  let run := getContract db a codeIdsKeysFilter s in
  run.2 = Returned (contractPassing db a codeIdsKeysFilter)
  ∧ contracts run.1 !! a = Some (Contract_findOne db a)
  ∧ events run.1 = events s
  ∧ dependentKeys run.1 = dependentKeys s
  ∧ queries (effects run.1)
    = queries (effects s)
        ++ (if contracts s !! a is Some _ then [] else [TContract]).
Proof.
  intros Hsound run. subst run.
  unfold getContract, contractPassing, passesCodeIdsKeys, bind,
    cache_contracts, set_cache_contracts, query, getCodeIdsForKeys, ret, emit.
  simpl.
  destruct (contracts s !! a) as [cached|] eqn:Hmemo; simpl.
  - pose proof (Hsound _ Hmemo) as ->. rewrite app_nil_r.
    destruct (Contract_findOne db a) as [c|]; simpl;
      repeat case_match; simplify_eq/=; try done; congruence.
  - destruct (Contract_findOne db a) as [c|]; simpl;
      repeat case_match; simplify_eq/=;
      rewrite ?lookup_insert_eq, ?queries_app; simpl; try done; congruence.
Qed.
End Contracts.

(** X13. The contract memo does not depend on the code-id filter: after
    one [getContract] of an address, with any filter, another one with any
    other filter makes no read and returns the contract row exactly when
    it exists and passes the second filter.  A contract found missing is
    memoised as well. *)
Theorem getContract_memo_any_filter `{Runtime} (db : Database) (s : Store)
    (contractAddress : string) (filter1 filter2 : option (list string)) :
  contract_memo_sound db s contractAddress →
  let first := getContract db contractAddress filter1 s in
  let second := getContract db contractAddress filter2 first.1 in
  reads (effects second.1) = reads (effects first.1)
  ∧ second.2 = Returned (contractPassing db contractAddress filter2).
Proof.
  intros Hsound first second.
  destruct (getContract_sound db s contractAddress filter1 Hsound)
    as (_ & Hmemo & _).
  fold first in Hmemo.
  assert (Hsound' : contract_memo_sound db first.1 contractAddress).
  { intros c Hc. rewrite Hmemo in Hc. by injection Hc as <-. }
  destruct (getContract_sound db first.1 contractAddress filter2 Hsound')
    as (Hres & _ & _ & _ & Hq).
  fold second in Hres, Hq. rewrite Hmemo in Hq. rewrite app_nil_r in Hq.
  unfold reads. by rewrite Hq.
Qed.

Lemma getContract_memo_any_filter_witness :
  let first := getContract Sample.dbConfig Sample.addrA None Sample.freshStore in
  let second := getContract Sample.dbConfig Sample.addrA (Some ["cw20-stake"])
                  first.1 in
  reads (effects second.1) = reads (effects first.1)
  ∧ second.2 = Returned None.
Proof.
  apply (getContract_memo_any_filter Sample.dbConfig Sample.freshStore
           Sample.addrA None (Some ["cw20-stake"])).
  intros c Hc. discriminate Hc.
Defined.

(** X14. [contractMatchesCodeIdKeys] with no key at all asks for no code
    id: it is true of every address that has a contract row. *)
Theorem contractMatchesCodeIdKeys_no_keys `{Runtime} (db : Database)
    (s : Store) (contractAddress : string) :
  contract_memo_sound db s contractAddress →
  (contractMatchesCodeIdKeys db contractAddress [] s).2
  = Returned (bool_decide (is_Some (Contract_findOne db contractAddress))).
Proof.
  intros Hsound. unfold contractMatchesCodeIdKeys, bind.
  destruct (getContract_sound db s contractAddress (Some []) Hsound)
    as (Hres & _).
  destruct (getContract db contractAddress (Some []) s) as [s' result].
  simpl in Hres. subst result. unfold contractPassing. simpl.
  destruct (Contract_findOne db contractAddress); simpl; unfold ret; f_equal.
Qed.

Lemma contractMatchesCodeIdKeys_no_keys_witness :
  (contractMatchesCodeIdKeys Sample.dbConfig Sample.addrA [] Sample.freshStore).2
  = Returned true.
Proof.
  apply (contractMatchesCodeIdKeys_no_keys Sample.dbConfig
           Sample.freshStore Sample.addrA).
  intros c Hc. discriminate Hc.
Defined.

(** X15. [getCodeIdKeyForContract] returns the first code-id key of the
    contract's code id, and absent when the address has no contract row
    or its code id has no key; it goes through the contract memo, so it
    reads the [Contract] table at most once and a later [getContract]
    of the address reads nothing. *)
Theorem getCodeIdKeyForContract_first_key `{Runtime} (db : Database)
    (findWasmCodeKeysById : Z → list string) (s : Store)
    (contractAddress : string) (codeIdsKeysFilter : option (list string)) :
  contract_memo_sound db s contractAddress →
  let run := getCodeIdKeyForContract db findWasmCodeKeysById contractAddress s in
  let later := getContract db contractAddress codeIdsKeysFilter run.1 in
  run.2 = Returned (Contract_findOne db contractAddress
                      ≫= λ c, head (findWasmCodeKeysById (c_codeId c)))
  ∧ (reads (effects run.1) ≤ S (reads (effects s)))%nat
  ∧ reads (effects later.1) = reads (effects run.1).
Proof.
  intros Hsound run later.
  destruct (getContract_sound db s contractAddress None Hsound)
    as (Hres & Hmemo & _ & _ & Hq).
  assert (Hrun : run.1 = (getContract db contractAddress None s).1
                 ∧ run.2 = Returned (Contract_findOne db contractAddress
                             ≫= λ c, head (findWasmCodeKeysById (c_codeId c)))).
  { subst run. unfold getCodeIdKeyForContract, bind.
    destruct (getContract db contractAddress None s) as [s' result].
    simpl in Hres. subst result. unfold contractPassing. simpl.
    by destruct (Contract_findOne db contractAddress). }
  destruct Hrun as [Hstore Hvalue]. split; [done|].
  assert (Hsound' : contract_memo_sound db run.1 contractAddress).
  { intros c Hc. rewrite Hstore, Hmemo in Hc. by injection Hc as <-. }
  destruct (getContract_sound db run.1 contractAddress codeIdsKeysFilter Hsound')
    as (_ & _ & _ & _ & Hq').
  fold later in Hq'. rewrite Hstore, Hmemo, app_nil_r in Hq'.
  unfold reads. rewrite Hq', Hstore, Hq, length_app.
  split; [|done]. destruct (contracts s !! contractAddress); simpl; lia.
Qed.

Lemma getCodeIdKeyForContract_first_key_witness :
  (getCodeIdKeyForContract Sample.dbConfig
     (λ codeId, if bool_decide (codeId = 163) then ["dao-dao-core"] else [])
     Sample.addrA Sample.freshStore).2
  = Returned (Some "dao-dao-core").
Proof.
  assert (Hsound : contract_memo_sound Sample.dbConfig Sample.freshStore
                      Sample.addrA) by (intros c Hc; discriminate Hc).
  exact (proj1 (getCodeIdKeyForContract_first_key Sample.dbConfig
                  (λ codeId, if bool_decide (codeId = 163)
                             then ["dao-dao-core"] else [])
                  Sample.freshStore Sample.addrA None Hsound)).
Defined.

(** ** Transaction events *)

Lemma newer_first_total : Total newer_first.
Proof. intros a b. unfold newer_first. lia. Qed.

Lemma where_matches_spec (where_ : WhereOptions) (r : WasmTxEvent) :
  where_matches where_ r = true ↔
  ∀ key condition, where_ !! key = Some condition → condition r = true.
Proof.
  unfold where_matches. rewrite forallb_forall. split.
  - intros Hall key condition Hkey.
    apply (Hall (key, condition)), list_elem_of_In, elem_of_map_to_list, Hkey.
  - intros Hall [key condition] Hin.
    apply list_elem_of_In, elem_of_map_to_list in Hin. by apply (Hall key).
Qed.

(** X16. [getTxEvents] returns the transaction events of the contract at
    or below the target block that meet the conditions of the extra
    [where] object, each of them, newest first; a condition that the
    caller gives under the key [contractAddress] or [blockHeight] is
    replaced by the getter's own and has no effect.  It returns absent,
    not an empty list, when there is no such event.  It does not use the
    memo: every call makes one read. *)
Theorem getTxEvents_newest_first `{Runtime} (db : Database) (opts : EnvOptions)
    (s : Store) (contractAddress : string) (where_ : option WhereOptions) :
  let run := getTxEvents db opts contractAddress where_ s in
  events run.1 = events s
  ∧ queries (effects run.1) = queries (effects s) ++ [TWasmTxEvent]
  ∧ match run.2 with
    | Returned (Some rows) =>
        rows ≠ [] ∧ Sorted newer_first rows
        ∧ ∀ r, r ∈ rows ↔
               r ∈ wasmTxEvents db ∧ txWanted opts contractAddress where_ r
    | Returned None =>
        ∀ r, r ∈ wasmTxEvents db → ¬ txWanted opts contractAddress where_ r
    | Thrown _ => False
    end.
Proof.
  intros run. subst run. unfold getTxEvents. run_getter.
  set (wanted := filter _ (wasmTxEvents db)).
  assert (Hwanted : ∀ r, r ∈ wanted ↔
            r ∈ wasmTxEvents db ∧ txWanted opts contractAddress where_ r).
  { intros r. subst wanted. rewrite list_elem_of_filter.
    rewrite where_matches_spec. unfold txWanted, blockHeightFilter.
    unfold WhereOptions in *.
    split.
    - intros [Hr Hin]. split; [done|]. split; [|split].
      + apply (proj1 (bool_decide_eq_true _)).
        apply (Hr "contractAddress"
                 (λ r, bool_decide (wte_contractAddress r = contractAddress))).
        rewrite lookup_insert_ne by done. apply lookup_insert_eq.
      + apply (proj1 (bool_decide_eq_true _)).
        apply (Hr "blockHeight"
                 (λ r, bool_decide (wte_blockHeight r ≤ height (block opts)))).
        apply lookup_insert_eq.
      + intros key condition Hkey Hca Hbh. apply (Hr key).
        by rewrite !lookup_insert_ne.
    - intros [Hin (Hca & Hbh & Hrest)]. split; [|done].
      intros key condition Hkey.
      destruct (decide (key = "blockHeight")) as [->|Hk1].
      { rewrite lookup_insert_eq in Hkey. injection Hkey as <-.
        by apply bool_decide_eq_true. }
      rewrite lookup_insert_ne in Hkey by done.
      destruct (decide (key = "contractAddress")) as [->|Hk2].
      { rewrite lookup_insert_eq in Hkey. injection Hkey as <-.
        by apply bool_decide_eq_true. }
      rewrite lookup_insert_ne in Hkey by done. by apply (Hrest key). }
  assert (Hresult :
    match (if bool_decide (merge_sort newer_first wanted = [])
           then @Returned (option (list WasmTxEvent)) None
           else Returned (Some (merge_sort newer_first wanted))) with
    | Returned (Some rows) =>
        rows ≠ [] ∧ Sorted newer_first rows
        ∧ ∀ r, r ∈ rows ↔
               r ∈ wasmTxEvents db ∧ txWanted opts contractAddress where_ r
    | Returned None =>
        ∀ r, r ∈ wasmTxEvents db → ¬ txWanted opts contractAddress where_ r
    | Thrown _ => False
    end).
  { case_bool_decide as Hnil.
    - intros r Hr Hw.
      assert (Hin : r ∈ merge_sort newer_first wanted)
        by (rewrite merge_sort_Permutation; apply Hwanted; done).
      rewrite Hnil in Hin. inversion Hin.
    - split; [done|]. split; [apply (@Sorted_merge_sort _ newer_first _ newer_first_total)|].
      intros r. by rewrite merge_sort_Permutation. }
  destruct (dependentKeys s); simpl;
    (split; [by case_bool_decide|]);
    (split; [case_bool_decide; settle_effects|]);
    revert Hresult; by case_bool_decide.
Qed.

(** A condition on the height given by the caller does not narrow the
    result: asked for the events of height 3 at the target block 10, the
    getter returns the event of height 5. *)
Example getTxEvents_replaces_height :
  let where_ : WhereOptions :=
    {[ "blockHeight" := λ r, bool_decide (wte_blockHeight r = 3) ]} in
  (getTxEvents Sample.dbTx (Sample.at_ 10) Sample.addrA (Some where_)
     Sample.freshStore).2
  = Returned (Some [Sample.tx]).
Proof. vm_compute. reflexivity. Qed.

(** ** The memo of a map *)

Section MapMemo.
Context `{Runtime} (db : Database) (opts : EnvOptions).

(** A memoised prefix: no query, the memo is left as it is. *)
Lemma getMap_hit s a name keyType cached :
  events s !! wasmDependentKey a (mapKeyPrefix name) = Some cached →
  let run := getMap db opts a name keyType s in
  run.2 = mapOutcome keyType (mapKeyPrefix name) cached
  ∧ events run.1 = events s
  ∧ queries (effects run.1) = queries (effects s).
Proof.
  intros Hmemo run. subst run. unfold mapOutcome. run_getter.
  destruct (dependentKeys s); simpl; rewrite Hmemo; simpl;
    (destruct (mapM is_WasmStateEvent (default [] cached)); simpl;
     [|settle_effects]);
    (case_bool_decide; simpl; [settle_effects|]);
    repeat case_match; simplify_eq/=; settle_effects.
Qed.

Lemma mapOutcome_entry keyType keyPrefix rows :
  mapOutcome keyType keyPrefix (mapEntry rows)
  = match rows with
    | [] => Returned None
    | _ =>
        match buildMap keyType keyPrefix
                (filter (λ e, wse_delete e = false) rows) ∅ with
        | Returned map => Returned (Some map)
        | Thrown msg => Thrown msg
        end
    end.
Proof.
  unfold mapOutcome, mapEntry. destruct rows as [|r rest]; [done|].
  rewrite (bool_decide_eq_false_2 (r :: rest = [])) by done.
  assert (HmapM : mapM is_WasmStateEvent (EvWasmState <$> r :: rest)
                  = Some (r :: rest)) by (by apply mapM_fmap_Some).
  change (default [] (Some (EvWasmState <$> r :: rest)))
    with (EvWasmState <$> r :: rest).
  rewrite HmapM. by rewrite bool_decide_eq_false_2.
Qed.

(** A prefix not tried yet: one query, and the rows found are memoised. *)
Lemma getMap_miss s a name keyType :
  events s !! wasmDependentKey a (mapKeyPrefix name) = None →
  let entry :=
    mapEntry (WasmStateEvent_findAll_prefix db opts a (mapKeyPrefix name)) in
  let run := getMap db opts a name keyType s in
  run.2 = mapOutcome keyType (mapKeyPrefix name) entry
  ∧ events run.1 !! wasmDependentKey a (mapKeyPrefix name) = Some entry
  ∧ queries (effects run.1) = queries (effects s) ++ [TWasmStateEvent].
Proof.
  intros Hmemo entry run. subst entry run. split.
  { rewrite (getMap_untried db opts s a name keyType Hmemo).
    rewrite mapOutcome_entry.
    by destruct (WasmStateEvent_findAll_prefix db opts a (mapKeyPrefix name)). }
  unfold mapEntry. run_getter.
  set (rows := WasmStateEvent_findAll_prefix db opts a (mapKeyPrefix name)).
  assert (HmapM : mapM is_WasmStateEvent (EvWasmState <$> rows) = Some rows)
    by (by apply mapM_fmap_Some).
  assert (Hnil : bool_decide (EvWasmState <$> rows = [])
                 = bool_decide (rows = [])).
  { apply bool_decide_ext. split; [apply fmap_nil_inv|by intros ->]. }
  destruct (dependentKeys s); simpl; rewrite Hmemo; simpl; rewrite HmapM;
    simpl; rewrite Hnil; case_bool_decide as Hrows; simpl;
    repeat case_match; simplify_eq/=; settle_effects.
Qed.
End MapMemo.

(** X17. Within one evaluation, a second [getMap] of the same contract
    address, name and key type makes no further database read and
    returns what the first returned, whatever the memo held before. *)
Theorem getMap_twice `{Runtime} (db : Database) (opts : EnvOptions) (s : Store)
    (contractAddress : string) (name : MapName) (keyType : KeyType) :
  let first := getMap db opts contractAddress name keyType s in
  let second := getMap db opts contractAddress name keyType first.1 in
  reads (effects second.1) = reads (effects first.1)
  ∧ second.2 = first.2.
Proof.
  intros first second. unfold reads.
  destruct (events s !! wasmDependentKey contractAddress (mapKeyPrefix name))
    as [cached|] eqn:Hmemo.
  - destruct (getMap_hit db opts s contractAddress name keyType cached Hmemo)
      as (Hres & Hev & _).
    fold first in Hres, Hev.
    assert (Hmemo' : events first.1
                       !! wasmDependentKey contractAddress (mapKeyPrefix name)
                     = Some cached) by (by rewrite Hev).
    destruct (getMap_hit db opts first.1 contractAddress name keyType cached
                Hmemo') as (Hres' & _ & Hq').
    fold second in Hres', Hq'. rewrite Hq'. split; [done|congruence].
  - destruct (getMap_miss db opts s contractAddress name keyType Hmemo)
      as (Hres & Hev & _).
    fold first in Hres, Hev.
    destruct (getMap_hit db opts first.1 contractAddress name keyType _ Hev)
      as (Hres' & _ & Hq').
    fold second in Hres', Hq'. rewrite Hq'. split; [done|congruence].
Qed.

(** ** The order of keys *)

Lemma ascii_compare_refl (a : ascii) : Ascii.compare a a = Eq.
Proof. unfold Ascii.compare. apply N.compare_refl. Qed.

Lemma ascii_compare_Lt_trans (a b c : ascii) :
  Ascii.compare a b = Lt → Ascii.compare b c = Lt → Ascii.compare a c = Lt.
Proof.
  unfold Ascii.compare. rewrite !N.compare_lt_iff. apply N.lt_trans.
Qed.

Lemma string_compare_Lt_trans (s1 s2 s3 : string) :
  String.compare s1 s2 = Lt → String.compare s2 s3 = Lt →
  String.compare s1 s3 = Lt.
Proof.
  revert s2 s3. induction s1 as [|c1 s1 IH]; intros [|c2 s2] [|c3 s3];
    simpl; try done.
  destruct (Ascii.compare c1 c2) eqn:H12; try done;
    destruct (Ascii.compare c2 c3) eqn:H23; try done.
  - apply Ascii.compare_eq_iff in H12 as ->, H23 as ->.
    rewrite ascii_compare_refl. apply IH.
  - apply Ascii.compare_eq_iff in H12 as ->. by rewrite H23.
  - apply Ascii.compare_eq_iff in H23 as ->. by rewrite H12.
  - by rewrite (ascii_compare_Lt_trans _ _ _ H12 H23).
Qed.

Lemma key_le_trans : Transitive key_le.
Proof.
  intros s1 s2 s3. unfold key_le, String.leb.
  destruct (String.compare s1 s2) eqn:H12; try done;
    destruct (String.compare s2 s3) eqn:H23; try done; intros _ _.
  - apply String.compare_eq_iff in H12 as ->. by rewrite H23.
  - apply String.compare_eq_iff in H12 as ->. by rewrite H23.
  - apply String.compare_eq_iff in H23 as ->. by rewrite H12.
  - by rewrite (string_compare_Lt_trans _ _ _ H12 H23).
Qed.

Lemma key_le_total : Total key_le.
Proof.
  intros s1 s2. unfold key_le.
  destruct (String.leb_total s1 s2) as [-> | ->]; auto.
Qed.

Lemma key_le_antisym : AntiSymm (=) key_le.
Proof.
  intros s1 s2 H12 H21. unfold key_le in *.
  apply String.leb_antisym; by apply Is_true_true.
Qed.

(** ** Selecting before and after [DISTINCT ON] *)

Lemma StronglySorted_filter {A} (R : relation A) (P : A → Prop)
    `{!∀ x, Decision (P x)} (l : list A) :
  StronglySorted R l → StronglySorted R (filter P l).
Proof.
  induction 1 as [|x l Hl IH Hx]; [constructor|].
  rewrite filter_cons. destruct (decide (P x)); [|done].
  constructor; [done|]. apply Forall_forall. intros y Hy.
  apply list_elem_of_filter in Hy as [_ Hy].
  by eapply Forall_forall in Hx.
Qed.

Lemma merge_sort_filter (P : string → Prop) `{!∀ x, Decision (P x)}
    (l : list string) :
  filter P (merge_sort key_le l) = merge_sort key_le (filter P l).
Proof.
  apply (@StronglySorted_unique _ key_le key_le_antisym).
  - apply StronglySorted_filter.
    apply (@StronglySorted_merge_sort _ key_le _ key_le_trans key_le_total).
  - apply (@StronglySorted_merge_sort _ key_le _ key_le_trans key_le_total).
  - by rewrite !merge_sort_Permutation.
Qed.

Lemma remove_dups_filter {A} `{!EqDecision A} (P : A → Prop)
    `{!∀ x, Decision (P x)} (l : list A) :
  remove_dups (filter P l) = filter P (remove_dups l).
Proof.
  induction l as [|x l IH]; [done|].
  rewrite filter_cons. simpl.
  destruct (decide (P x)) as [HP|HP].
  - simpl. destruct (decide_rel elem_of x (filter P l)) as [Hin|Hin],
      (decide_rel elem_of x l) as [Hin'|Hin'].
    + done.
    + exfalso. apply Hin'. by apply list_elem_of_filter in Hin as [_ ?].
    + exfalso. apply Hin. by apply list_elem_of_filter.
    + by rewrite filter_cons_True, IH.
  - destruct (decide_rel elem_of x l); [done|].
    by rewrite filter_cons_False.
Qed.

Lemma filter_omap_key {A} (key : A → string) (P : string → Prop)
    `{!∀ x, Decision (P x)} (f : string → option A) (ks : list string) :
  (∀ k e, f k = Some e → key e = k) →
  filter (λ e, P (key e)) (omap f ks) = omap f (filter P ks).
Proof.
  intros Hkey.
  assert (Hcons : ∀ k ks, omap f (k :: ks)
            = match f k with Some e => e :: omap f ks | None => omap f ks end)
    by done.
  induction ks as [|k ks IH]; [done|].
  rewrite (filter_cons P), Hcons. destruct (f k) as [e|] eqn:Hf.
  - rewrite filter_cons, (Hkey _ _ Hf).
    destruct (decide (P k)); by rewrite ?Hcons, ?Hf, IH.
  - destruct (decide (P k)); by rewrite ?Hcons, ?Hf, IH.
Qed.

Lemma omap_ext_in {A B} (f g : A → option B) (l : list A) :
  (∀ x, x ∈ l → f x = g x) → omap f l = omap g l.
Proof.
  induction l as [|x l IH]; intros Hfg; [done|].
  change (omap f (x :: l))
    with (match f x with Some e => e :: omap f l | None => omap f l end).
  change (omap g (x :: l))
    with (match g x with Some e => e :: omap g l | None => omap g l end).
  rewrite (Hfg x) by left. rewrite IH; [done|].
  intros y Hy. apply Hfg. by right.
Qed.

(** Selecting rows by a condition on the key and then taking one row per
    key is taking one row per key and then selecting. *)
Lemma distinct_on_filter_key {A} (key : A → string) (h : A → Z)
    (P : string → Prop) `{!∀ x, Decision (P x)} (rows : list A) :
  filter (λ e, P (key e)) (distinct_on key h rows)
  = distinct_on key h (filter (λ r, P (key r)) rows).
Proof.
  unfold distinct_on.
  rewrite filter_omap_key.
  2:{ intros k e [Hin _]%newest_Some.
      by apply list_elem_of_filter in Hin as [? _]. }
  change (λ a b : string, String.leb a b) with key_le.
  rewrite merge_sort_filter, <- remove_dups_filter.
  assert (Hkeys : filter P (key <$> rows) = key <$> filter (λ r, P (key r)) rows).
  { clear. induction rows as [|r rows IH]; [done|].
    rewrite fmap_cons, !filter_cons.
    destruct (decide (P (key r))); by rewrite ?fmap_cons, IH. }
  rewrite Hkeys. apply omap_ext_in. intros k Hk. f_equal.
  rewrite list_filter_filter. apply list_filter_iff. intros r.
  split; [|tauto]. intros Hr. split; [done|]. rewrite Hr.
  rewrite merge_sort_Permutation, elem_of_remove_dups in Hk.
  apply list_elem_of_fmap in Hk as (r' & -> & Hr').
  by apply list_elem_of_filter in Hr' as [? _].
Qed.

(** ** A map after a prefetch *)

Lemma prefix_length (p k : string) :
  String.prefix p k = true →
  (String.length p ≤ String.length k)%nat
  ∧ (String.length p = String.length k → p = k).
Proof.
  revert k. induction p as [|c p IH]; intros [|c' k]; simpl; try done.
  - intros _. split; [apply Nat.le_0_l|done].
  - destruct (Ascii.ascii_dec c c') as [->|]; [|done].
    intros [Hle Heq]%IH. split; [by apply le_n_S|].
    intros [= Hlen]. by rewrite (Heq Hlen).
Qed.

Section MapPrefetch.
Context `{Runtime} (db : Database) (opts : EnvOptions).

(** The rows a [prefetch] keeps for one of its map prefixes are the rows
    a [getMap] of that prefix would fetch, as long as no row of the
    contract is stored under the prefix itself. *)
Lemma fetched_under_prefix a listOfKeys p :
  p ∈ mapKeyPrefixes listOfKeys →
  (∀ r, r ∈ wasmStateEvents db → wse_contractAddress r = a → wse_key r ≠ p) →
  filter (λ event, String.prefix p (wse_key event))
         (prefetchRows db opts a listOfKeys)
  = WasmStateEvent_findAll_prefix db opts a p.
Proof.
  intros Hp Hnone.
  assert (is_Some (prefetchKeyFilter listOfKeys)) as [f Hf].
  { apply prefetchKeyFilter_Some. intros ->. inversion Hp. }
  unfold prefetchRows. rewrite Hf. simpl.
  unfold WasmStateEvent_findAll_filter, WasmStateEvent_findAll_prefix.
  etrans;
    [exact (distinct_on_filter_key wse_key wse_blockHeight
              (λ k, String.prefix p k) _)|].
  f_equal. rewrite list_filter_filter.
  induction (wasmStateEvents db) as [|r rows IH]; [done|].
  rewrite !filter_cons. rewrite IH by (intros r' Hr'; apply Hnone; by right).
  destruct (decide (wse_contractAddress r = a ∧ String.prefix p (wse_key r)
                    ∧ blockHeightFilter opts (wse_blockHeight r)))
    as [(Ha & Hpre & Hh)|Hno].
  - rewrite decide_True; [done|].
    split; [done|]. split; [done|]. split; [|done].
    apply Is_true_true.
    destruct (prefetchKeyFilter_matches listOfKeys (wse_key r))
      as (f' & Hf' & Hmatch); [|by simplify_eq]. right.
    apply Is_true_true in Hpre.
    apply (regexp_prefix_plus_intro _ p); [done|done|].
    destruct (prefix_length _ _ Hpre) as [Hle Heq].
    destruct (decide (String.length p = String.length (wse_key r))) as [Hlen|];
      [|lia].
    exfalso. apply (Hnone r); [left|done|]. by rewrite (Heq Hlen).
  - rewrite decide_False; [done|]. intros (Hpre & Ha & _ & Hh).
    by apply Hno.
Qed.

(** The slot of a map prefix after a [prefetch] that asked for it. *)
Lemma prefetch_map_slot s a listOfKeys p :
  p ∈ mapKeyPrefixes listOfKeys →
  memo_key_unshared db a listOfKeys p →
  p ∉ nonMapKeys listOfKeys →
  (∀ r, r ∈ wasmStateEvents db → wse_contractAddress r = a → wse_key r ≠ p) →
  events (prefetch db opts a listOfKeys s).1 !! wasmDependentKey a p
  = Some (mapEntry (WasmStateEvent_findAll_prefix db opts a p)).
Proof.
  intros Hp Hunshared Hnotkey Hnone.
  assert (Hsome : listOfKeys ≠ []) by (intros ->; inversion Hp).
  destruct (prefetch_run db opts s a listOfKeys Hsome) as (s3 & _ & _ & ->).
  simpl.
  set (fetched := prefetchRows db opts a listOfKeys).
  unfold memo_key_unshared in Hunshared.
  rewrite !Forall_app, !Forall_forall in Hunshared.
  destruct Hunshared as (Hkeys & Hprefixes & Hstored).
  rewrite <- (fetched_under_prefix a listOfKeys p Hp Hnone). fold fetched.
  apply writes_lookup.
  - intros w Hw Hd. unfold prefetchWrites in Hw.
    apply elem_of_app in Hw as [Hw|Hw].
    + apply list_elem_of_fmap in Hw as (k' & -> & Hk'). simpl in *.
      exfalso. apply Hnotkey. by rewrite <- (Hkeys _ Hk' Hd).
    + apply elem_of_concat in Hw as (l & Hw & Hl).
      apply list_elem_of_fmap in Hl as (p' & -> & Hp').
      apply elem_of_cons in Hw as [->|Hw]; simpl in *.
      * by rewrite (Hprefixes _ Hp' Hd).
      * apply list_elem_of_fmap in Hw as (e & -> & He). simpl in *.
        apply list_elem_of_filter in He as [_ He].
        apply prefetchKeyFilter_Some in Hsome as [f Hf].
        subst fetched. unfold prefetchRows in He. rewrite Hf in He.
        pose proof (fetched_elem db opts a _ e He) as [_ Hfound].
        apply findOne_visible in Hfound as [(Hin & Ha & _) _].
        exfalso. apply (Hnone e Hin Ha).
        apply Hstored; [|done]. by apply list_elem_of_fmap_2.
  - exists (wasmDependentKey a p,
            mapEntry (filter (λ event, String.prefix p (wse_key event)) fetched)).
    split; [|reflexivity].
    unfold prefetchWrites. apply elem_of_app. right.
    apply elem_of_concat. eexists. split; [|by apply list_elem_of_fmap_2].
    left.
Qed.
End MapPrefetch.

(** X18. A [getMap] that follows a [prefetch] which asked for the map
    makes no database read and returns what an unmemoised [getMap]
    returns.  The prefix must not also be asked for as an exact key, no
    row of the contract may be stored under the prefix itself, and the
    prefix must not share its memo slot with another key. *)
Theorem getMap_after_prefetch `{Runtime} (db : Database) (opts : EnvOptions)
    (s s0 : Store) (contractAddress : string) (listOfKeys : list PrefetchKey)
    (name : MapName) (keyType : KeyType) :
  let keyPrefix := mapKeyPrefix name in
  keyPrefix ∈ mapKeyPrefixes listOfKeys →
  memo_key_unshared db contractAddress listOfKeys keyPrefix →
  keyPrefix ∉ nonMapKeys listOfKeys →
  (∀ r, r ∈ wasmStateEvents db → wse_contractAddress r = contractAddress →
        wse_key r ≠ keyPrefix) →
  events s0 !! wasmDependentKey contractAddress keyPrefix = None →
  let loaded := (prefetch db opts contractAddress listOfKeys s).1 in
  let again := getMap db opts contractAddress name keyType loaded in
  reads (effects again.1) = reads (effects loaded)
  ∧ again.2 = (getMap db opts contractAddress name keyType s0).2.
Proof.
  intros keyPrefix Hp Hunshared Hnotkey Hnone Hfresh loaded again.
  pose proof (prefetch_map_slot db opts s contractAddress listOfKeys keyPrefix
                Hp Hunshared Hnotkey Hnone) as Hslot.
  destruct (getMap_hit db opts loaded contractAddress name keyType _ Hslot)
    as (Hres & _ & Hq).
  destruct (getMap_miss db opts s0 contractAddress name keyType Hfresh)
    as (Hres0 & _ & _).
  fold again in Hres, Hq. unfold reads. rewrite Hq. split; [done|].
  by rewrite Hres, Hres0.
Qed.

Lemma getMap_after_prefetch_witness :
  let loaded := (prefetch Sample.dbItems (Sample.at_ 10) Sample.addrA
                   [Sample.itemsMap] Sample.freshStore).1 in
  let again := getMap Sample.dbItems (Sample.at_ 10) Sample.addrA
                 (NameOne (KString "items")) KeyTypeRaw loaded in
  reads (effects again.1) = reads (effects loaded)
  ∧ again.2 = (getMap Sample.dbItems (Sample.at_ 10) Sample.addrA
                 (NameOne (KString "items")) KeyTypeRaw Sample.freshStore).2.
Proof.
  apply (getMap_after_prefetch Sample.dbItems (Sample.at_ 10)
           Sample.freshStore Sample.freshStore Sample.addrA [Sample.itemsMap]
           (NameOne (KString "items")) KeyTypeRaw).
  - by_computation.
  - unfold memo_key_unshared. by_computation.
  - by_computation.
  - intros r Hr _. simpl in Hr.
    apply elem_of_cons in Hr as [->|Hr]; [|inversion Hr].
    vm_compute. discriminate.
  - reflexivity.
Defined.

(** ** The entries of a map *)

Section MapEntries.
Context `{Runtime} (db : Database) (opts : EnvOptions).

Lemma lookup_assignProperty mapKey value (m : gmap string Json) k :
  assignProperty mapKey value m !! k
  = if bool_decide (mapKey = k ∧ k ≠ "__proto__") then Some value else m !! k.
Proof.
  unfold assignProperty.
  destruct (String.eqb_spec mapKey "__proto__") as [->|Hne].
  - rewrite bool_decide_eq_false_2; [done|]. intros [<- ?]. done.
  - case_bool_decide as Hk.
    + destruct Hk as [-> _]. apply lookup_insert_eq.
    + apply lookup_insert_ne. intros ->. by apply Hk.
Qed.

(** What the loop of [getMap] leaves in the result object. *)
Lemma buildMap_entries keyType keyPrefix rows (m0 m : gmap string Json) :
  buildMap keyType keyPrefix rows m0 = Returned m →
  (∀ k v, m !! k = Some v →
     m0 !! k = Some v
     ∨ (k ≠ "__proto__"
        ∧ ∃ r, r ∈ rows ∧ decodeMapKey keyType keyPrefix (wse_key r) = k
               ∧ JSON_parse (default "null" (wse_value r)) = Some v))
  ∧ (∀ k, k = "__proto__"
          ∨ k ∉ (λ r, decodeMapKey keyType keyPrefix (wse_key r)) <$> rows →
          m !! k = m0 !! k)
  ∧ (NoDup ((λ r, decodeMapKey keyType keyPrefix (wse_key r)) <$> rows) →
     ∀ r, r ∈ rows →
       decodeMapKey keyType keyPrefix (wse_key r) ≠ "__proto__" →
       m !! decodeMapKey keyType keyPrefix (wse_key r)
       = JSON_parse (default "null" (wse_value r))).
Proof.
  revert m0. induction rows as [|x rows IH]; intros m0; simpl.
  - intros [= <-]. split; [auto|]. split; [done|].
    intros _ r Hr. inversion Hr.
  - destruct (JSON_parse (default "null" (wse_value x))) as [vx|] eqn:Hvx;
      [|done].
    intros Hbuild. destruct (IH _ Hbuild) as (Hfrom & Hkeep & Hall).
    split; [|split].
    + intros k v Hk. destruct (Hfrom k v Hk) as [Hm0|(Hne & r & Hr & Hd & Hv)].
      * rewrite lookup_assignProperty in Hm0. case_bool_decide as Hx.
        -- destruct Hx as [Hx Hne]. injection Hm0 as <-.
           right. split; [done|]. exists x. split; [left|done].
        -- by left.
      * right. split; [done|]. exists r. split; [by right|done].
    + intros k Hk. rewrite Hkeep.
      * rewrite lookup_assignProperty. rewrite bool_decide_eq_false_2; [done|].
        intros [Hx Hne]. destruct Hk as [Hk|Hk]; [done|].
        apply Hk. rewrite <- Hx. left.
      * destruct Hk as [Hk|Hk]; [by left|right].
        intros Hin. apply Hk. by right.
    + intros Hnd r Hr Hne. apply NoDup_cons in Hnd as [Hx Hnd].
      apply elem_of_cons in Hr as [->|Hr]; [|by apply Hall].
      rewrite (Hkeep _ (or_intror Hx)), lookup_assignProperty.
      by rewrite bool_decide_eq_true_2.
Qed.

(** With one row per key and height, the most recent row of a key under
    the prefix is among the rows [getMap] fetches. *)
Lemma findAll_prefix_most_recent a p r :
  heights_unique db →
  under_prefix db a p (height (block opts)) r →
  most_recent db a (wse_key r) (height (block opts)) r →
  r ∈ WasmStateEvent_findAll_prefix db opts a p.
Proof.
  intros Huniq (Hin & Ha & Hp & Hh) Hrecent.
  unfold WasmStateEvent_findAll_prefix.
  destruct (distinct_on_covers wse_key wse_blockHeight
              (filter (λ r, wse_contractAddress r = a
                            ∧ String.prefix p (wse_key r)
                            ∧ blockHeightFilter opts (wse_blockHeight r))
                      (wasmStateEvents db)) r) as (e & He & Hk).
  { by apply list_elem_of_filter. }
  pose proof (findAll_prefix_elem db opts a p e He) as [_ Hrecent'].
  rewrite Hk in Hrecent'.
  by rewrite (most_recent_unique db a (wse_key r) _ r e Huniq Hrecent Hrecent').
Qed.
End MapEntries.

(** X19. The map that [getMap] returns on a prefix not memoised before
    holds live data only: each entry is the parsed value of a row under
    the prefix that is the most recent of its key at or below the target
    block and is not a tombstone.  With one row per key and height, and
    distinct keys decoding to distinct map keys, it holds every such
    row, but for one: a row whose key decodes to [__proto__] is left
    out, since assigning to that key of a plain object adds no
    property. *)
Theorem getMap_entries `{Runtime} (db : Database) (opts : EnvOptions)
    (s : Store) (contractAddress : string) (name : MapName) (keyType : KeyType)
    (map : gmap string Json) :
  events s !! wasmDependentKey contractAddress (mapKeyPrefix name) = None →
  (getMap db opts contractAddress name keyType s).2 = Returned (Some map) →
  let keyPrefix := mapKeyPrefix name in
  let h := height (block opts) in
  (∀ k v, map !! k = Some v →
     k ≠ "__proto__"
     ∧ ∃ r, under_prefix db contractAddress keyPrefix h r
            ∧ most_recent db contractAddress (wse_key r) h r
            ∧ wse_delete r = false
            ∧ decodeMapKey keyType keyPrefix (wse_key r) = k
            ∧ JSON_parse (default "null" (wse_value r)) = Some v)
  ∧ (heights_unique db →
     (∀ r r', under_prefix db contractAddress keyPrefix h r →
              under_prefix db contractAddress keyPrefix h r' →
              decodeMapKey keyType keyPrefix (wse_key r)
                = decodeMapKey keyType keyPrefix (wse_key r') →
              wse_key r = wse_key r') →
     ∀ r, under_prefix db contractAddress keyPrefix h r →
          most_recent db contractAddress (wse_key r) h r →
          wse_delete r = false →
          decodeMapKey keyType keyPrefix (wse_key r) ≠ "__proto__" →
          map !! decodeMapKey keyType keyPrefix (wse_key r)
          = JSON_parse (default "null" (wse_value r))).
Proof.
  intros Hmemo Hresult keyPrefix h.
  rewrite (getMap_untried db opts s contractAddress name keyType Hmemo)
    in Hresult.
  fold keyPrefix in Hresult.
  set (rows := WasmStateEvent_findAll_prefix db opts contractAddress keyPrefix)
    in *.
  assert (Hbuild : buildMap keyType keyPrefix
                     (filter (λ e, wse_delete e = false) rows) ∅ = Returned map).
  { destruct rows as [|r0 rest]; [done|].
    destruct (buildMap _ _ _ _); by simplify_eq. }
  destruct (buildMap_entries _ _ _ _ _ Hbuild) as (Hfrom & _ & Hall).
  split.
  - intros k v Hk.
    destruct (Hfrom k v Hk) as [Hempty|(Hne & r & Hr & Hd & Hv)].
    { by rewrite lookup_empty in Hempty. }
    apply list_elem_of_filter in Hr as [Hlive Hr].
    destruct (findAll_prefix_elem db opts contractAddress keyPrefix r Hr).
    split; [done|]. exists r. done.
  - intros Huniq Hinj r Hunder Hrecent Hlive Hne. apply Hall; [| |done].
    + apply (NoDup_fmap_2_strong _).
      * intros x y [_ Hx]%list_elem_of_filter [_ Hy]%list_elem_of_filter Hxy.
        destruct (findAll_prefix_elem db opts contractAddress keyPrefix x Hx)
          as [Hux _].
        destruct (findAll_prefix_elem db opts contractAddress keyPrefix y Hy)
          as [Huy _].
        pose proof (Hinj x y Hux Huy Hxy) as Hkey.
        apply (NoDup_fmap_inj_on wse_key rows); [|done|done|done].
        apply distinct_on_NoDup.
      * apply NoDup_filter. eapply NoDup_fmap_1, distinct_on_NoDup.
    + apply list_elem_of_filter. split; [done|].
      by apply findAll_prefix_most_recent.
Qed.

Lemma getMap_entries_witness :
  ∃ map,
    (getMap Sample.dbItems (Sample.at_ 10) Sample.addrA
       (NameOne (KString "items")) KeyTypeRaw Sample.freshStore).2
      = Returned (Some map)
    ∧ ∀ k v, map !! k = Some v →
        k ≠ "__proto__"
        ∧ ∃ r, under_prefix Sample.dbItems Sample.addrA
                 (mapKeyPrefix (NameOne (KString "items"))) 10 r
               ∧ most_recent Sample.dbItems Sample.addrA (wse_key r) 10 r
               ∧ wse_delete r = false
               ∧ decodeMapKey KeyTypeRaw
                   (mapKeyPrefix (NameOne (KString "items"))) (wse_key r) = k
               ∧ JSON_parse (default "null" (wse_value r)) = Some v.
Proof.
  eexists. split; [vm_compute; reflexivity|].
  apply (getMap_entries Sample.dbItems (Sample.at_ 10) Sample.freshStore
           Sample.addrA (NameOne (KString "items")) KeyTypeRaw);
    [reflexivity|vm_compute; reflexivity].
Defined.

(** ** What a prefetch costs and records *)

Section PrefetchRun.
Context `{Runtime} (db : Database) (opts : EnvOptions).

Lemma for_each_push_keys {A} (d : A → DependentKey) (l : list A) s ds :
  dependentKeys s = Some ds →
  ∃ s', for_each l (λ x, push_dependentKey (d x)) s = (s', Returned tt)
        ∧ dependentKeys s' = Some (ds ++ (d <$> l))
        ∧ events s' = events s
        ∧ queries (effects s') = queries (effects s)
        ∧ hookCalls (effects s') = hookCalls (effects s).
Proof.
  revert s ds. induction l as [|x l IH]; intros s ds Hds; simpl.
  - exists s. rewrite app_nil_r. done.
  - unfold bind, push_dependentKey at 1. rewrite Hds.
    match goal with
    | |- context [for_each l _ ?s1] =>
        destruct (IH s1 (ds ++ [d x]) eq_refl) as (s' & -> & Hdk & Hev & Hq & Hh)
    end.
    exists s'. split; [done|].
    rewrite Hdk, <- app_assoc. split; [done|]. split; [done|].
    rewrite Hq, Hh. settle_effects.
Qed.

(** A loop of memo assignments leaves everything but the memo alone. *)
Lemma for_each_writes_frame {A} (body : A → M unit) (l : list A) :
  (∀ x s, ∃ m, body x s = (with_events m s, Returned tt)) →
  ∀ s, ∃ m, for_each l body s = (with_events m s, Returned tt).
Proof.
  intros Hbody. induction l as [|x l IH]; intros s; simpl.
  - exists (events s). unfold ret. by rewrite with_events_id.
  - unfold bind. destruct (Hbody x s) as [m ->].
    destruct (IH (with_events m s)) as [m' ->]. by exists m'.
Qed.
(** A [prefetch] with a recorder and a hook: what it leaves behind, the
    memo apart. *)
Lemma prefetch_frame s a listOfKeys ds hook :
  listOfKeys ≠ [] →
  dependentKeys s = Some ds →
  onFetch opts = Some hook →
  let fetched := prefetchRows db opts a listOfKeys in
  ∃ s3 m,
    dependentKeys s3
      = Some (ds ++ ((λ key, {| dk_key := wasmDependentKey a key;
                                dk_prefix := endsWith key "," |})
                       <$> (prefetchDbKey <$> listOfKeys)))
    ∧ queries (effects s3) = queries (effects s) ++ [TWasmStateEvent]
    ∧ hookCalls (effects s3)
      = hookCalls (effects s) ++ [EvWasmState <$> fetched]
    ∧ prefetch db opts a listOfKeys s = (with_events m s3, Returned tt).
Proof.
  intros [f Hf]%prefetchKeyFilter_Some Hds Hhook fetched. unfold prefetch.
  assert (Hfetched : fetched = WasmStateEvent_findAll_filter db opts a f)
    by (subst fetched; unfold prefetchRows; by rewrite Hf).
  rewrite Hf.
  unfold bind at 1.
  destruct (for_each_push_keys
              (λ key, {| dk_key := wasmDependentKey a key;
                         dk_prefix := endsWith key "," |})
              (prefetchDbKey <$> listOfKeys) s ds Hds)
    as (s1 & -> & Hdk1 & Hev1 & Hq1 & Hh1).
  unfold bind at 1. unfold query at 1. rewrite <- Hfetched.
  unfold bind at 1. unfold call_onFetch at 1. rewrite Hhook.
  match goal with
  | |- context [bind _ _ ?s2] => set (s3 := s2)
  end.
  assert (Hs3 : dependentKeys s3 = dependentKeys s1
                ∧ queries (effects s3) = queries (effects s) ++ [TWasmStateEvent]
                ∧ hookCalls (effects s3)
                  = hookCalls (effects s) ++ [EvWasmState <$> fetched]).
  { subst s3. simpl. rewrite !queries_app, !hookCalls_app, Hq1, Hh1. simpl.
    by rewrite !app_nil_r. }
  destruct Hs3 as (Hdk3 & Hq3 & Hh3). clearbody s3.
  unfold bind at 1.
  match goal with
  | |- context [for_each (nonMapKeys listOfKeys) ?body s3] =>
      destruct (for_each_writes_frame body (nonMapKeys listOfKeys)) with (s := s3)
        as [m ->]
  end.
  { intros x s0. eexists. unfold set_cache_events, with_events. reflexivity. }
  match goal with
  | |- context [for_each (mapKeyPrefixes listOfKeys) ?body ?s4] =>
      destruct (for_each_writes_frame body (mapKeyPrefixes listOfKeys))
        with (s := s4) as [m' ->]
  end.
  { intros p s0. unfold bind, set_cache_events at 1.
    match goal with
    | |- context [for_each ?l ?body ?s5] =>
        destruct (for_each_writes_frame body l) with (s := s5) as [m0 ->]
    end.
    { intros x s6. eexists. unfold set_cache_events, with_events. reflexivity. }
    by eexists. }
  exists s3, m'. rewrite Hdk3. done.
Qed.
End PrefetchRun.

(** X20. A [prefetch] that asks for at least one key makes exactly one
    database read.  With a recorder present it records one dependent key
    per requested key, in the order asked, flagged as a prefix exactly
    when the composed key ends in a comma; and it calls the hook once,
    with all the rows fetched.  A [prefetch] that asks for no key throws
    when it builds its query: it reads nothing, and it leaves the
    recorder, the memo and the hook as they were. *)
Theorem prefetch_one_read `{Runtime} (db : Database) (opts : EnvOptions)
    (s : Store) (contractAddress : string) (listOfKeys : list PrefetchKey)
    (ds : list DependentKey) (hook : list Event → HookState → HookState) :
  dependentKeys s = Some ds →
  onFetch opts = Some hook →
  let run := prefetch db opts contractAddress listOfKeys s in
  (listOfKeys ≠ [] →
     run.2 = Returned tt
     ∧ queries (effects run.1) = queries (effects s) ++ [TWasmStateEvent]
     ∧ dependentKeys run.1
       = Some (ds ++ ((λ key, wasmDependency contractAddress key
                                (endsWith key ","))
                        <$> (prefetchDbKey <$> listOfKeys)))
     ∧ hookCalls (effects run.1)
       = hookCalls (effects s)
           ++ [EvWasmState <$> prefetchRows db opts contractAddress listOfKeys])
  ∧ (listOfKeys = [] → run = (s, Thrown "Invalid value {}")).
Proof.
  intros Hds Hhook run. subst run. split.
  - intros Hsome.
    destruct (prefetch_frame db opts s contractAddress listOfKeys ds hook
                Hsome Hds Hhook) as (s3 & m & Hdk & Hq & Hh & ->).
    unfold wasmDependency. simpl. done.
  - intros ->. reflexivity.
Qed.

Lemma prefetch_one_read_witness :
  let run := prefetch Sample.dbItems (Sample.at_ 10) Sample.addrA
               [Sample.itemsMap; PfString "k"; PfString "j"]
               Sample.freshStore in
  run.2 = Returned tt
  ∧ queries (effects run.1) = [TWasmStateEvent]
  ∧ dependentKeys run.1
    = Some ((λ key, wasmDependency Sample.addrA key (endsWith key ","))
              <$> (prefetchDbKey
                     <$> [Sample.itemsMap; PfString "k"; PfString "j"]))
  ∧ hookCalls (effects run.1) = [[EvWasmState Sample.itemA]].
Proof.
  apply (proj1 (prefetch_one_read Sample.dbItems (Sample.at_ 10)
                  Sample.freshStore Sample.addrA
                  [Sample.itemsMap; PfString "k"; PfString "j"] []
                  Sample.countRows eq_refl eq_refl)).
  discriminate.
Defined.

(** ** Dependencies *)

(** X21. With a recorder present, every call of [get], [getMap] and
    [getTxEvents] appends exactly one dependent key, whatever the memo
    holds, whatever the database returns, and also when the call throws:
    the exact key for [get], the key prefix for [getMap], and every
    transaction event of the contract for [getTxEvents]. *)
Theorem getters_record_one_dependency `{Runtime} (db : Database)
    (opts : EnvOptions) (s : Store) (ds : list DependentKey)
    (contractAddress : string) :
  dependentKeys s = Some ds →
  (∀ keys,
     dependentKeys (get db opts contractAddress keys s).1
     = Some (ds ++ [wasmDependency contractAddress (dbKeyForKeys keys) false]))
  ∧ (∀ name keyType,
       dependentKeys (getMap db opts contractAddress name keyType s).1
       = Some (ds ++ [wasmDependency contractAddress (mapKeyPrefix name) true]))
  ∧ (∀ where_,
       dependentKeys (getTxEvents db opts contractAddress where_ s).1
       = Some (ds ++ [{| dk_key := getDependentKey (dependentKeyNamespace FWasmTx)
                                     [contractAddress];
                         dk_prefix := true |}])).
Proof.
  intros Hds. split; [|split].
  - intros keys. by apply get_records_dependency.
  - intros name keyType. unfold wasmDependency. run_getter. rewrite Hds. simpl.
    destruct (events s !! _) as [cached|]; simpl.
    + destruct (mapM is_WasmStateEvent (default [] cached)); simpl; [|done].
      case_bool_decide; simpl; [done|].
      destruct (onFetch opts); simpl; by destruct (buildMap _ _ _ _).
    + rewrite mapM_fmap_Some by done. simpl.
      case_bool_decide; simpl; [done|].
      destruct (onFetch opts); simpl; by destruct (buildMap _ _ _ _).
  - intros where_. run_getter. rewrite Hds. simpl. by case_bool_decide.
Qed.

Lemma getters_record_one_dependency_witness :
  dependentKeys (get Sample.dbS2 (Sample.at_ 27) Sample.addrA [KString "k"]
                   Sample.freshStore).1
  = Some [wasmDependency Sample.addrA (dbKeyForKeys [KString "k"]) false].
Proof.
  apply (proj1 (getters_record_one_dependency Sample.dbS2 (Sample.at_ 27)
                  Sample.freshStore [] Sample.addrA eq_refl)).
Defined.

(** ** The shape of a request *)

Ltac settle_step :=
  unfold quiet, badRequest, internalError, reply, proceed, call; simpl;
  repeat case_match; simplify_eq/=; try done.

(** Goals about the calls and the answer of a branch that has been run
    through. *)
Ltac settle_shape :=
  repeat match goal with
         | |- _ ∧ _ => split
         | |- _ → _ => intros
         | |- Forall _ [] => constructor
         | |- Forall _ (_ :: _) => constructor
         end;
  try done;
  try (by (left; split; [done|eexists; reflexivity]));
  try (by right);
  try (by left).

Section RouteShape.
Context `{Runtime} `{!Server}.

Lemma validateBlocks_given rq :
  quiet (validateBlocks rq) (λ st, st = 400)
    (λ r, is_Some r.1 → is_Some (truthy_string (rq_blocks rq))).
Proof. unfold validateBlocks. settle_step; intros [? ?]; done. Qed.

Lemma validateTimes_given rq :
  quiet (validateTimes rq) (λ st, st = 400)
    (λ r, is_Some r.1 → is_Some (truthy_string (rq_times rq))).
Proof. unfold validateTimes. settle_step; intros [? ?]; done. Qed.

(** A request is answered by the checks, which call nobody, or goes to
    one of the two branches. *)
Lemma route_cases stored rq :
  (∃ r, route stored rq = ([], inl r)
        ∧ (status r = 400 ∨ status r = 404 ∨ status r = 405 ∨ status r = 500))
  ∨ (∃ typedFormula block,
       route stored rq = computeOnce rq typedFormula block)
  ∨ (∃ p typedFormula times blocks,
       isTestKey rq = false
       ∧ (is_Some (truthy_string (rq_blocks rq))
          ∨ is_Some (truthy_string (rq_times rq)))
       ∧ validate rq = ([], inr p)
       ∧ route stored rq
         = computeOverRange stored rq typedFormula (p_blockStep p)
             (p_timeStep p) times blocks).
Proof.
  pose (shape := λ m : Step (option Json),
    (∃ r, m = ([], inl r)
          ∧ (status r = 400 ∨ status r = 404 ∨ status r = 405 ∨ status r = 500))
    ∨ (∃ typedFormula block, m = computeOnce rq typedFormula block)
    ∨ (∃ p typedFormula times blocks,
         isTestKey rq = false
         ∧ (is_Some (truthy_string (rq_blocks rq))
            ∨ is_Some (truthy_string (rq_times rq)))
         ∧ validate rq = ([], inr p)
         ∧ m = computeOverRange stored rq typedFormula (p_blockStep p)
                 (p_timeStep p) times blocks)).
  change (shape (route stored rq)). unfold route.
  pose proof (validate_quiet rq _ _ (validateBlocks_given rq)
                (validateTimes_given rq)) as [Hcalls Hpost].
  destruct (validate rq) as [calls [r|p]] eqn:Hvalidate; simpl in Hcalls, Hpost;
    subst calls.
  { left. exists r. split; [done|auto]. }
  destruct Hpost as [Hblocks Htimes]. simpl in Hblocks, Htimes.
  rewrite andThen_proceed.
  destruct (getTypedFormula (rq_type rq) (rq_formulaName rq))
    as [typedFormula| |msg].
  2:{ left. eexists. split; [reflexivity|]. simpl. auto. }
  2:{ left. eexists. split; [reflexivity|]. simpl. auto. }
  unfold proceed at 1. rewrite andThen_proceed.
  pose proof (checkTarget_quiet rq typedFormula) as [Hcalls Htarget].
  destruct (checkTarget rq typedFormula) as [calls [r|[]]];
    simpl in Hcalls, Htarget; subst calls.
  { left. exists r. split; [done|]. destruct Htarget; auto. }
  rewrite andThen_proceed.
  destruct (f_dynamic (tf_formula typedFormula)
            && (bool_decide (is_Some (p_blocks p))
                || bool_decide (is_Some (p_times p)))).
  { left. eexists. split; [reflexivity|]. simpl. auto. }
  subst shape. cbv beta.
  destruct (isTestKey rq) eqn:Htest.
  - right. left. destruct (p_times p), (p_blocks p); cbv beta iota zeta;
      eexists _, _; reflexivity.
  - destruct (p_times p) as [times|] eqn:Hptimes; cbn [fmap option_fmap option_map].
    + destruct (blocksForTimes (adjustTimes times)) as [blocks|].
      * right. right. exists p, typedFormula, (Some (adjustTimes times)), blocks.
        split; [done|]. split; [right; apply Htimes; eauto|]. done.
      * destruct (p_blocks p) as [blocks|] eqn:Hpblocks; [|right; left; eexists _, _; reflexivity].
        right. right. exists p, typedFormula, (Some (adjustTimes times)), blocks.
        split; [done|]. split; [right; apply Htimes; eauto|]. done.
    + destruct (p_blocks p) as [blocks|] eqn:Hpblocks; [|right; left; eexists _, _; reflexivity].
      right. right. exists p, typedFormula, None, blocks.
      split; [done|]. split; [left; apply Hblocks; eauto|]. done.
Qed.

(** The single-block branch: its calls, and its answers. *)
Lemma computeOnce_shape rq typedFormula block :
  let run := computeOnce rq typedFormula block in
  Forall (λ c, is_single c = true) run.1
  ∧ Forall (λ c, is_credit c = false) (tail run.1)
  ∧ (rq_accountKey rq = None → Forall (λ c, is_credit c = false) run.1)
  ∧ match run.2 with
    | inl r => (status r = 402 ∧ ∃ b, run.1 = [UsedCredit None; Computed b])
               ∨ status r = 400
    | inr _ => True
    end.
Proof.
  unfold computeOnce, andThen, call, proceed, badRequest, reply.
  destruct (rq_accountKey rq) as [accountKey|]; simpl;
    repeat case_match; simplify_eq/=; settle_shape.
Qed.

(** All it ever calls: [compute], once, behind at most one use of
    credit. *)
Lemma computeOnce_trace rq typedFormula block :
  let run := computeOnce rq typedFormula block in
  ∃ b, run.1 = [Computed b] ∨ run.1 = [UsedCredit None; Computed b].
Proof.
  unfold computeOnce, andThen, call, proceed, badRequest, reply.
  destruct (rq_accountKey rq) as [accountKey|]; simpl;
    repeat case_match; simplify_eq/=; eauto.
Qed.

(** The reuse protocol never goes beyond the end block it is given,
    and it extends or adds stored computations only from a stored
    start. *)
Lemma reuseExisting_shape stored rq typedFormula blocks :
  let run := reuseExisting stored rq typedFormula blocks in
  Forall (λ c, is_credit c = false) run.1
  ∧ Forall (λ c, match c with
                 | ComputedRange _ blockEnd => blockEnd = blocks.2
                 | UpdatedValidity _ upTo => upTo = height blocks.2
                 | _ => True
                 end) run.1
  ∧ (existingStartComputation stored rq blocks = None →
     run = ([FoundOneComputation], inr None))
  ∧ match run.2 with
    | inl r => status r = 400 ∨ status r = 500
    | inr _ => True
    end.
Proof.
  unfold reuseExisting, andThen, call, proceed, badRequest, internalError, reply.
  destruct (existingStartComputation stored rq blocks) as [start|]; simpl;
    repeat case_match; simplify_eq/=; settle_shape.
Qed.
End RouteShape.

Section RangeShape.
Context `{Runtime} `{!Server}.

Lemma andThen_inl {A B} calls r (m : Step A) (k : A → Step B) :
  m = (calls, inl r) → andThen m k = (calls, inl r).
Proof. by intros ->. Qed.

Lemma andThen_inr {A B} calls a (m : Step A) (k : A → Step B) :
  m = (calls, inr a) → andThen m k = (calls ++ (k a).1, (k a).2).
Proof. intros ->. unfold andThen. by destruct (k a). Qed.

Lemma calm_andThen {A B} P ok (m : Step A) (k : A → Step B) :
  calm P ok m → (∀ a, calm P ok (k a)) → calm P ok (andThen m k).
Proof.
  unfold calm, andThen. destruct m as [calls [r|a]]; simpl; [by intros [? ?]|].
  intros [Hm _] Hk. specialize (Hk a). destruct (k a) as [calls' r'].
  simpl in *. destruct Hk. split; [by apply Forall_app|done].
Qed.

Lemma capped_within_latest (blocks : Block * Block) :
  height (if bool_decide (height state_latestBlock < height blocks.2)
          then (blocks.1, state_latestBlock) else blocks).2
  ≤ height state_latestBlock.
Proof. case_bool_decide; simpl; lia. Qed.

Lemma no_start_without_match stored rq blocks :
  (∀ c, c ∈ stored → ¬ sameQuery rq c) →
  existingStartComputation stored rq blocks = None.
Proof.
  intros Hnone. unfold existingStartComputation.
  apply newest_None, filter_none. intros c Hc [Hsame _]. by apply (Hnone c).
Qed.

Lemma reuseExisting_calm stored rq typedFormula blocks :
  height blocks.2 ≤ height state_latestBlock →
  calm (rangeCall stored rq) (λ st, st = 400 ∨ st = 500)
       (reuseExisting stored rq typedFormula blocks).
Proof.
  intros Hend.
  pose proof (reuseExisting_shape stored rq typedFormula blocks)
    as (Hcredit & Hends & Hnone & Hstatus).
  simpl in *. split; [|done].
  apply Forall_forall. intros c Hc. split; [|split].
  - rewrite Forall_forall in Hends. specialize (Hends c Hc).
    destruct c; simpl in *; try done; by subst.
  - rewrite Forall_forall in Hcredit. by apply Hcredit.
  - intros Hnothing.
    rewrite (Hnone (no_start_without_match _ _ _ Hnothing)) in Hc.
    apply elem_of_cons in Hc as [->|Hc]; [done|inversion Hc].
Qed.

(** The range branch: its calls, and its answers. *)
Lemma computeOverRange_shape stored rq typedFormula blockStep timeStep times
    blocks :
  let run := computeOverRange stored rq typedFormula blockStep timeStep times
               blocks in
  Forall within_latest run.1
  ∧ Forall (λ c, is_credit c = false) (tail run.1)
  ∧ (rq_accountKey rq = None → Forall (λ c, is_credit c = false) run.1)
  ∧ ((∀ c, c ∈ stored → ¬ sameQuery rq c) →
     Forall (λ c, writes_stored c = false) run.1)
  ∧ match run.2 with
    | inl r => (status r = 402 ∧ ∃ amount, run.1 = [UsedCredit (Some amount)])
               ∨ status r = 400 ∨ status r = 500
    | inr _ => True
    end.
Proof.
  unfold computeOverRange.
  pose proof (capped_within_latest blocks) as Hcapped.
  set (capped := if bool_decide (height state_latestBlock < height blocks.2)
                 then (blocks.1, state_latestBlock) else blocks) in *.
  match goal with
  | |- context [andThen ?credit ?k] =>
      set (creditStep := credit); set (rest := k tt);
      change (andThen credit k) with (andThen creditStep (λ _, rest))
  end.
  assert (Hrest : calm (rangeCall stored rq) (λ st, st = 400 ∨ st = 500) rest).
  { subst rest. apply calm_andThen.
    { destruct blockStep, timeStep;
        try (split; [constructor|done]).
      by apply reuseExisting_calm. }
    intros existing. apply calm_andThen; [|intros; split; [constructor|done]].
    destruct existing as [pieces|]; [split; [constructor|done]|].
    apply calm_andThen.
    { split; [|done]. repeat constructor; done. }
    intros _. destruct (computeRange _ _ _ _ _);
      (split; [constructor|simpl; auto]). }
  clearbody rest. destruct Hrest as [Hcalls Hstatus].
  assert (Hwithin : Forall within_latest rest.1)
    by (eapply Forall_impl; [exact Hcalls|]; by intros c (? & ? & ?)).
  assert (Hcredit : Forall (λ c, is_credit c = false) rest.1)
    by (eapply Forall_impl; [exact Hcalls|]; by intros c (? & ? & ?)).
  assert (Hwrites : (∀ c, c ∈ stored → ¬ sameQuery rq c) →
                    Forall (λ c, writes_stored c = false) rest.1).
  { intros Hnone. eapply Forall_impl; [exact Hcalls|].
    intros c (_ & _ & Hc). by apply Hc. }
  subst creditStep. destruct (rq_accountKey rq) as [accountKey|].
  - destruct (useCredit accountKey _) eqn:Hgranted.
    + erewrite andThen_inr by reflexivity. simpl.
      split; [by constructor|]. split; [done|]. split; [done|].
      split; [intros Hnone; constructor; [done|by apply Hwrites]|].
      destruct rest.2; [|done]. by right.
    + erewrite andThen_inl by reflexivity. simpl.
      split; [by repeat constructor|]. split; [constructor|].
      split; [done|]. split; [by repeat constructor|].
      left. eauto.
  - unfold proceed. rewrite andThen_proceed.
    split; [done|]. split; [|split; [done|split; [done|]]].
    + destruct rest.1; [constructor|]. by apply Forall_cons in Hcredit as [_ ?].
    + destruct rest.2; [|done]. by right.
Qed.

End RangeShape.

(** X22. A request that names no range, and any request made with the
    test key, is served by the single-block branch: all the endpoint
    ever calls is [compute], once, behind at most one use of one unit of
    credit; it never computes a range and never goes near the stored
    computations. *)
Theorem single_block_requests `{Runtime} `{!Server}
    (stored : list Computation) (rq : Request) :
  isTestKey rq = true
  ∨ (truthy_string (rq_blocks rq) = None ∧ truthy_string (rq_times rq) = None) →
  (computer stored rq).1 = []
  ∨ ∃ block, (computer stored rq).1 = [Computed block]
             ∨ (computer stored rq).1 = [UsedCredit None; Computed block].
Proof.
  intros Hsingle. rewrite computer_calls.
  destruct (route_cases stored rq)
    as [(r & -> & _)|[(typedFormula & block & ->)
                     |(p & typedFormula & times & blocks & Htest & Hrange & _)]].
  - by left.
  - right. apply computeOnce_trace.
  - exfalso. destruct Hsingle as [Hkey|[Hblocks Htimes]]; [congruence|].
    rewrite Hblocks, Htimes in Hrange.
    destruct Hrange as [[? [=]]|[? [=]]].
Qed.

Lemma single_block_requests_witness :
  let calls :=
    (computer [Sample.piece10; Sample.piece20]
       (SampleRequests.withKey SampleRequests.testKey SampleRequests.range)).1 in
  calls = []
  ∨ ∃ block, calls = [Computed block] ∨ calls = [UsedCredit None; Computed block].
Proof.
  apply (single_block_requests [Sample.piece10; Sample.piece20]
           (SampleRequests.withKey SampleRequests.testKey SampleRequests.range)).
  left. reflexivity.
Defined.

(** X23. The end block is capped at the latest block: whatever the
    request, every range the endpoint computes ends at or below the
    latest block, and no validity of a stored computation is extended
    beyond it.  (The start block is not capped.) *)
Theorem range_within_latest `{Runtime} `{!Server}
    (stored : list Computation) (rq : Request) :
  Forall within_latest (computer stored rq).1.
Proof.
  rewrite computer_calls.
  destruct (route_cases stored rq)
    as [(r & -> & _)|[(typedFormula & block & ->)
                     |(p & typedFormula & times & blocks & _ & _ & _ & ->)]].
  - constructor.
  - pose proof (computeOnce_shape rq typedFormula block) as (Hsingle & _).
    eapply Forall_impl; [exact Hsingle|].
    intros c Hc. by destruct c as [[]| | | | | |].
  - by pose proof (computeOverRange_shape stored rq typedFormula
                     (p_blockStep p) (p_timeStep p) times blocks) as (Hwithin & _).
Qed.

(** The start block is not capped: a range asked for above the latest
    block, 1000 here, is computed from its start down to the latest
    block. *)
Example range_start_not_capped :
  (computer []
     {| rq_type := FtContract; rq_address := Sample.addrA;
        rq_formulaName := "dao/config"; rq_accountKey := None;
        rq_block := QAbsent; rq_blocks := QString "2000:2000000..3000:3000000";
        rq_blockStep := QAbsent; rq_time := QAbsent;
        rq_times := QAbsent; rq_timeStep := QAbsent; rq_args := "{}" |}).1
  = [FoundOneComputation;
     ComputedRange (Sample.blockAt 2000) (Sample.blockAt 1000)].
Proof. vm_compute. reflexivity. Qed.

(** X24. Credit is asked for at most once per request and before
    anything is looked up or computed; a request that carries no account
    key never asks for credit. *)
Theorem credit_first_and_once `{Runtime} `{!Server}
    (stored : list Computation) (rq : Request) :
  Forall (λ c, is_credit c = false) (tail (computer stored rq).1)
  ∧ (rq_accountKey rq = None →
     Forall (λ c, is_credit c = false) (computer stored rq).1).
Proof.
  rewrite computer_calls.
  destruct (route_cases stored rq)
    as [(r & -> & _)|[(typedFormula & block & ->)
                     |(p & typedFormula & times & blocks & _ & _ & _ & ->)]].
  - by split; [constructor|intros _; constructor].
  - by pose proof (computeOnce_shape rq typedFormula block)
      as (_ & Htail & Hnokey & _).
  - by pose proof (computeOverRange_shape stored rq typedFormula
                     (p_blockStep p) (p_timeStep p) times blocks)
      as (_ & Htail & Hnokey & _).
Qed.

(** X25. An answer of 402 comes in two shapes.  For a range the credit
    is asked for first and nothing else has been called when it is
    refused; for a single block the computation has been started next to
    the credit check, so [compute] has been called all the same. *)
Theorem refused_credit `{Runtime} `{!Server}
    (stored : list Computation) (rq : Request) :
  status (computer stored rq).2 = 402 →
  (∃ amount, (computer stored rq).1 = [UsedCredit (Some amount)])
  ∨ (∃ block, (computer stored rq).1 = [UsedCredit None; Computed block]).
Proof.
  rewrite computer_calls, computer_status.
  destruct (route_cases stored rq)
    as [(r & -> & Hstatus)|[(typedFormula & block & ->)
                           |(p & typedFormula & times & blocks & _ & _ & _ & ->)]].
  - simpl. intros Hr. rewrite Hr in Hstatus.
    destruct Hstatus as [|[|[|]]]; discriminate.
  - pose proof (computeOnce_shape rq typedFormula block) as (_ & _ & _ & Hanswer).
    simpl in Hanswer.
    destruct (computeOnce rq typedFormula block).2 as [r|v]; [|discriminate].
    intros Hr. destruct Hanswer as [[_ ?]|Hbad]; [by right|].
    rewrite Hr in Hbad. discriminate.
  - pose proof (computeOverRange_shape stored rq typedFormula (p_blockStep p)
                  (p_timeStep p) times blocks) as (_ & _ & _ & _ & Hanswer).
    simpl in Hanswer.
    destruct (computeOverRange _ _ _ _ _ _ _).2 as [r|v]; [|discriminate].
    intros Hr. destruct Hanswer as [[_ ?]|[Hbad|Hbad]]; [by left| |];
      rewrite Hr in Hbad; discriminate.
Qed.

Lemma refused_credit_witness :
  (∃ amount,
     (@computer _ poorServer []
        (SampleRequests.withKey SampleRequests.payingKey SampleRequests.range)).1
     = [UsedCredit (Some amount)])
  ∨ (∃ block,
       (@computer _ poorServer []
          (SampleRequests.withKey SampleRequests.payingKey SampleRequests.range)).1
       = [UsedCredit None; Computed block]).
Proof.
  apply (@refused_credit _ poorServer []
           (SampleRequests.withKey SampleRequests.payingKey SampleRequests.range)).
  vm_compute. reflexivity.
Defined.

(** X26. A request whose formula, contract or validator is not found,
    or whose contract the formula does not apply to, is turned away before
    anything is called: an answer of 404 or 405 has used no credit and
    computed nothing. *)
Theorem not_found_calls_nobody `{Runtime} `{!Server}
    (stored : list Computation) (rq : Request) :
  status (computer stored rq).2 = 404 ∨ status (computer stored rq).2 = 405 →
  (computer stored rq).1 = [].
Proof.
  rewrite computer_calls, computer_status.
  destruct (route_cases stored rq)
    as [(r & -> & _)|[(typedFormula & block & ->)
                     |(p & typedFormula & times & blocks & _ & _ & _ & ->)]].
  - done.
  - pose proof (computeOnce_shape rq typedFormula block) as (_ & _ & _ & Hanswer).
    simpl in Hanswer.
    destruct (computeOnce rq typedFormula block).2 as [r|v];
      [|intros [|]; discriminate].
    intros Hr. exfalso.
    destruct Hanswer as [[Hbad _]|Hbad], Hr as [Hr|Hr];
      rewrite Hr in Hbad; discriminate.
  - pose proof (computeOverRange_shape stored rq typedFormula (p_blockStep p)
                  (p_timeStep p) times blocks) as (_ & _ & _ & _ & Hanswer).
    simpl in Hanswer.
    destruct (computeOverRange _ _ _ _ _ _ _).2 as [r|v];
      [|intros [|]; discriminate].
    intros Hr. exfalso.
    destruct Hanswer as [[Hbad _]|[Hbad|Hbad]], Hr as [Hr|Hr];
      rewrite Hr in Hbad; discriminate.
Qed.

Lemma not_found_calls_nobody_witness :
  (computer [Sample.piece10]
     (SampleRequests.withKey SampleRequests.payingKey
        (Sample.request Sample.addrA "dao/unknown"))).1 = [].
Proof.
  apply (not_found_calls_nobody [Sample.piece10]
           (SampleRequests.withKey SampleRequests.payingKey
              (Sample.request Sample.addrA "dao/unknown"))).
  left. vm_compute. reflexivity.
Defined.

(** X27. The endpoint never starts the stored computations of a query:
    when no stored computation has the address, formula and arguments of
    the request, it stores nothing and extends nothing, range or not. *)
Theorem nothing_stored_nothing_written `{Runtime} `{!Server}
    (stored : list Computation) (rq : Request) :
  (∀ c, c ∈ stored → ¬ sameQuery rq c) →
  Forall (λ c, writes_stored c = false) (computer stored rq).1.
Proof.
  intros Hnone. rewrite computer_calls.
  destruct (route_cases stored rq)
    as [(r & -> & _)|[(typedFormula & block & ->)
                     |(p & typedFormula & times & blocks & _ & _ & _ & ->)]].
  - constructor.
  - pose proof (computeOnce_shape rq typedFormula block) as (Hsingle & _).
    eapply Forall_impl; [exact Hsingle|].
    intros c Hc. by destruct c as [[]| | | | | |].
  - pose proof (computeOverRange_shape stored rq typedFormula
                  (p_blockStep p) (p_timeStep p) times blocks)
      as (_ & _ & _ & Hwrites & _).
    by apply Hwrites.
Qed.

Lemma nothing_stored_nothing_written_witness :
  Forall (λ c, writes_stored c = false) (computer [] SampleRequests.range).1.
Proof.
  apply (nothing_stored_nothing_written [] SampleRequests.range).
  intros c Hc. inversion Hc.
Defined.

(** X28. A [time] of zero counts as no [time]: the zero big integer is
    falsy, so the request is computed at its [block], or at the latest
    block, exactly as if the parameter had been left out. *)
Theorem time_zero_is_no_time `{Runtime} `{!Server}
    (stored : list Computation) (rq : Request) (time : string) :
  truthy_string (rq_time rq) = Some time →
  BigInt time = Some 0 →
  computer stored rq = computer stored (withoutTime rq).
Proof.
  intros Htime Hzero.
  assert (Hroute : route stored rq = route stored (withoutTime rq));
    [|unfold computer; by rewrite Hroute].
  unfold route, validate.
  change (validateBlocks (withoutTime rq)) with (validateBlocks rq).
  change (validateTimes (withoutTime rq)) with (validateTimes rq).
  change (checkTarget (withoutTime rq)) with (checkTarget rq).
  change (computeOnce (withoutTime rq)) with (computeOnce rq).
  change (computeOverRange stored (withoutTime rq))
    with (computeOverRange stored rq).
  change (isTestKey (withoutTime rq)) with (isTestKey rq).
  cbn [withoutTime rq_type rq_address rq_formulaName rq_block rq_time
       truthy_string].
  rewrite Htime, Hzero. rewrite bool_decide_eq_false_2 by lia.
  generalize (validateBlocks rq), (validateTimes rq), (checkTarget rq),
    (computeOnce rq), (computeOverRange stored rq), (isTestKey rq).
  intros validatedBlocks validatedTimes checkedTarget once overRange test.
  unfold andThen, proceed, badRequest, reply.
  repeat (case_match; simplify_eq/=; try done).
Qed.

Lemma time_zero_is_no_time_witness :
  computer [] (SampleRequests.atTime "0")
  = computer [] (withoutTime (SampleRequests.atTime "0")).
Proof.
  apply (time_zero_is_no_time [] (SampleRequests.atTime "0") "0");
    reflexivity.
Defined.

